(** * scripts/performance/extension-impact.js

    A shallow embedding of the benchmark sweep script and the properties
    its specification states about it.

    Definitions:
    - [JsString]: the String / Buffer built-ins the script calls
      ([substring], [indexOf], [lastIndexOf], the global replace that
      drops every double quote, the decoding of a Buffer).  A
      JavaScript string is a [string] holding its code units, which
      keeps them within U+0000..U+00FF; a Buffer is a [string] holding
      its bytes; the text decoded from a Buffer, which may hold any
      code unit, is a [text];
    - [JsNumber]: [parseFloat], [parseInt], [isNaN] and the arithmetic
      of the report, over an interface for IEEE doubles;
    - [Script]: the script itself, as state passing over a world made of
      the file system, the libuv thread pool, the module cache, the
      console and the script's module-level variables, and the process
      around it (event loop, signal and exit listeners);
    - [Reference], [Samples]: instances and inputs to run the script on;
    - [Logic], [Coverage]: the predicates the properties are stated
      with.

    Properties:
    - [StringFacts], [NumberFacts], [ScriptFacts], [CoverageFacts],
      [ExactFacts]: supporting lemmas;
    - [QualifierProps], [MeasurementProps], [ReportProps], [OptionProps],
      [WorkspaceProps], [RunProps]: the properties the specification
      states;
    - [ParsingExtras], [EnumeratorExtras], [StartupExtras],
      [FileExtras], [SweepExtras]: further properties of the script. *)

From Stdlib Require Import ZArith String Ascii List Lia Bool.
From Stdlib Require Import DecimalString DecimalPos.
From stdpp Require Import base option strings gmap list.

Local Open Scope Z_scope.
Local Open Scope string_scope.

(* stdpp blocks [simpl] on string concatenation; the proofs below
   compute with it. *)
#[global] Arguments String.append !s1 s2 : simpl nomatch.

(** ** String built-ins *)

Module JsString.

(** Positions are JavaScript numbers; [-1] is "not found". *)
Definition len (s : string) : Z := Z.of_nat (String.length s).

Fixpoint drop (n : nat) (s : string) : string :=
  match n, s with
  | O, _ => s
  | S n', String _ s' => drop n' s'
  | S _, EmptyString => EmptyString
  end.

Fixpoint take (n : nat) (s : string) : string :=
  match n, s with
  | O, _ => EmptyString
  | S n', String c s' => String c (take n' s')
  | S _, EmptyString => EmptyString
  end.

(** [ToIntegerOrInfinity] followed by the clamp to [0, length]. *)
Definition clamp (s : string) (i : Z) : nat :=
  Z.to_nat (Z.min (Z.max i 0) (len s)).

(** [String.prototype.substring(start, end)]: both ends are clamped to
    [0, length] and swapped when [start > end]. *)
Definition substring (s : string) (start stop : Z) : string :=
  let a := clamp s start in
  let b := clamp s stop in
  let lo := Nat.min a b in
  let hi := Nat.max a b in
  take (hi - lo) (drop lo s).

(** [substring(start)]: the end defaults to the length. *)
Definition substring_from (s : string) (start : Z) : string :=
  substring s start (len s).

(** First position of [m] in [s], counted from the head of [s]. *)
Fixpoint find_first (m s : string) : option nat :=
  if String.prefix m s then Some O
  else match s with
       | EmptyString => None
       | String _ s' => option_map S (find_first m s')
       end.

(** Last position of [m] in [s]. *)
Fixpoint find_last (m s : string) : option nat :=
  match s with
  | EmptyString => if String.prefix m s then Some O else None
  | String _ s' =>
      match find_last m s' with
      | Some i => Some (S i)
      | None => if String.prefix m s then Some O else None
      end
  end.

(** [indexOf(search, fromIndex)] *)
Definition indexOf (s m : string) (from : Z) : Z :=
  let k := clamp s from in
  match find_first m (drop k s) with
  | Some i => Z.of_nat (k + i)
  | None => -1
  end.

(** [lastIndexOf(search)] *)
Definition lastIndexOf (s m : string) : Z :=
  match find_last m s with
  | Some i => Z.of_nat i
  | None => -1
  end.

(** The double quote, U+0022. *)
Definition dquote : ascii := ascii_of_nat 34.

Definition is_quote (c : ascii) : bool := Ascii.eqb c dquote.

(** [replace] with the global pattern matching one double quote and
    the empty replacement. *)
Fixpoint strip_quotes (s : string) : string :=
  match s with
  | EmptyString => EmptyString
  | String c s' =>
      if is_quote c then strip_quotes s' else String c (strip_quotes s')
  end.

(** *** Buffers and the text they hold

    [execSync] returns a Buffer.  [Buffer.lastIndexOf] and
    [Buffer.indexOf] look for the UTF-8 encoding of their argument
    and answer positions in bytes; [Buffer.toString()] decodes the
    bytes as UTF-8 into a JavaScript string, whose positions count
    UTF-16 code units. *)

(** A decoded string: its UTF-16 code units. *)
Definition text : Type := list N.

(** Bytes below 128 stand for themselves. *)
Fixpoint units_of (s : string) : text :=
  match s with
  | EmptyString => nil
  | String c s' => cons (N_of_ascii c) (units_of s')
  end.

Fixpoint seven_bit (s : string) : bool :=
  match s with
  | EmptyString => true
  | String c s' => (N_of_ascii c <? 128)%N && seven_bit s'
  end.

(** The UTF-8 encoding of a string of code units below 256: one byte
    below 128, two bytes from there on. *)
Fixpoint utf8_of (s : string) : string :=
  match s with
  | EmptyString => EmptyString
  | String c s' =>
      let n := nat_of_ascii c in
      if (n <? 128)%nat then String c (utf8_of s')
      else String (ascii_of_nat (192 + n / 64))
             (String (ascii_of_nat (128 + n mod 64)) (utf8_of s'))
  end.

(** [Buffer.prototype.toString()].  What ill-formed input decodes to
    is left to the instance; bytes below 128 decode to themselves. *)
Class Utf8 := {
  buffer_toString : string -> text;
  buffer_toString_seven_bit :
    forall s, seven_bit s = true -> buffer_toString s = units_of s
}.

Definition text_clamp (t : text) (i : Z) : nat :=
  Z.to_nat (Z.min (Z.max i 0) (Z.of_nat (List.length t))).

(** [substring] on a decoded string. *)
Definition text_substring (t : text) (start stop : Z) : text :=
  let a := text_clamp t start in
  let b := text_clamp t stop in
  let lo := Nat.min a b in
  let hi := Nat.max a b in
  firstn (hi - lo) (skipn lo t).

End JsString.

(** ** Number built-ins *)

Module JsNumber.
Import JsString.

Definition is_digit (c : ascii) : bool :=
  let n := nat_of_ascii c in (48 <=? n)%nat && (n <=? 57)%nat.

(** [StrWhiteSpaceChar] among the code units below 256: TAB, LF, VT,
    FF, CR, SP and NBSP. *)
Definition is_space (c : ascii) : bool :=
  let n := nat_of_ascii c in
  ((9 <=? n)%nat && (n <=? 13)%nat) || (n =? 32)%nat || (n =? 160)%nat.

Fixpoint skip_spaces (s : string) : string :=
  match s with
  | String c s' => if is_space c then skip_spaces s' else s
  | EmptyString => s
  end.

(** Longest run of decimal digits at the head, and what follows it. *)
Fixpoint span_digits (s : string) : string * string :=
  match s with
  | String c s' =>
      if is_digit c
      then let '(d, r) := span_digits s' in (String c d, r)
      else (EmptyString, s)
  | EmptyString => (EmptyString, EmptyString)
  end.

(** An optional sign: the sign as text, and what follows it. *)
Definition take_sign (s : string) : string * string :=
  match s with
  | String c s' =>
      if Ascii.eqb c "+"%char || Ascii.eqb c "-"%char
      then (String c EmptyString, s') else (EmptyString, s)
  | EmptyString => (EmptyString, s)
  end.

(** [ExponentPart], when one is present at the head. *)
Definition take_exponent (s : string) : string :=
  match s with
  | String c s' =>
      if Ascii.eqb c "e"%char || Ascii.eqb c "E"%char
      then let '(sg, r) := take_sign s' in
           let '(d, _) := span_digits r in
           match d with
           | EmptyString => EmptyString
           | _ => String c (sg ++ d)
           end
      else EmptyString
  | EmptyString => EmptyString
  end.

(** The unsigned part of a [StrDecimalLiteral] at the head of [s]. *)
Definition take_unsigned (s : string) : option string :=
  if String.prefix "Infinity" s then Some "Infinity"
  else
    let '(ip, r1) := span_digits s in
    match r1 with
    | String "." r2 =>
        let '(fp, r3) := span_digits r2 in
        match ip, fp with
        | EmptyString, EmptyString => None
        | _, _ => Some (ip ++ "." ++ fp ++ take_exponent r3)
        end
    | _ =>
        match ip with
        | EmptyString => None
        | _ => Some (ip ++ take_exponent r1)
        end
    end.

(** The text [parseFloat] converts: leading white space is skipped
    and the longest prefix that is a [StrDecimalLiteral] is kept.
    [None] is the case in which [parseFloat] answers [NaN]. *)
Definition float_literal (s : string) : option string :=
  let '(sg, r) := take_sign (skip_spaces s) in
  option_map (fun u => sg ++ u) (take_unsigned r).

(** [StrWhiteSpaceChar] among all code units: the above, U+1680,
    U+2000 to U+200A, U+2028, U+2029, U+202F, U+205F, U+3000 and
    U+FEFF. *)
Definition is_white (u : N) : bool :=
  (((9 <=? u) && (u <=? 13)) || (u =? 32) || (u =? 160) || (u =? 5760)
   || ((8192 <=? u) && (u <=? 8202)) || (u =? 8232) || (u =? 8233)
   || (u =? 8239) || (u =? 8287) || (u =? 12288) || (u =? 65279))%N.

Fixpoint skip_white (t : text) : text :=
  match t with
  | cons u t' => if is_white u then skip_white t' else t
  | nil => nil
  end.

(** The code units below 256 at the head of a decoded string. *)
Fixpoint narrow (t : text) : string :=
  match t with
  | cons u t' =>
      if (u <? 256)%N then String (ascii_of_N u) (narrow t')
      else EmptyString
  | nil => EmptyString
  end.

(** [float_literal] on a decoded string: every character of a
    [StrDecimalLiteral] is below 128, so the literal lies within the
    code units below 256 that follow the white space. *)
Definition text_float_literal (t : text) : option string :=
  float_literal (narrow (skip_white t)).

(** The decimal digits of an integer, with a leading minus sign when
    it is negative. *)
Definition int_toString (z : Z) : string :=
  NilEmpty.string_of_int (Z.to_int z).

(** IEEE doubles other than [NaN], with the operations the script
    applies to them.  The script never inspects a double beyond these
    operations, so their rounding is left to the instance. *)
Class Double (F : Type) := {
  (** the double nearest to the value of a [StrDecimalLiteral] *)
  of_literal : string -> F;
  (** [StringToNumber], used when [-] coerces a string operand *)
  of_string : string -> option F;
  fsub : F -> F -> option F;
  fdiv : F -> F -> option F;
  fmul : F -> F -> option F;
  hundred : F;
  (** [Number.prototype.toFixed(3)] *)
  toFixed3 : F -> string;
  (** [Number.prototype.toString()] *)
  toString : F -> string;
  (** [ToBoolean]: false exactly for the zeros *)
  truthy : F -> bool;
  (** an integer of magnitude up to 2^53 is a double, and prints as
      its decimal digits *)
  toString_integer :
    forall z : Z, Z.abs z <= 9007199254740992 ->
      toString (of_literal (int_toString z)) = int_toString z
}.

(** A JavaScript number: [None] is [NaN]. *)
Definition number (F : Type) : Type := option F.

Section Ops.
Context {F : Type} `{Double F}.

Definition parseFloat (s : string) : number F :=
  option_map of_literal (float_literal s).

(** [parseFloat] of a decoded string. *)
Definition parseFloatText (t : text) : number F :=
  option_map of_literal (text_float_literal t).

(** The double nearest to an integer. *)
Definition of_integer (z : Z) : F := of_literal (int_toString z).

Definition isNaN (x : number F) : bool :=
  match x with None => true | Some _ => false end.

Definition sub (x y : number F) : number F :=
  match x, y with Some a, Some b => fsub a b | _, _ => None end.

Definition div (x y : number F) : number F :=
  match x, y with Some a, Some b => fdiv a b | _, _ => None end.

Definition mul (x y : number F) : number F :=
  match x, y with Some a, Some b => fmul a b | _, _ => None end.

Definition toFixed (x : number F) : string :=
  match x with Some a => toFixed3 a | None => "NaN" end.

Definition num_toString (x : number F) : string :=
  match x with Some a => toString a | None => "NaN" end.

Definition num_truthy (x : number F) : bool :=
  match x with Some a => truthy a | None => false end.
End Ops.

(** *** Integers *)

Fixpoint digits_value (s : string) (acc : Z) : Z :=
  match s with
  | String c s' =>
      digits_value s' (10 * acc + (Z.of_nat (nat_of_ascii c) - 48))
  | EmptyString => acc
  end.

(** [parseInt(string)] in radix 10: white space, an optional sign and
    the longest run of digits, as the integer they write; [None] is
    [NaN].  The result of [parseInt] is the double nearest to that
    integer ([of_integer]); the integer itself decides a comparison
    with 2 the same way, 2 and the integers around it being doubles.
    (The hexadecimal prefix is not modelled: the script only passes
    the output of [Number.prototype.toString], which never has
    one.) *)
Definition parseInt (s : string) : option Z :=
  let '(sg, r) := take_sign (skip_spaces s) in
  let '(d, _) := span_digits r in
  match d with
  | EmptyString => None
  | _ => Some (if String.eqb sg "-" then - digits_value d 0
               else digits_value d 0)
  end.

End JsNumber.

(** ** The script *)

Module Script.
Import JsString JsNumber.

(** *** Data *)

(** The JSON document in a manifest file: its [dependencies] member
    (absent in [None]), in insertion order, and the other top-level
    members as raw JSON text. *)
Record package := Package {
  dependencies : option (list (string * string));
  members : list (string * string)
}.

(** [JSON.parse], from the bytes of a file as [require] reads it, and
    [JSON.stringify(_, null, 2)] on manifests. *)
Class Json := {
  JSON_parse : string -> option package;
  JSON_stringify : package -> string
}.

(** An object with string values is the list of its own properties
    in the order [JSON.stringify] and [Object.keys] go through them:
    the array indices in ascending order, then the other keys in the
    order of their creation. *)

(** An array index: the canonical decimal text of an integer below
    2^32 - 1. *)
Definition array_index (k : string) : option Z :=
  match span_digits k with
  | (String c d, EmptyString) =>
      if Ascii.eqb c "0"%char && negb (String.eqb d "") then None
      else
        let n := digits_value k 0 in
        if (n <? 4294967295)%Z then Some n else None
  | _ => None
  end.

Fixpoint has_key (key : string) (o : list (string * string)) : bool :=
  match o with
  | [] => false
  | (k, _) :: o' => String.eqb k key || has_key key o'
  end.

(** The value of an own property is replaced where it stands. *)
Fixpoint update (key value : string) (o : list (string * string))
  : list (string * string) :=
  match o with
  | [] => []
  | (k, v) :: o' =>
      if String.eqb k key then (k, value) :: o'
      else (k, v) :: update key value o'
  end.

(** A new array index goes before the first key that is not a smaller
    array index. *)
Fixpoint insert_index (n : Z) (key value : string)
    (o : list (string * string)) : list (string * string) :=
  match o with
  | [] => [(key, value)]
  | (k, v) :: o' =>
      match array_index k with
      | Some m =>
          if (m <? n)%Z then (k, v) :: insert_index n key value o'
          else (key, value) :: o
      | None => (key, value) :: o
      end
  end.

(** [obj[key] = value] for a string [value], on an object created by
    [JSON.parse].  An own property is updated.  Otherwise the key
    [__proto__] reaches the setter of [Object.prototype], which
    ignores a string; any other key becomes a new own property. *)
Definition assign (key value : string) (o : list (string * string))
  : list (string * string) :=
  if has_key key o then update key value o
  else if String.eqb key "__proto__" then o
  else
    match array_index key with
    | Some n => insert_index n key value o
    | None => o ++ [(key, value)]
    end.

Definition live_path : string := "../../examples/browser/package.json".
Definition backup_path : string := "./backup-package.json".
Definition base_path : string := "./base-package.json".
Definition no_plugins_path : string := "../../noPlugins".

(** One entry of [readdirSync('../../packages', {withFileTypes})],
    with what [require] finds in its [package.json] ([None]: the
    [require] throws). *)
Record dirent := Dirent {
  dir_name : string;
  isDirectory : bool;
  dir_manifest : option (string * string)
}.

(** What happens around the script in one run. *)
Record env := Env {
  (** the [k]-th [execSync]: the captured output, or [None] when the
      command fails and [execSync] throws *)
  exec_result : nat -> option string;
  (** the [k]-th [copyFile] request: how many later synchronous
      operations of the main thread the thread pool lets pass before
      the copy is carried out *)
  copy_delay : nat -> nat;
  (** [readdirSync('../../packages')]; [None] when it throws *)
  packages : option (list dirent);
  (** how many later synchronous operations of the main thread the
      thread pool lets pass before it carries out the [mkdir] of
      [mkdirp] *)
  mkdirp_delay : nat;
  (** the error [mkdirp] hands to its callback, if any; [None] when
      the directory is there in the end *)
  mkdirp_error : option string;
  (** a SIGINT reached the process while the sweep was running *)
  sigint : bool;
  (** the runtime ends the process on an unhandled rejection *)
  rejections_fatal : bool
}.

(** What the run does to the outside, in order: the file operations
    of the main thread, the requests to the thread pool and their
    completion (with or without success), the commands, the exit. *)
Inductive event :=
| EvCopySync (src dst : string)
| EvCopyIssued (id : nat) (src dst : string)
| EvCopyLanded (id : nat) (ok : bool)
| EvMkdirIssued (path : string)
| EvMkdirDone (path : string) (ok : bool)
| EvWrite (path data : string)
| EvUnlink (path : string)
| EvExec (cmd : string)
| EvExit (code : Z).

(** A request in the thread pool: a [copyFile], or the [mkdir] of
    [mkdirp] with the error it will end with, if any.  [wait] counts
    the synchronous operations of the main thread the request still
    lets pass. *)
Inductive request :=
| CopyRequest (id wait : nat) (src dst : string)
| MkdirRequest (wait : nat) (path : string) (error : option string).

Definition req_wait (r : request) : nat :=
  match r with
  | CopyRequest _ n _ _ => n
  | MkdirRequest n _ _ => n
  end.

Definition set_wait (n : nat) (r : request) : request :=
  match r with
  | CopyRequest id _ src dst => CopyRequest id n src dst
  | MkdirRequest _ path e => MkdirRequest n path e
  end.

(** The file a request writes, if it writes one. *)
Definition req_dst (r : request) : option string :=
  match r with
  | CopyRequest _ _ _ dst => Some dst
  | MkdirRequest _ _ _ => None
  end.

(** A request that writes a file writes the live manifest. *)
Definition targets_live (r : request) : Prop :=
  forall dst, req_dst r = Some dst -> dst = live_path.

(** A request writes the live manifest or makes the directory of
    [prepareWorkspace]. *)
Definition targets_workspace (r : request) : Prop :=
  match r with
  | CopyRequest _ _ _ dst => dst = live_path
  | MkdirRequest _ path _ => path = no_plugins_path
  end.

(** How a statement ends: it completes with a value or throws. *)
Inductive outcome (A : Type) :=
| Ret (a : A)
| Throw (e : string).
Arguments Ret {A} a.
Arguments Throw {A} e.

Section WithNumbers.
Context {F : Type} `{Double F} `{Json} {U8 : Utf8}.

(** The module-level [baseTime]: [undefined], the string
    [toFixed(3)] made of [--base-time], or a measured mean. *)
Inductive base_time :=
| BUndefined
| BString (s : string)
| BNumber (x : number F).

(** The options object of yargs. *)
Record argv := Argv {
  arg_baseTime : option (number F);
  arg_runs : option (number F);
  arg_extensions : option (list string);
  arg_yarn : option bool;
  arg_url : option string
}.

Record world := World {
  (** the files, by path *)
  fs : gmap string string;
  (** the directories the run has made *)
  dirs : list string;
  (** requests not yet carried out, oldest first *)
  pool : list request;
  (** errors of finished asynchronous calls, waiting for the event
      loop to run their callbacks *)
  callbacks : list string;
  copies : nat;
  execs : nat;
  (** the entry of the live manifest in the cache of [require] *)
  cache : option package;
  (** [runs]: the integer it holds, [None] for [NaN] *)
  runs : option Z;
  baseTime : base_time;
  extensions : list string;
  yarn : bool;
  url : option string;
  stdout : list string;
  stderr : list string;
  (** rejected promises nobody awaited *)
  unhandled : list string;
  trace : list event
}.

Definition init_world (fs0 : gmap string string) : world :=
  {| fs := fs0; dirs := []; pool := []; callbacks := []; copies := 0; execs := 0;
     cache := None; runs := Some 10; baseTime := BUndefined;
     extensions := []; yarn := false; url := None;
     stdout := []; stderr := []; unhandled := []; trace := [] |}.

(** Field updates. *)
Definition set_fs v (w : world) : world :=
  World v (w.(dirs)) (w.(pool)) (w.(callbacks)) (w.(copies)) (w.(execs))
    (w.(cache)) (w.(runs)) (w.(baseTime)) (w.(extensions)) (w.(yarn))
    (w.(url)) (w.(stdout)) (w.(stderr)) (w.(unhandled)) (w.(trace)).
Definition set_dirs v (w : world) : world :=
  World (w.(fs)) v (w.(pool)) (w.(callbacks)) (w.(copies)) (w.(execs))
    (w.(cache)) (w.(runs)) (w.(baseTime)) (w.(extensions)) (w.(yarn))
    (w.(url)) (w.(stdout)) (w.(stderr)) (w.(unhandled)) (w.(trace)).
Definition set_pool v (w : world) : world :=
  World (w.(fs)) (w.(dirs)) v (w.(callbacks)) (w.(copies)) (w.(execs))
    (w.(cache)) (w.(runs)) (w.(baseTime)) (w.(extensions)) (w.(yarn))
    (w.(url)) (w.(stdout)) (w.(stderr)) (w.(unhandled)) (w.(trace)).
Definition set_callbacks v (w : world) : world :=
  World (w.(fs)) (w.(dirs)) (w.(pool)) v (w.(copies)) (w.(execs))
    (w.(cache)) (w.(runs)) (w.(baseTime)) (w.(extensions)) (w.(yarn))
    (w.(url)) (w.(stdout)) (w.(stderr)) (w.(unhandled)) (w.(trace)).
Definition set_copies v (w : world) : world :=
  World (w.(fs)) (w.(dirs)) (w.(pool)) (w.(callbacks)) v (w.(execs))
    (w.(cache)) (w.(runs)) (w.(baseTime)) (w.(extensions)) (w.(yarn))
    (w.(url)) (w.(stdout)) (w.(stderr)) (w.(unhandled)) (w.(trace)).
Definition set_execs v (w : world) : world :=
  World (w.(fs)) (w.(dirs)) (w.(pool)) (w.(callbacks)) (w.(copies)) v
    (w.(cache)) (w.(runs)) (w.(baseTime)) (w.(extensions)) (w.(yarn))
    (w.(url)) (w.(stdout)) (w.(stderr)) (w.(unhandled)) (w.(trace)).
Definition set_cache v (w : world) : world :=
  World (w.(fs)) (w.(dirs)) (w.(pool)) (w.(callbacks)) (w.(copies))
    (w.(execs)) v (w.(runs)) (w.(baseTime)) (w.(extensions)) (w.(yarn))
    (w.(url)) (w.(stdout)) (w.(stderr)) (w.(unhandled)) (w.(trace)).
Definition set_runs v (w : world) : world :=
  World (w.(fs)) (w.(dirs)) (w.(pool)) (w.(callbacks)) (w.(copies))
    (w.(execs)) (w.(cache)) v (w.(baseTime)) (w.(extensions)) (w.(yarn))
    (w.(url)) (w.(stdout)) (w.(stderr)) (w.(unhandled)) (w.(trace)).
Definition set_baseTime v (w : world) : world :=
  World (w.(fs)) (w.(dirs)) (w.(pool)) (w.(callbacks)) (w.(copies))
    (w.(execs)) (w.(cache)) (w.(runs)) v (w.(extensions)) (w.(yarn))
    (w.(url)) (w.(stdout)) (w.(stderr)) (w.(unhandled)) (w.(trace)).
Definition set_extensions v (w : world) : world :=
  World (w.(fs)) (w.(dirs)) (w.(pool)) (w.(callbacks)) (w.(copies))
    (w.(execs)) (w.(cache)) (w.(runs)) (w.(baseTime)) v (w.(yarn))
    (w.(url)) (w.(stdout)) (w.(stderr)) (w.(unhandled)) (w.(trace)).
Definition set_yarn v (w : world) : world :=
  World (w.(fs)) (w.(dirs)) (w.(pool)) (w.(callbacks)) (w.(copies))
    (w.(execs)) (w.(cache)) (w.(runs)) (w.(baseTime)) (w.(extensions)) v
    (w.(url)) (w.(stdout)) (w.(stderr)) (w.(unhandled)) (w.(trace)).
Definition set_url v (w : world) : world :=
  World (w.(fs)) (w.(dirs)) (w.(pool)) (w.(callbacks)) (w.(copies))
    (w.(execs)) (w.(cache)) (w.(runs)) (w.(baseTime)) (w.(extensions))
    (w.(yarn)) v (w.(stdout)) (w.(stderr)) (w.(unhandled)) (w.(trace)).
Definition set_stdout v (w : world) : world :=
  World (w.(fs)) (w.(dirs)) (w.(pool)) (w.(callbacks)) (w.(copies))
    (w.(execs)) (w.(cache)) (w.(runs)) (w.(baseTime)) (w.(extensions))
    (w.(yarn)) (w.(url)) v (w.(stderr)) (w.(unhandled)) (w.(trace)).
Definition set_stderr v (w : world) : world :=
  World (w.(fs)) (w.(dirs)) (w.(pool)) (w.(callbacks)) (w.(copies))
    (w.(execs)) (w.(cache)) (w.(runs)) (w.(baseTime)) (w.(extensions))
    (w.(yarn)) (w.(url)) (w.(stdout)) v (w.(unhandled)) (w.(trace)).
Definition set_unhandled v (w : world) : world :=
  World (w.(fs)) (w.(dirs)) (w.(pool)) (w.(callbacks)) (w.(copies))
    (w.(execs)) (w.(cache)) (w.(runs)) (w.(baseTime)) (w.(extensions))
    (w.(yarn)) (w.(url)) (w.(stdout)) (w.(stderr)) v (w.(trace)).
Definition set_trace v (w : world) : world :=
  World (w.(fs)) (w.(dirs)) (w.(pool)) (w.(callbacks)) (w.(copies))
    (w.(execs)) (w.(cache)) (w.(runs)) (w.(baseTime)) (w.(extensions))
    (w.(yarn)) (w.(url)) (w.(stdout)) (w.(stderr)) (w.(unhandled)) v.


(** *** Effects

    A statement either completes with a value or throws; either
    way it leaves a world behind.  Every [async] function of the
    script runs to its end without waiting for anything (no [await]
    in it is given a promise that is still pending), so a call of
    one is the run of its body, and its promise is the [outcome]:
    fulfilled for [Ret], rejected for [Throw]. *)
Definition M (A : Type) : Type := world -> outcome A * world.

Definition ret {A} (a : A) : M A := fun w => (Ret a, w).
Definition throw {A} (e : string) : M A := fun w => (Throw e, w).
Definition bind {A B} (m : M A) (k : A -> M B) : M B :=
  fun w => match m w with
           | (Ret a, w') => k a w'
           | (Throw e, w') => (Throw e, w')
           end.
Definition modify (f : world -> world) : M unit :=
  fun w => (Ret tt, f w).
Definition gets {A} (f : world -> A) : M A := fun w => (Ret (f w), w).

Notation "x <- m ;; k" := (bind m (fun x => k))
  (at level 100, m at next level, right associativity).
Notation "m ;; k" := (bind m (fun _ => k))
  (at level 100, right associativity).

Variable E : env.

Definition log_event (e : event) (w : world) : world :=
  set_trace (w.(trace) ++ [e]) w.

(** The thread pool carries out one request: the copy, or an error
    kept for the callback when the source is missing; the directory,
    or the error kept for the callback of [mkdirp]. *)
Definition land (r : request) (w : world) : world :=
  match r with
  | CopyRequest id _ src dst =>
      match w.(fs) !! src with
      | Some c =>
          log_event (EvCopyLanded id true) (set_fs (<[dst := c]> w.(fs)) w)
      | None =>
          log_event (EvCopyLanded id false)
            (set_callbacks (w.(callbacks) ++ ["ENOENT: " ++ src]) w)
      end
  | MkdirRequest _ path None =>
      log_event (EvMkdirDone path true) (set_dirs (w.(dirs) ++ [path]) w)
  | MkdirRequest _ path (Some e) =>
      log_event (EvMkdirDone path false)
        (set_callbacks (w.(callbacks) ++ [e]) w)
  end.

(** The thread pool's progress while the main thread gets to its
    next synchronous operation: requests whose wait is over are
    carried out, oldest first; the others wait one operation less. *)
Fixpoint advance (rs : list request) (w : world) : list request * world :=
  match rs with
  | [] => ([], w)
  | r :: rs' =>
      match req_wait r with
      | O => advance rs' (land r w)
      | S n =>
          let '(keep, w') := advance rs' w in
          (set_wait n r :: keep, w')
      end
  end.

Definition tick (w : world) : world :=
  let '(keep, w') := advance w.(pool) (set_pool [] w) in
  set_pool keep w'.

(** [copyFileSync(src, dst)] *)
Definition copyFileSync (src dst : string) : M unit :=
  fun w0 =>
    let w := tick w0 in
    match w.(fs) !! src with
    | Some c =>
        (Ret tt, log_event (EvCopySync src dst)
                   (set_fs (<[dst := c]> w.(fs)) w))
    | None => (Throw ("ENOENT: " ++ src), w)
    end.

(** [unlinkSync(path)] *)
Definition unlinkSync (path : string) : M unit :=
  fun w0 =>
    let w := tick w0 in
    match w.(fs) !! path with
    | Some _ =>
        (Ret tt, log_event (EvUnlink path) (set_fs (delete path w.(fs)) w))
    | None => (Throw ("ENOENT: " ++ path), w)
    end.

(** [writeFileSync(path, data)]: the file holds the UTF-8 encoding
    of the string. *)
Definition writeFileSync (path data : string) : M unit :=
  fun w0 =>
    let w := tick w0 in
    (Ret tt, log_event (EvWrite path data)
               (set_fs (<[path := utf8_of data]> w.(fs)) w)).

(** [copyFile(src, dst, callback)]: the request goes to the thread
    pool and the call returns. *)
Definition copyFile (src dst : string) : M unit :=
  modify (fun w =>
    let id := w.(copies) in
    log_event (EvCopyIssued id src dst)
      (set_copies (S id)
         (set_pool (w.(pool) ++ [CopyRequest id (copy_delay E id) src dst])
            w))).

(** [execSync(command)]: blocks until the command ends.  The
    commands of the script do not write any of the three manifest
    files. *)
Definition execSync (cmd : string) : M string :=
  fun w0 =>
    let w := tick w0 in
    let k := w.(execs) in
    let w' := log_event (EvExec cmd) (set_execs (S k) w) in
    match exec_result E k with
    | Some out => (Ret out, w')
    | None => (Throw ("Command failed: " ++ cmd), w')
    end.

Definition console_log (line : string) : M unit :=
  modify (fun w => set_stdout (w.(stdout) ++ [line]) w).

Definition console_error (line : string) : M unit :=
  modify (fun w => set_stderr (w.(stderr) ++ [line]) w).

(** [require('../../examples/browser/package.json')]: read and
    parsed on the first call, the same object on every later one. *)
Definition require_live : M package :=
  fun w0 =>
    match w0.(cache) with
    | Some p => (Ret p, w0)
    | None =>
        let w := tick w0 in
        match w.(fs) !! live_path with
        | None => (Throw ("Cannot find module " ++ live_path), w)
        | Some text =>
            match JSON_parse text with
            | None => (Throw "SyntaxError", w)
            | Some p => (Ret p, set_cache (Some p) w)
            end
        end
    end.


(** *** The functions of the script *)

Definition q : string := String dquote EmptyString.

(** The text of [runs] in a template literal: [runs] is the double
    nearest to the integer it holds. *)
Definition runs_text (r : option Z) : string :=
  match r with Some z => toString (of_integer z) | None => "NaN" end.

(** [getMeasurement(output, identifier)].  [output] is the Buffer
    [execSync] returns: the two positions are byte positions in it,
    and [substring] applies them to the string it decodes to.
    [identifier.length] counts code units. *)
Definition getMeasurement (output identifier : string) : text :=
  let firstIndex :=
    lastIndexOf output (utf8_of identifier) + len identifier + 1 in
  let lastIndex := indexOf output (utf8_of "seconds") firstIndex - 1 in
  text_substring (buffer_toString output) firstIndex lastIndex.

(** The extraction as the specification words it, on a 7-bit output:
    the text right after the last occurrence of the marker, up to the
    next [seconds], less one trailing space. *)
Definition measurement_as_specified (output identifier : string) : string :=
  let start := lastIndexOf output identifier + len identifier in
  let stop := indexOf output "seconds" start in
  let text := substring output start stop in
  let n := String.length text in
  if String.eqb (drop (n - 1) text) " " then take (n - 1) text else text.

Definition mean_marker : string := "[MEAN] Largest Contentful Paint (LCP):".
Definition stdev_marker : string := "[STDEV] Largest Contentful Paint (LCP):".

(** The name and the version [calculateExtension] reads in a
    qualifier. *)
Definition parse_qualifier (extensionQualifier : string) : string * string :=
  let qualifier := strip_quotes extensionQualifier in
  let name := substring qualifier 0 (lastIndexOf qualifier ":") in
  let version := substring_from qualifier (lastIndexOf qualifier ":" + 1) in
  (name, version).

Definition copyBasePackage : M unit := copyFile base_path live_path.

(** [mkdirp(path, callback)]: the [mkdir] goes to the thread pool and
    the call returns. *)
Definition mkdirp (path : string) : M unit :=
  modify (fun w =>
    log_event (EvMkdirIssued path)
      (set_pool
         (w.(pool) ++ [MkdirRequest (mkdirp_delay E) path (mkdirp_error E)])
         w)).

Definition prepareWorkspace : M unit :=
  copyFileSync live_path backup_path ;;
  copyBasePackage ;;
  mkdirp no_plugins_path.

Definition cleanWorkspace : M unit :=
  copyFileSync backup_path live_path ;;
  unlinkSync backup_path.

(** The qualifier [getPackagesExtensions] builds from the [name]
    and the [version] of a package. *)
Definition qualifier_text (n v : string) : string :=
  let name := q ++ n ++ q in
  let version := q ++ v ++ q in
  name ++ ": " ++ version.

(** The loop body of [getPackagesExtensions]. *)
Fixpoint push_qualifiers (directories : list dirent) (qualifiers : list string)
  : M (list string) :=
  match directories with
  | [] => ret qualifiers
  | d :: ds =>
      match d.(dir_manifest) with
      | None => throw ("Cannot find module ../../packages/" ++ d.(dir_name))
      | Some (n, v) => push_qualifiers ds (qualifiers ++ [qualifier_text n v])
      end
  end.

Definition getPackagesExtensions : M (list string) :=
  modify tick ;;
  match packages E with
  | None => throw "ENOENT: ../../packages"
  | Some entries =>
      let directories :=
        filter (fun d => negb (String.eqb d.(dir_name) "core"))
          (filter (fun d => d.(isDirectory)) entries) in
      push_qualifiers directories []
  end.

Definition measure_command (r : option Z) (u : option string) : string :=
  "concurrently --success first -k -r " ++ q
  ++ "cd scripts/performance && node measure-performance.js --name Startup --folder script --runs "
  ++ runs_text r
  ++ match u with
     | Some s => if String.eqb s "" then "" else " --url " ++ s
     | None => ""
     end
  ++ q ++ " " ++ q ++ "yarn --cwd examples/browser start | grep -v '.*'" ++ q.

(** The operand [baseTime] of [mean - baseTime]. *)
Definition to_number (b : base_time) : number F :=
  match b with
  | BUndefined => None
  | BString s => of_string s
  | BNumber x => x
  end.

(** [package.dependencies[name] = version] *)
Definition set_dependency (name version : string) (p : package)
  : option package :=
  match p.(dependencies) with
  | Some deps => Some (Package (Some (assign name version deps)) p.(members))
  | None => None
  end.

(** The two lines [calculateExtension] can print. *)
Definition error_row (label : string) : string :=
  label ++ ", Error while measuring with this extension, -, -, -".

Definition measured_row (label : string) (mean stdev : number F)
    (diff : string) : string :=
  let cv := toFixed (mul (div stdev mean) (Some hundred)) in
  label ++ ", " ++ toFixed mean ++ ", " ++ toFixed stdev
  ++ ", " ++ cv ++ ", " ++ diff.

(** The second half of [calculateExtension]: from the captured
    output to the printed line. *)
Definition report (label output : string) : M unit :=
  let mean := parseFloatText (getMeasurement output mean_marker) in
  let stdev := parseFloatText (getMeasurement output stdev_marker) in
  if isNaN mean || isNaN stdev then
    console_log (error_row label)
  else
    b <- gets baseTime ;;
    diff <-
      match b with
      | BUndefined => modify (set_baseTime (BNumber mean)) ;; ret "-"
      | _ => ret (toFixed (sub mean (to_number b)))
      end ;;
    console_log (measured_row label mean stdev diff).

(** The first half of [calculateExtension]: the manifest mutation
    and the build, for a qualifier; the label of the line. *)
Definition mutate (extensionQualifier : option string) : M string :=
  match extensionQualifier with
  | Some eq =>
      let '(name, version) := parse_qualifier eq in
      package <- require_live ;;
      match set_dependency name version package with
      | None => throw "TypeError: Cannot set properties of undefined"
      | Some package' =>
          modify (set_cache (Some package')) ;;
          writeFileSync live_path (JSON_stringify package') ;;
          execSync "yarn browser build" ;;
          ret eq
      end
  | None => ret "Base Theia"
  end.

Definition calculateExtension (extensionQualifier : option string) : M unit :=
  label <- mutate extensionQualifier ;;
  r <- gets runs ;;
  u <- gets url ;;
  output <- execSync (measure_command r u) ;;
  report label output.

(** The [for ... of] loop of [extensionImpact]. *)
Fixpoint trial_loop (exts : list string) : M unit :=
  match exts with
  | [] => ret tt
  | e :: rest =>
      calculateExtension (Some e) ;;
      copyBasePackage ;;
      trial_loop rest
  end.

(** A call whose promise is dropped: a rejection is left
    unhandled and the caller goes on. *)
Definition unawaited (m : M unit) : M unit :=
  fun w => match m w with
           | (Ret _, w') => (Ret tt, w')
           | (Throw e, w') =>
               (Ret tt, set_unhandled (w'.(unhandled) ++ [e]) w')
           end.

Definition base_time_text (b : base_time) : string :=
  match b with
  | BUndefined => "undefined"
  | BString s => s
  | BNumber x => num_toString x
  end.

Definition header (r : option Z) : string :=
  "Extension Name, Mean (" ++ runs_text r
  ++ " runs) (in s), Std Dev (in s), CV (%), Delta (in s)".

Definition extensionImpact (exts : list string) : M unit :=
  r <- gets runs ;;
  console_log (header r) ;;
  b <- gets baseTime ;;
  match b with
  | BUndefined => unawaited (calculateExtension None)
  | _ => console_log ("Base Theia (provided), " ++ base_time_text b
                      ++ ", -, -, -")
  end ;;
  exts' <- (if (length exts <? 1)%nat then getPackagesExtensions
            else ret exts) ;;
  trial_loop exts'.


Definition runs_rejected_message : string := "--runs must be at least 2".

(** The body of the start-up function, from the reading of the
    options on.  The result tells whether the sweep was started
    ([false]: the early [return] of the [--runs] check). *)
Definition main (args : argv) : M bool :=
  match args.(arg_baseTime) with
  | Some x =>
      if num_truthy x
      then modify (set_baseTime (BString (toFixed (parseFloat (num_toString x)))))
      else ret tt
  | None => ret tt
  end ;;
  match args.(arg_extensions) with
  | Some l => modify (set_extensions l)
  | None => ret tt
  end ;;
  rejected <-
    match args.(arg_runs) with
    | Some x =>
        if negb (num_truthy x) then ret false
        else
          let r := parseInt (num_toString x) in
          modify (set_runs r) ;;
          match r with
          | Some n =>
              if (n <? 2)%Z
              then console_error runs_rejected_message ;; ret true
              else ret false
          | None => ret false
          end
    | None => ret false
    end ;;
  if (rejected : bool) then ret false
  else
    match args.(arg_yarn) with
    | Some true => modify (set_yarn true)
    | _ => ret tt
    end ;;
    match args.(arg_url) with
    | Some u => if String.eqb u "" then ret tt else modify (set_url (Some u))
    | None => ret tt
    end ;;
    prepareWorkspace ;;
    y <- gets yarn ;;
    execSync (if (y : bool) then "yarn build" else "yarn browser build") ;;
    exts <- gets extensions ;;
    extensionImpact exts ;;
    ret true.

(** *** The process around the script

    The start-up function and everything it awaits run in a single
    turn of the event loop: the signal handler and the callbacks of
    [copyFile] and [mkdirp] can only run once it has ended. *)

(** The event loop runs dry: every request of the thread pool is
    carried out and the callbacks print their errors. *)
Definition drain (w : world) : world :=
  let w1 := fold_left (fun acc r => land r acc) w.(pool) (set_pool [] w) in
  set_callbacks [] (set_stdout (w1.(stdout) ++ w1.(callbacks)) w1).

(** The ['exit'] listener when the event is emitted by
    [process.exit()] or by a runtime that ends the process on a
    rejection: [exitHandler] runs [cleanWorkspace], and the process
    ends when the listener returns, so what follows its [await] is
    never resumed and a rejection is never reported. *)
Definition on_exit (code : Z) (w : world) : world * Z :=
  let '(_, w') := cleanWorkspace w in
  (log_event (EvExit code) w', code).

(** The ['exit'] listener when the event loop has run dry: the jobs
    the listener queues still run before the process ends.  When
    [cleanWorkspace] returns, [exitHandler] goes on to
    [process.exit()], which ends the process with code 0 (the event is
    not emitted a second time).  When it throws, the promise of
    [exitHandler] is rejected and nobody handles it: a runtime that
    ends the process on an unhandled rejection ends it with code 1. *)
Definition on_drained (w : world) : world * Z :=
  match cleanWorkspace w with
  | (Ret _, w') => (log_event (EvExit 0) w', 0)
  | (Throw e, w') =>
      let w'' := set_unhandled (w'.(unhandled) ++ [e]) w' in
      let code := if rejections_fatal E then 1 else 0 in
      (log_event (EvExit code) w'', code)
  end.

(** The [SIGINT] listener: [exitHandler] runs [cleanWorkspace] and
    then [process.exit()], which fires the ['exit'] listener.  When
    [cleanWorkspace] rejects, [exitHandler] rejects before it
    reaches [process.exit()]: the runtime ends the process, or goes
    on until the event loop has run dry. *)
Definition on_sigint (w : world) : world * Z :=
  match cleanWorkspace w with
  | (Ret _, w') => on_exit 0 w'
  | (Throw e, w') =>
      let w'' := set_unhandled (w'.(unhandled) ++ [e]) w' in
      if rejections_fatal E then on_exit 1 w''
      else on_drained (drain w'')
  end.

(** One run of [node extension-impact.js] on the options [args],
    from the file system [fs0]: the world it leaves and the exit
    code. *)
Definition run (args : argv) (fs0 : gmap string string) : world * Z :=
  let '(r, w) := main args (init_world fs0) in
  let w1 := match r with
            | Throw e => set_unhandled (w.(unhandled) ++ [e]) w
            | Ret _ => w
            end in
  match w1.(unhandled) with
  | _ :: _ =>
      if rejections_fatal E then on_exit 1 w1
      else if sigint E then on_sigint w1
      else on_drained (drain w1)
  | [] =>
      if sigint E then on_sigint w1 else on_drained (drain w1)
  end.

(** *** Reading a trace *)

(** The texts written to the live manifest, in order. *)
Fixpoint written (tr : list event) : list string :=
  match tr with
  | [] => []
  | EvWrite path data :: tr' =>
      if String.eqb path live_path then data :: written tr'
      else written tr'
  | _ :: tr' => written tr'
  end.

(** What happened to the live manifest, in order: the mutations
    written by the main thread and the resets requested from and
    carried out by the thread pool. *)
Inductive manifest_event :=
| Mutated
| ResetRequested (id : nat)
| ResetDone (id : nat).

Fixpoint manifest_events (tr : list event) : list manifest_event :=
  match tr with
  | [] => []
  | EvWrite _ _ :: tr' => Mutated :: manifest_events tr'
  | EvCopyIssued id _ _ :: tr' => ResetRequested id :: manifest_events tr'
  | EvCopyLanded id _ :: tr' => ResetDone id :: manifest_events tr'
  | _ :: tr' => manifest_events tr'
  end.

(** Every mutation but the first comes after the reset requested
    before it was carried out: at each [Mutated], no request is
    still open.  [open] counts the requests not yet carried out. *)
Fixpoint resets_done_before_mutations (open : nat)
    (evs : list manifest_event) : bool :=
  match evs with
  | [] => true
  | Mutated :: evs' =>
      (open =? 0)%nat && resets_done_before_mutations open evs'
  | ResetRequested _ :: evs' => resets_done_before_mutations (S open) evs'
  | ResetDone _ :: evs' => resets_done_before_mutations (pred open) evs'
  end.

(** *** The report of a sweep, as the specification words it

    [sweep_rows o rows o'] reads: starting with the baseline [o]
    ([None] while no baseline is established), the lines [rows] are
    a report and leave the baseline [o'].  A failed measurement
    prints the error line and leaves the baseline alone; the first
    measured mean is printed with a dash for its delta and becomes
    the baseline; every later measured mean is printed with its
    difference to the baseline. *)
Inductive sweep_rows
  : option (number F) -> list string -> option (number F) -> Prop :=
| rows_done o : sweep_rows o [] o
| rows_error o label rows o' :
    sweep_rows o rows o' ->
    sweep_rows o (error_row label :: rows) o'
| rows_first label mean stdev rows o' :
    isNaN mean = false -> isNaN stdev = false ->
    sweep_rows (Some mean) rows o' ->
    sweep_rows None (measured_row label mean stdev "-" :: rows) o'
| rows_next first label mean stdev rows o' :
    isNaN mean = false -> isNaN stdev = false ->
    sweep_rows (Some first) rows o' ->
    sweep_rows (Some first)
      (measured_row label mean stdev (toFixed (sub mean first)) :: rows) o'.

Definition of_baseline (o : option (number F)) : base_time :=
  match o with
  | None => BUndefined
  | Some m => BNumber m
  end.

End WithNumbers.
End Script.

(** ** Instances to run the script on

    The theorems below hold for every instance of [Double] and [Json].
    To evaluate the script on concrete inputs this module gives one of
    each: doubles as the text of the expression that computes them, and
    a printer and reader for manifests whose members each take one
    line. *)

Module Reference.
Import JsString JsNumber Script.

(** A double is represented by the expression that yields it. *)
#[export] Instance symbolic : Double string := {
  of_literal s := s;
  of_string s := match float_literal s with Some _ => Some s | None => None end;
  fsub a b := Some ("(" ++ a ++ " - " ++ b ++ ")");
  fdiv a b := Some ("(" ++ a ++ " / " ++ b ++ ")");
  fmul a b := Some ("(" ++ a ++ " * " ++ b ++ ")");
  hundred := "100";
  toFixed3 a := a ++ ".toFixed(3)";
  toString a := a;
  truthy a := negb (String.eqb a "0");
  toString_integer := fun _ _ => eq_refl
}.

(** UTF-8 decoding, with U+FFFD for every maximal ill-formed run of
    bytes.  [cp] is the code point read so far, [need] the number of
    bytes still to come for it and [lo], [hi] the range the next one
    must lie in. *)
Definition replacement : N := 65533.

Definition utf16 (cp : N) : text :=
  if (cp <? 65536)%N then [cp]
  else [(55296 + (cp - 65536) / 1024)%N; (56320 + (cp - 65536) mod 1024)%N].

(** A byte in the initial state: what it yields at once, and the
    state it leaves. *)
Definition lead (b : N) : text * (N * nat * N * N) :=
  if (b <? 128)%N then ([b], (0, 0%nat, 128, 191)%N)
  else if ((194 <=? b) && (b <=? 223))%N
  then ([], (b - 192, 1%nat, 128, 191)%N)
  else if ((224 <=? b) && (b <=? 239))%N
  then ([], (b - 224, 2%nat,
             if (b =? 224)%N then 160 else 128,
             if (b =? 237)%N then 159 else 191)%N)
  else if ((240 <=? b) && (b <=? 244))%N
  then ([], (b - 240, 3%nat,
             if (b =? 240)%N then 144 else 128,
             if (b =? 244)%N then 143 else 191)%N)
  else ([replacement], (0, 0%nat, 128, 191)%N).

Fixpoint decode_from (cp : N) (need : nat) (lo hi : N) (s : string) : text :=
  match s with
  | EmptyString => match need with O => [] | S _ => [replacement] end
  | String c s' =>
      let b := N_of_ascii c in
      match need with
      | S n =>
          if ((lo <=? b) && (b <=? hi))%N then
            let cp' := (cp * 64 + (b - 128))%N in
            match n with
            | O => utf16 cp' ++ decode_from 0 0 128 191 s'
            | S _ => decode_from cp' n 128 191 s'
            end
          else
            let '(out, (cp', need', lo', hi')) := lead b in
            replacement :: out ++ decode_from cp' need' lo' hi' s'
      | O =>
          let '(out, (cp', need', lo', hi')) := lead b in
          out ++ decode_from cp' need' lo' hi' s'
      end
  end%list.

Lemma decode_from_seven_bit (s : string) :
  seven_bit s = true -> decode_from 0 0 128 191 s = units_of s.
Proof.
  induction s as [|c s IH]; cbn [seven_bit decode_from units_of];
    [reflexivity|].
  intros Hs. apply andb_prop in Hs as [Hc Hs].
  unfold lead. rewrite Hc. cbn [app]. now rewrite IH.
Qed.

#[export] Instance utf8 : Utf8 := {
  buffer_toString := decode_from 0 0 128 191;
  buffer_toString_seven_bit := decode_from_seven_bit
}.

Definition nl : string := String (ascii_of_nat 10) EmptyString.

Definition quoted (s : string) : string := q ++ s ++ q.

(** The lines of the members of an object, a comma after each but
    the last. *)
Fixpoint member_lines (indent : string) (render : string -> string)
    (o : list (string * string)) : string :=
  match o with
  | [] => ""
  | [(k, v)] => indent ++ quoted k ++ ": " ++ render v ++ nl
  | (k, v) :: o' =>
      indent ++ quoted k ++ ": " ++ render v ++ "," ++ nl
      ++ member_lines indent render o'
  end.

Definition print_dependencies (deps : list (string * string)) : string :=
  match deps with
  | [] => "{}"
  | _ => "{" ++ nl ++ member_lines "    " quoted deps ++ "  }"
  end.

Definition print_package (p : package) : string :=
  "{" ++ nl
  ++ match p.(dependencies) with
     | Some deps =>
         member_lines "  " (fun v => v)
           (app p.(members) [("dependencies", print_dependencies deps)])
     | None => member_lines "  " (fun v => v) p.(members)
     end
  ++ "}".

Fixpoint lines_from (s cur : string) : list string :=
  match s with
  | EmptyString => [cur]
  | String c s' =>
      if Ascii.eqb c (ascii_of_nat 10) then cur :: lines_from s' ""
      else lines_from s' (cur ++ String c "")
  end.

Definition chop_comma (s : string) : string :=
  let n := String.length s in
  if String.eqb (drop (n - 1) s) "," then take (n - 1) s else s.

(** Reads a line made of a quoted key, a colon, a space and a
    value. *)
Definition read_member (line : string) : option (string * string) :=
  let body := chop_comma line in
  match find_first (q ++ ": ") body with
  | Some i =>
      if String.prefix q body
      then Some (take (i - 1) (drop 1 body), drop (i + 3) body)
      else None
  | None => None
  end.

Definition unquote (s : string) : string := strip_quotes s.

(** The reader's state: the members read so far, the dependencies
    read so far when their object has been met, and whether the
    reader is inside that object. *)
Fixpoint read_lines (ls : list string)
    (ms : list (string * string)) (deps : option (list (string * string)))
    (inside : bool) : option package :=
  match ls with
  | [] => None
  | l :: rest =>
      if String.eqb l "}" then
        match rest with [] => Some (Package deps ms) | _ => None end
      else if inside then
        if String.eqb (chop_comma l) "  }" then read_lines rest ms deps false
        else if String.prefix "    " l then
          match read_member (drop 4 l), deps with
          | Some (k, v), Some d => read_lines rest ms (Some (d ++ [(k, unquote v)])%list) true
          | _, _ => None
          end
        else None
      else if String.prefix "  " l then
        match read_member (drop 2 l) with
        | Some (k, v) =>
            if String.eqb k "dependencies" then
              if String.eqb v "{}" then read_lines rest ms (Some []) false
              else if String.eqb v "{" then read_lines rest ms (Some []) true
              else None
            else read_lines rest (ms ++ [(k, v)])%list deps false
        | None => None
        end
      else None
  end.

Definition read_package (text : string) : option package :=
  match lines_from text "" with
  | l :: rest => if String.eqb l "{" then read_lines rest [] None false else None
  | [] => None
  end.

#[export] Instance line_json : Json := {
  JSON_parse := read_package;
  JSON_stringify := print_package
}.

End Reference.


(** ** Sample inputs *)

Module Samples.
Import JsString JsNumber Script Reference.

(** What the measurement utility prints for one trial. *)
Definition measured (mean stdev : string) : string :=
  mean_marker ++ " " ++ mean ++ " seconds" ++ nl
  ++ stdev_marker ++ " " ++ stdev ++ " seconds" ++ nl.

(** The base manifest and the manifest of the application. *)
Definition base_package : package :=
  Package (Some [("@theia/core", "1.0.0")]) [("private", "true")].

Definition original_text : string :=
  print_package
    (Package (Some [("@theia/core", "1.0.0"); ("@theia/editor", "1.0.0")])
       [("private", "true")]).

Definition clean_disk : gmap string string :=
  <[live_path := original_text]>
    (<[base_path := print_package base_package]> ∅).

(** A disk on which an earlier run left its backup behind. *)
Definition disk_with_leftover : gmap string string :=
  <[backup_path := print_package base_package]> clean_disk.

Definition two_extensions : list string :=
  [qualifier_text "a" "1.0.0"; qualifier_text "b" "2.0.0"].

Definition with_extensions (exts : list string) : argv (F := string) :=
  Argv None None (Some exts) None None.

(** [--runs z] for an integer [z]. *)
Definition with_runs (z : Z) : argv (F := string) :=
  Argv None (Some (Some (of_integer z))) None None None.

(** Commands succeed; the baseline measures 2.500, the trials after
    it 2.700; every copy of the thread pool is carried out before the
    main thread does anything else. *)
Definition calm : env :=
  {| exec_result k :=
       Some (if (k <=? 1)%nat then measured "2.500" "0.100"
             else measured "2.700" "0.100");
     copy_delay _ := 0%nat;
     packages := Some [];
     mkdirp_delay := 0%nat;
     mkdirp_error := None;
     sigint := false;
     rejections_fatal := true |}.

(** As [calm], but the thread pool carries out the second copy (the
    reset after the first trial) only after the main thread has done
    one more file operation. *)
Definition late_reset : env :=
  {| exec_result := exec_result calm;
     copy_delay k := match k with 1%nat => 1%nat | _ => 0%nat end;
     packages := Some [];
     mkdirp_delay := 0%nat;
     mkdirp_error := None;
     sigint := false;
     rejections_fatal := true |}.

(** As [calm], but a SIGINT arrived during the last measurement, and
    the thread pool carries out the last copy (the reset after the
    last trial) only after the main thread has done one more file
    operation. *)
Definition interrupted (last : nat) : env :=
  {| exec_result := exec_result calm;
     copy_delay k := if (k =? last)%nat then 1%nat else 0%nat;
     packages := Some [];
     mkdirp_delay := 0%nat;
     mkdirp_error := None;
     sigint := true;
     rejections_fatal := true |}.

(** The output of a measurement that printed its mean and no
    standard deviation. *)
Definition mean_only_output : string := mean_marker ++ " 2.500 seconds" ++ nl.

End Samples.

(** ** Predicates on strings, worlds and statements *)

Module Logic.
Import JsString JsNumber Script.
Local Open Scope list_scope.

(** [m] occurs in [s] at position [i]. *)
Definition occurs_at (m s : string) (i : nat) : Prop :=
  (i <= String.length s)%nat /\ String.prefix m (drop i s) = true.

(** What [substring] cuts out between the two positions of
    [getMeasurement]: the text between the character after the last
    marker and the first [seconds] from there, less its last
    character; or, when that text is empty, the character after the
    marker. *)
Definition extracted (sep : ascii) (gap : string) : string :=
  match gap with
  | EmptyString => String sep EmptyString
  | _ => take (String.length gap - 1) gap
  end.

Section Predicates.
Context {F : Type} `{Double F} `{Json} {U8 : Utf8} (E : env).

Abbreviation world := (@world F).

(** [keeps R m]: whatever [m] does, and whether it returns or
    throws, the world it leaves is related to the one it found. *)
Definition keeps {A} (R : world -> world -> Prop) (m : M A) : Prop :=
  forall w, R w (snd (m w)).

(** The script's variables and the console are as they were: only
    the disk, the thread pool, the counters, the module cache and
    the trace may differ. *)
Definition disk_only (w w' : world) : Prop :=
  w'.(runs) = w.(runs) /\ w'.(baseTime) = w.(baseTime)
  /\ w'.(extensions) = w.(extensions) /\ w'.(yarn) = w.(yarn)
  /\ w'.(url) = w.(url) /\ w'.(stdout) = w.(stdout)
  /\ w'.(stderr) = w.(stderr) /\ w'.(unhandled) = w.(unhandled).

(** Between two worlds, the console gained rows of a report and
    the baseline moved accordingly (provided [baseTime] was not the
    string made of [--base-time]). *)
Definition reported (w w' : world) : Prop :=
  forall o, w.(baseTime) = of_baseline o ->
    exists o' rows,
      w'.(baseTime) = of_baseline o'
      /\ w'.(stdout) = w.(stdout) ++ rows
      /\ sweep_rows o rows o'.

(** From a world in [P], [m] returns [a] into a world in [Q a], or
    throws into a world in [X]. *)
Definition hoare {A} (P : world -> Prop) (m : M A)
    (Q : A -> world -> Prop) (X : world -> Prop) : Prop :=
  forall w, P w ->
    match m w with
    | (Ret a, w') => Q a w'
    | (Throw _, w') => X w'
    end.

(** Nothing printed yet, no baseline yet. *)
Definition quiet_start (w : world) : Prop :=
  w.(stdout) = [] /\ w.(baseTime) = BUndefined.

(** The console holds the headline and a report that started
    without a baseline. *)
Definition report_of_sweep (w : world) : Prop :=
  exists r rows o',
    w.(stdout) = header r :: rows
    /\ w.(baseTime) = of_baseline o'
    /\ sweep_rows None rows o'.

(** Either nothing was printed, or the headline and a report. *)
Definition console_of_run (w : world) : Prop :=
  quiet_start w \/ report_of_sweep w.

(** The run count and the error stream are as they were, and the
    console kept its lines. *)
Definition grows (w w' : world) : Prop :=
  w'.(runs) = w.(runs) /\ w'.(stderr) = w.(stderr)
  /\ exists rows, w'.(stdout) = w.(stdout) ++ rows.

Definition default_start (w : world) : Prop :=
  w.(stdout) = [] /\ w.(runs) = Some 10%Z /\ w.(stderr) = [].

Definition default_sweep (w : world) : Prop :=
  w.(runs) = Some 10%Z /\ w.(stderr) = []
  /\ (w.(stdout) = []
      \/ exists rows, w.(stdout) = header (Some 10%Z) :: rows).

(** What [extensionImpact] does after the headline when no
    baseline is known. *)
Definition sweep_tail (exts : list string) : M unit :=
  bind (unawaited (calculateExtension E None)) (fun _ =>
  bind (if (length exts <? 1)%nat then getPackagesExtensions E else ret exts)
    (fun exts' => trial_loop E exts')).

(** [extensionImpact] after its headline. *)
Definition sweep_body (exts : list string) : M unit :=
  bind (gets baseTime) (fun b =>
  bind (match b with
        | BUndefined => unawaited (calculateExtension E None)
        | _ => console_log ("Base Theia (provided), " ++ base_time_text b
                            ++ ", -, -, -")
        end) (fun _ =>
  bind (if (length exts <? 1)%nat then getPackagesExtensions E else ret exts)
    (fun exts' => trial_loop E exts'))).

(** [--runs] is absent or falsy (zero or [NaN]). *)
Definition runs_not_given (args : argv (F := F)) : Prop :=
  match args.(arg_runs) with
  | None => True
  | Some x => num_truthy x = false
  end.

(** The backup file holds [c] and every request of the thread pool
    writes to the live manifest. *)
Definition backed_up (c : string) (w : world) : Prop :=
  w.(fs) !! backup_path = Some c
  /\ Forall targets_live w.(pool).

(** [backed_up c] is not lost. *)
Definition keeps_backup (c : string) (w w' : world) : Prop :=
  backed_up c w -> backed_up c w'.

(** No file was touched and nothing was asked of the thread pool. *)
Definition untouched (fs0 : gmap string string) (w : world) : Prop :=
  w.(fs) = fs0 /\ w.(pool) = [].

(** Where the start-up function leaves the workspace: untouched, or
    with the backup made. *)
Definition workspace (fs0 : gmap string string) (c : string) (w : world)
  : Prop :=
  untouched fs0 w \/ backed_up c w.

(** The run is not interrupted and the event loop runs dry before the
    process exits: either the runtime goes on after an unhandled
    rejection, or there is none. *)
Definition completes_normally (args : argv) (fs0 : gmap string string)
  : Prop :=
  sigint E = false
  /\ (rejections_fatal E = false
      \/ exists b w, main E args (init_world fs0) = (Ret b, w)
                     /\ w.(unhandled) = []).


End Predicates.
End Logic.

(** ** Further notions: reading objects, traces and worlds *)

Module Coverage.
Import JsString JsNumber Script Logic Reference Samples.
Local Open Scope list_scope.

(** [obj[key]] on an object with string keys. *)
Fixpoint get (key : string) (o : list (string * string)) : option string :=
  match o with
  | [] => None
  | (k, v) :: o' => if String.eqb k key then Some v else get key o'
  end.

(** [package.dependencies[name]], [None] also when the manifest has
    no [dependencies] member. *)
Definition entry (p : package) (name : string) : option string :=
  match p.(dependencies) with
  | Some deps => get name deps
  | None => None
  end.

(** The qualifier a directory entry with a manifest stands for. *)
Definition qualifier_of (d : dirent) : string :=
  match d.(dir_manifest) with
  | Some (n, v) => qualifier_text n v
  | None => EmptyString
  end.

(** The entries [getPackagesExtensions] keeps: the directories other
    than [core]. *)
Definition package_directories (entries : list dirent) : list dirent :=
  filter (fun d => negb (String.eqb d.(dir_name) "core"))
    (filter (fun d => d.(isDirectory)) entries).


(** *** Traces without the thread pool *)

(** The events of the main thread: all but the completions of the
    thread pool. *)
Definition is_main_event (ev : event) : bool :=
  match ev with
  | EvCopyLanded _ _ => false
  | EvMkdirDone _ _ => false
  | _ => true
  end.

Fixpoint main_events (tr : list event) : list event :=
  match tr with
  | [] => []
  | ev :: tr' =>
      if is_main_event ev then ev :: main_events tr' else main_events tr'
  end.

Section Notions.
Context {F : Type} `{Double F} `{Json} {U8 : Utf8} (E : env).

Abbreviation world := (@world F).

(** As [hoare], with the error in reach of the postcondition of a
    throw. *)
Definition triple {A} (P : world -> Prop) (m : M A)
    (Q : A -> world -> Prop) (X : string -> world -> Prop) : Prop :=
  forall w, P w ->
    match m w with
    | (Ret a, w') => Q a w'
    | (Throw e, w') => X e w'
    end.

(** The main thread did nothing between two worlds: what differs is
    the work of the thread pool (files, its queue, the errors kept for
    callbacks, its completions in the trace). *)
Definition main_thread_idle (w w' : world) : Prop :=
  disk_only w w'
  /\ w'.(cache) = w.(cache) /\ w'.(execs) = w.(execs)
  /\ w'.(copies) = w.(copies)
  /\ main_events w'.(trace) = main_events w.(trace).

(** [--runs] passes the check of the run count: it is absent or
    falsy, or [parseInt] reads its text as [NaN] or as an integer that
    is not below 2. *)
Definition runs_accepted (args : argv (F := F)) : Prop :=
  match args.(arg_runs) with
  | None => True
  | Some x =>
      num_truthy x = false
      \/ match parseInt (num_toString x) with
         | Some n => 2 <= n
         | None => True
         end
  end.

(** The run count the sweep works with. *)
Definition run_count (args : argv (F := F)) : option Z :=
  match args.(arg_runs) with
  | None => Some 10
  | Some x => if num_truthy x then parseInt (num_toString x) else Some 10
  end.

(** Nothing printed, the run count [r], no error message. *)
Definition start_with (r : option Z) (w : world) : Prop :=
  w.(stdout) = [] /\ w.(runs) = r /\ w.(stderr) = [].

(** The headline, once printed, announces [r] runs. *)
Definition sweep_with (r : option Z) (w : world) : Prop :=
  w.(runs) = r /\ w.(stderr) = []
  /\ (w.(stdout) = [] \/ exists rows, w.(stdout) = header r :: rows).

(** The line printed for a supplied base time. *)
Definition provided_row (s : string) : string :=
  ("Base Theia (provided), " ++ s ++ ", -, -, -")%string.

(** A base time that is a string stays, and the console keeps its
    lines. *)
Definition keeps_base_time (s : string) (w w' : world) : Prop :=
  w.(baseTime) = BString s ->
  w'.(baseTime) = BString s /\ exists rows, w'.(stdout) = w.(stdout) ++ rows.

(** The start of a run: no file touched, nothing printed, no command
    run, nothing in the trace, and [yarn] as the options make it. *)
Definition pristine (fs0 : gmap string string) (y : bool) (w : world) : Prop :=
  w.(fs) = fs0 /\ w.(pool) = [] /\ w.(trace) = [] /\ w.(stdout) = []
  /\ w.(execs) = 0%nat /\ w.(yarn) = y.

(** [--yarn] as the script reads it. *)
Definition wants_yarn (args : argv (F := F)) : bool :=
  match args.(arg_yarn) with
  | Some true => true
  | _ => false
  end.

(** The first command of a run. *)
Definition first_build (args : argv (F := F)) : string :=
  if wants_yarn args then "yarn build" else "yarn browser build".


(** What the start-up function does once the options are read. *)
Definition sweep_start : M bool :=
  bind (prepareWorkspace E) (fun _ =>
  bind (gets yarn) (fun y =>
  bind (execSync E (if (y : bool) then "yarn build" else "yarn browser build"))
    (fun _ =>
  bind (gets extensions) (fun exts =>
  bind (extensionImpact E exts) (fun _ => ret true))))).

(** The backup is made, no command was run and nothing was printed. *)
Definition prepared (c : string) (y : bool) (w : world) : Prop :=
  backed_up c w /\ w.(execs) = 0%nat /\ w.(stdout) = [] /\ w.(yarn) = y.



(** [extensionImpact] after its first lines: the qualifiers and the
    loop over them. *)
Definition sweep_loop (exts : list string) : M unit :=
  bind (if (length exts <? 1)%nat then getPackagesExtensions E else ret exts)
    (fun exts' => trial_loop E exts').

(** The base time is the string [s], and the console holds the
    headline, the line of the supplied base time and rows. *)
Definition provided_report (s : string) (w : world) : Prop :=
  w.(baseTime) = BString s
  /\ exists r rows, w.(stdout) = header r :: provided_row s :: rows.



(** Nothing printed yet, the base time is the string [s]. *)
Definition base_start (s : string) (w : world) : Prop :=
  w.(stdout) = [] /\ w.(baseTime) = BString s.

(** The base time is still the string [s], and the console holds
    nothing or the report of a sweep with a supplied base time. *)
Definition base_time_kept (s : string) (w : world) : Prop :=
  w.(baseTime) = BString s
  /\ (w.(stdout) = []
      \/ exists r rows, w.(stdout) = header r :: provided_row s :: rows).



(** Every request of the thread pool writes to the live manifest or
    makes the directory of [prepareWorkspace]. *)
Definition pool_to_live (w : world) : Prop :=
  Forall targets_workspace w.(pool).

(** No directory was made but that of [prepareWorkspace]. *)
Definition made_no_other (w w' : world) : Prop :=
  forall d, In d w'.(dirs) -> In d w.(dirs) \/ d = no_plugins_path.

(** The file at [path] is as it was and no directory was made but
    that of [prepareWorkspace] (and the thread pool still only writes
    to the live manifest and makes that directory). *)
Definition keeps_file (path : string) (w w' : world) : Prop :=
  pool_to_live w ->
  pool_to_live w' /\ w'.(fs) !! path = w.(fs) !! path
  /\ made_no_other w w'.



(** *** A sweep whose commands succeed *)

(** [require] will answer [p] for the live manifest: from its cache,
    or from the file, which no pending copy can change before it is
    read. *)
Definition manifest_ready (p : package) (w : world) : Prop :=
  w.(cache) = Some p
  \/ (w.(cache) = None /\ w.(pool) = []
      /\ exists text, w.(fs) !! live_path = Some text
                      /\ JSON_parse text = Some p).

(** The manifest after the mutation for one qualifier. *)
Definition mutated (p : package) (e : string) : package :=
  match set_dependency (fst (parse_qualifier e)) (snd (parse_qualifier e)) p with
  | Some p' => p'
  | None => p
  end.

(** The manifests written in a sweep that starts from [p]: each holds
    the entries of all the qualifiers so far. *)
Fixpoint accumulated (p : package) (exts : list string) : list package :=
  match exts with
  | [] => []
  | e :: rest => mutated p e :: accumulated (mutated p e) rest
  end.

(** What the main thread does in the loop over the qualifiers, with
    run count [r], URL [u], [id] the number of copies requested before,
    and [p] the manifest [require] answers. *)
Fixpoint trial_events (r : option Z) (u : option string) (id : nat)
    (p : package) (exts : list string) : list event :=
  match exts with
  | [] => []
  | e :: rest =>
      [ EvWrite live_path (JSON_stringify (mutated p e));
        EvExec "yarn browser build";
        EvExec (measure_command r u);
        EvCopyIssued id base_path live_path ]
      ++ trial_events r u (S id) (mutated p e) rest
  end.

(** Every command from the [from]-th on succeeds. *)
Definition commands_succeed (from : nat) : Prop :=
  forall k, (from <= k)%nat -> exec_result E k <> None.

(** What the main thread did between two worlds: [de] commands, [dc]
    copy requests, [rows] lines on the console and the events [evs];
    the options and the error stream are as they were and no rejection
    was left unhandled. *)
Definition progress (de dc rows : nat) (evs : list event) (w w' : world)
  : Prop :=
  w'.(runs) = w.(runs) /\ w'.(url) = w.(url)
  /\ w'.(stderr) = w.(stderr) /\ w'.(unhandled) = w.(unhandled)
  /\ w'.(execs) = (w.(execs) + de)%nat
  /\ w'.(copies) = (w.(copies) + dc)%nat
  /\ length w'.(stdout) = (length w.(stdout) + rows)%nat
  /\ main_events w'.(trace) = main_events w.(trace) ++ evs.

(** *** The report of a sweep, row by row *)

(** The mean and the deviation read from the output of one
    measurement, when both are numbers. *)
Definition sample_of (output : string) : option (number F * number F) :=
  let mean := parseFloatText (getMeasurement output mean_marker) in
  let stdev := parseFloatText (getMeasurement output stdev_marker) in
  if isNaN mean || isNaN stdev then None else Some (mean, stdev).

(** The rows of a report as the specification words them, for trials
    given by their label and the output measured for them, starting
    from the base time [b].  A trial without a sample prints the error
    row and leaves the base time alone; while there is no base time,
    the first sample prints a dash for its delta and its mean becomes
    the base time; every other sample prints its mean minus the base
    time, to three decimals. *)
Fixpoint rows_as_specified (b : base_time) (trials : list (string * string))
  : list string :=
  match trials with
  | [] => []
  | (label, output) :: rest =>
      match sample_of output with
      | None => error_row label :: rows_as_specified b rest
      | Some (mean, stdev) =>
          match b with
          | BUndefined =>
              measured_row label mean stdev "-"
              :: rows_as_specified (BNumber mean) rest
          | _ =>
              measured_row label mean stdev (toFixed (sub mean (to_number b)))
              :: rows_as_specified b rest
          end
      end
  end.

(** The base time after those trials. *)
Fixpoint baseline_as_specified (b : base_time)
    (trials : list (string * string)) : base_time :=
  match trials with
  | [] => b
  | (_, output) :: rest =>
      match sample_of output, b with
      | Some (mean, _), BUndefined => baseline_as_specified (BNumber mean) rest
      | _, _ => baseline_as_specified b rest
      end
  end.

(** What the [k]-th command printed. *)
Definition output_of (k : nat) : string :=
  match exec_result E k with
  | Some output => output
  | None => ""
  end.

(** The trials of the loop over the qualifiers when [k] commands were
    run before: each qualifier takes two commands, the build and then
    the measurement. *)
Fixpoint loop_trials (k : nat) (exts : list string)
  : list (string * string) :=
  match exts with
  | [] => []
  | e :: rest => (e, output_of (S k)) :: loop_trials (S (S k)) rest
  end.


(** *** The commands of a sweep *)

(** An event that is no command, or a command of a sweep with run
    count [r] and URL [u]: the build, or the measurement with that
    count and URL. *)
Definition command_with (r : option Z) (u : option string) (ev : event)
  : Prop :=
  match ev with
  | EvExec cmd => cmd = "yarn browser build" \/ cmd = measure_command r u
  | _ => True
  end.

(** Between two worlds with run count [r] and URL [u], these stayed
    and the main thread ran no command but those of a sweep with
    them. *)
Definition sweeps_with (r : option Z) (u : option string) (w w' : world)
  : Prop :=
  w.(runs) = r -> w.(url) = u ->
  w'.(runs) = r /\ w'.(url) = u
  /\ exists evs, main_events w'.(trace) = main_events w.(trace) ++ evs
                 /\ Forall (command_with r u) evs.


(** *** A whole run whose commands succeed *)

(** [--base-time] is absent or falsy (zero or [NaN]). *)
Definition base_time_not_given (args : argv (F := F)) : Prop :=
  match args.(arg_baseTime) with
  | None => True
  | Some x => num_truthy x = false
  end.

(** The variables of the script once the options are read, for
    options that pass the check of the run count. *)
Definition configured (args : argv (F := F)) (w : world) : world :=
  let w1 :=
    match args.(arg_baseTime) with
    | Some x =>
        if num_truthy x
        then set_baseTime (BString (toFixed (parseFloat (num_toString x)))) w
        else w
    | None => w
    end in
  let w2 :=
    match args.(arg_extensions) with
    | Some l => set_extensions l w1
    | None => w1
    end in
  let w3 :=
    match args.(arg_runs) with
    | Some x =>
        if num_truthy x then set_runs (parseInt (num_toString x)) w2 else w2
    | None => w2
    end in
  let w4 :=
    match args.(arg_yarn) with
    | Some true => set_yarn true w3
    | _ => w3
    end in
  match args.(arg_url) with
  | Some u => if String.eqb u "" then w4 else set_url (Some u) w4
  | None => w4
  end.

(** The qualifiers given on the command line. *)
Definition given_extensions (args : argv (F := F)) : list string :=
  match args.(arg_extensions) with
  | Some l => l
  | None => []
  end.

(** The qualifiers a sweep works through: those given or, when none
    is given, one for each package directory other than [core],
    provided each has a manifest. *)
Definition sweep_qualifiers (exts : list string) : option (list string) :=
  if (length exts <? 1)%nat then
    match packages E with
    | Some entries =>
        if forallb (fun d => match d.(dir_manifest) with
                             | Some _ => true
                             | None => false
                             end) (package_directories entries)
        then Some (map qualifier_of (package_directories entries))
        else None
    | None => None
    end
  else Some exts.

(** A manifest [calculateExtension] can work with: its text parses
    and it has [dependencies]. *)
Definition readable (text : string) : Prop :=
  exists p, JSON_parse text = Some p /\ p.(dependencies) <> None.

(** The live manifest and the base manifest are there and
    readable. *)
Definition disk_readable (files : gmap string string) : Prop :=
  (exists text, files !! live_path = Some text /\ readable text)
  /\ (exists text, files !! base_path = Some text /\ readable text).

(** A request of [copyBasePackage], or one that writes no file. *)
Definition resets_live (r : request) : Prop :=
  match r with
  | CopyRequest _ _ src dst => src = base_path /\ dst = live_path
  | MkdirRequest _ _ _ => True
  end.

(** Whenever [require] is asked for the live manifest it will answer
    one with [dependencies]: it has one in its cache, or the live
    manifest and the base manifest are both readable and all that the
    thread pool may still do to the live manifest is to replace it by
    the base manifest. *)
Definition manifest_readable (w : world) : Prop :=
  (exists p, w.(cache) = Some p /\ p.(dependencies) <> None)
  \/ (w.(cache) = None /\ disk_readable w.(fs)
      /\ Forall resets_live w.(pool)).

End Notions.

(** The label of the line [calculateExtension] prints. *)
Definition row_label (extensionQualifier : option string) : string :=
  match extensionQualifier with
  | Some e => e
  | None => "Base Theia"
  end.

(** *** More sample inputs *)

(** As [calm], but the first command fails. *)
Definition failing_build : env :=
  {| exec_result k := match k with O => None | _ => exec_result calm k end;
     copy_delay _ := 0%nat;
     packages := Some [];
     mkdirp_delay := 0%nat;
     mkdirp_error := None;
     sigint := false;
     rejections_fatal := true |}.

(** A disk with the base manifest and no live manifest. *)
Definition disk_without_live : gmap string string :=
  <[base_path := print_package base_package]> ∅.

Definition with_base_time (x : string) (exts : list string)
  : argv (F := string) :=
  Argv (Some (Some x)) None (Some exts) None None.


(** A listing with a file, the [core] package and two others. *)
Definition sample_listing : list dirent :=
  [ Dirent "README.md" false None;
    Dirent "core" true (Some ("@theia/core", "1.0.0"));
    Dirent "editor" true (Some ("@theia/editor", "1.0.0"));
    Dirent "git" true (Some ("@theia/git", "1.2.0")) ].

Definition listing_env (entries : list dirent) : env :=
  {| exec_result := exec_result calm; copy_delay := copy_delay calm;
     packages := Some entries; mkdirp_delay := 0%nat;
     mkdirp_error := None;
     sigint := false; rejections_fatal := true |}.

(** As [calm], but the second command fails. *)
Definition failing_measurement : env :=
  {| exec_result k := match k with 1%nat => None | _ => exec_result calm k end;
     copy_delay _ := 0%nat;
     packages := Some [];
     mkdirp_delay := 0%nat;
     mkdirp_error := None;
     sigint := false;
     rejections_fatal := true |}.

(** The manifest of the application on [clean_disk]. *)
Definition original_package : package :=
  Package (Some [("@theia/core", "1.0.0"); ("@theia/editor", "1.0.0")])
    [("private", "true")].

End Coverage.


(** * Properties *)

(** ** Facts about the string built-ins *)

Module StringFacts.
Import JsString Logic.

Lemma length_app (a b : string) :
  String.length (a ++ b) = (String.length a + String.length b)%nat.
Proof. induction a as [|c a IH]; simpl; [reflexivity | now rewrite IH]. Qed.

Lemma app_assoc (a b c : string) : (a ++ b) ++ c = a ++ (b ++ c).
Proof. induction a as [|x a IH]; simpl; [reflexivity | now rewrite IH]. Qed.

Lemma app_empty_r (a : string) : a ++ "" = a.
Proof. induction a as [|x a IH]; simpl; [reflexivity | now rewrite IH]. Qed.

Lemma drop_app (a b : string) : drop (String.length a) (a ++ b) = b.
Proof. induction a as [|c a IH]; simpl; [now destruct b | exact IH]. Qed.

Lemma take_app (a b : string) : take (String.length a) (a ++ b) = a.
Proof. induction a as [|c a IH]; simpl; [now destruct b | now rewrite IH]. Qed.

Lemma drop_0 (s : string) : drop 0 s = s.
Proof. now destruct s. Qed.

Lemma drop_add (n m : nat) (s : string) : drop (n + m) s = drop m (drop n s).
Proof.
  revert s; induction n as [|n IH]; intros s; simpl.
  - reflexivity.
  - destruct s as [|c s]; [now destruct m | apply IH].
Qed.

Lemma prefix_app (m r : string) : String.prefix m (m ++ r) = true.
Proof.
  induction m as [|c m IH]; simpl; [now destruct r|].
  destruct (ascii_dec c c) as [_|Hn]; [exact IH | now destruct Hn].
Qed.

Lemma prefix_inv (m s : string) :
  String.prefix m s = true -> exists r, s = m ++ r.
Proof.
  revert s; induction m as [|c m IH]; intros s Hp.
  - now exists s.
  - destruct s as [|d s]; simpl in Hp; [discriminate|].
    destruct (ascii_dec c d) as [->|]; [|discriminate].
    destruct (IH s Hp) as [r ->]. now exists r.
Qed.

(** *** Occurrences *)

Lemma occurs_at_S (m : string) (c : ascii) (s : string) (i : nat) :
  occurs_at m (String c s) (S i) <-> occurs_at m s i.
Proof. unfold occurs_at; simpl; split; intros [Hl Hp]; split; auto; lia. Qed.

(** [find_last] only answers [None] when there is no occurrence. *)
Lemma find_last_None (m s : string) :
  find_last m s = None -> forall j, ~ occurs_at m s j.
Proof.
  induction s as [|c s IH]; cbn [find_last].
  - destruct (String.prefix m "") eqn:Hp; [discriminate|].
    intros _ j [Hl Hq]. simpl in Hl. assert (j = 0)%nat as -> by lia.
    cbn [drop] in Hq. congruence.
  - destruct (find_last m s); [discriminate|].
    destruct (String.prefix m (String c s)) eqn:Hp; [discriminate|].
    intros _ [|j] Hoc.
    + destruct Hoc as [_ Hq]. cbn [drop] in Hq. congruence.
    + apply occurs_at_S in Hoc. now apply (IH eq_refl j).
Qed.

(** [find_last] answers the greatest position of an occurrence. *)
Lemma find_last_Some (m s : string) (i : nat) :
  find_last m s = Some i ->
  occurs_at m s i /\ forall j, (i < j)%nat -> ~ occurs_at m s j.
Proof.
  revert i; induction s as [|c s IH]; intros i; cbn [find_last].
  - destruct (String.prefix m "") eqn:Hp; [|discriminate].
    intros [= <-]. split.
    + split; [simpl; lia | exact Hp].
    + intros j Hj [Hl _]. simpl in Hl. lia.
  - destruct (find_last m s) as [k|] eqn:Hk.
    + intros [= <-]. destruct (IH k eq_refl) as [Ho Hmax]. split.
      * now apply occurs_at_S.
      * intros [|j] Hj Hoc; [lia|].
        apply occurs_at_S in Hoc. apply (Hmax j); [lia | exact Hoc].
    + destruct (String.prefix m (String c s)) eqn:Hp; [|discriminate].
      intros [= <-]. split.
      * split; [lia | exact Hp].
      * intros [|j] Hj Hoc; [lia|]. apply occurs_at_S in Hoc.
        now apply (find_last_None m s Hk j).
Qed.

(** [find_first] answers the least position of an occurrence. *)
Lemma find_first_Some (m s : string) (i : nat) :
  find_first m s = Some i ->
  occurs_at m s i /\ forall j, (j < i)%nat -> ~ occurs_at m s j.
Proof.
  revert i; induction s as [|c s IH]; intros i; cbn [find_first].
  - destruct (String.prefix m "") eqn:Hp; [|discriminate].
    intros [= <-]. split; [split; [simpl; lia | exact Hp] | intros j Hj; lia].
  - destruct (String.prefix m (String c s)) eqn:Hp.
    + intros [= <-]. split; [split; [lia | exact Hp] | intros j Hj; lia].
    + destruct (find_first m s) as [k|]; [|discriminate].
      intros [= <-]. destruct (IH k eq_refl) as [Ho Hmin]. split.
      * now apply occurs_at_S.
      * intros [|j] Hj Hoc.
        -- destruct Hoc as [_ Hq]. cbn [drop] in Hq. congruence.
        -- apply occurs_at_S in Hoc. apply (Hmin j); [lia | exact Hoc].
Qed.

Lemma find_last_app (m a b : string) (i : nat) :
  find_last m b = Some i ->
  find_last m (a ++ b) = Some (String.length a + i)%nat.
Proof.
  intros Hb. induction a as [|c a IH]; [exact Hb|].
  cbn [String.append find_last]. now rewrite IH.
Qed.

Lemma find_last_here (m : string) (c : ascii) (rest : string) :
  find_last m rest = None ->
  String.prefix m (String c rest) = true ->
  find_last m (String c rest) = Some 0%nat.
Proof. intros Hr Hp. cbn [find_last]. now rewrite Hr, Hp. Qed.

Lemma take_all (s : string) : take (String.length s) s = s.
Proof. induction s as [|c s IH]; simpl; [reflexivity | now rewrite IH]. Qed.

Lemma length_drop (n : nat) (s : string) :
  String.length (drop n s) = (String.length s - n)%nat.
Proof.
  revert s; induction n as [|n IH]; intros s; simpl; [lia|].
  destruct s as [|c s]; simpl; [reflexivity | apply IH].
Qed.

Lemma clamp_nat (s : string) (k : nat) :
  (k <= String.length s)%nat -> clamp s (Z.of_nat k) = k.
Proof. intros Hk. unfold clamp, len. lia. Qed.

(** [substring] between two positions in range and in order. *)
Lemma substring_nat (s : string) (a b : nat) :
  (a <= b)%nat -> (b <= String.length s)%nat ->
  substring s (Z.of_nat a) (Z.of_nat b) = take (b - a) (drop a s).
Proof.
  intros Hab Hb. unfold substring.
  rewrite !clamp_nat by lia.
  now rewrite Nat.min_l, Nat.max_r by lia.
Qed.

Lemma substring_from_nat (s : string) (a : nat) :
  (a <= String.length s)%nat ->
  substring_from s (Z.of_nat a) = drop a s.
Proof.
  intros Ha. unfold substring_from, len.
  rewrite substring_nat by lia.
  rewrite <- length_drop. apply take_all.
Qed.

Lemma strip_quotes_app (a b : string) :
  strip_quotes (a ++ b) = strip_quotes a ++ strip_quotes b.
Proof.
  induction a as [|c a IH]; [reflexivity|].
  cbn [String.append strip_quotes].
  destruct (is_quote c); [exact IH | now rewrite IH].
Qed.

(** [indexOf] from a position in range, when the rest holds the
    text. *)
Lemma indexOf_nat (s m : string) (k i : nat) :
  (k <= String.length s)%nat ->
  find_first m (drop k s) = Some i ->
  indexOf s m (Z.of_nat k) = Z.of_nat (k + i).
Proof.
  intros Hk Hf. unfold indexOf. now rewrite clamp_nat, Hf by lia.
Qed.

(** *** Seven-bit buffers *)

Lemma seven_bit_app (a b : string) :
  seven_bit (a ++ b) = seven_bit a && seven_bit b.
Proof.
  induction a as [|c a IH]; cbn [String.append seven_bit]; [reflexivity|].
  now rewrite IH, andb_assoc.
Qed.

Lemma nat_of_ascii_N (c : ascii) : nat_of_ascii c = N.to_nat (N_of_ascii c).
Proof. reflexivity. Qed.

(** A string of code units below 128 is its own UTF-8 encoding. *)
Lemma utf8_of_seven_bit (s : string) : seven_bit s = true -> utf8_of s = s.
Proof.
  induction s as [|c s IH]; cbn [seven_bit utf8_of]; [reflexivity|].
  intros Hs. apply andb_prop in Hs as [Hc Hs].
  apply N.ltb_lt in Hc.
  replace (nat_of_ascii c <? 128)%nat with true.
  - now rewrite IH.
  - symmetry. apply Nat.ltb_lt. rewrite nat_of_ascii_N. lia.
Qed.

Lemma length_units_of (s : string) :
  List.length (units_of s) = String.length s.
Proof. induction s as [|c s IH]; cbn; [reflexivity | now rewrite IH]. Qed.

Lemma units_of_take (n : nat) (s : string) :
  units_of (take n s) = firstn n (units_of s).
Proof.
  revert s; induction n as [|n IH]; intros [|c s]; cbn; try reflexivity.
  now rewrite IH.
Qed.

Lemma units_of_drop (n : nat) (s : string) :
  units_of (drop n s) = skipn n (units_of s).
Proof.
  revert s; induction n as [|n IH]; intros [|c s]; cbn; try reflexivity.
  apply IH.
Qed.

(** On bytes below 128, [substring] on the decoded string is
    [substring] on the bytes. *)
Lemma text_substring_units (s : string) (a b : Z) :
  text_substring (units_of s) a b = units_of (substring s a b).
Proof.
  unfold text_substring, substring, text_clamp, clamp, len.
  rewrite length_units_of. now rewrite units_of_take, units_of_drop.
Qed.

End StringFacts.

(** ** Facts about the number built-ins *)

Module NumberFacts.
Import JsString JsNumber.

(** Evaluates the code of the digit in the goal and leaves the
    arithmetic to [lia]. *)
Ltac digit_arith :=
  match goal with
  | |- context [nat_of_ascii ?c] =>
      let n := eval vm_compute in (nat_of_ascii c) in
      change (nat_of_ascii c) with n; lia
  end.

Lemma digits_value_acc (d : Decimal.uint) (a : positive) :
  digits_value (NilEmpty.string_of_uint d) (Z.pos a)
  = Z.pos (Pos.of_uint_acc d a).
Proof.
  revert a; induction d; intros a;
    cbn [NilEmpty.string_of_uint digits_value Pos.of_uint_acc];
    [reflexivity | ..];
    match goal with
    | |- digits_value _ ?v = Z.pos (Pos.of_uint_acc _ ?p) =>
        replace v with (Z.pos p) by digit_arith
    end; apply IHd.
Qed.

Lemma digits_value_uint (d : Decimal.uint) :
  digits_value (NilEmpty.string_of_uint d) 0 = Z.of_N (Pos.of_uint d).
Proof.
  induction d; cbn [NilEmpty.string_of_uint digits_value Pos.of_uint];
    [reflexivity | exact IHd | ..];
    match goal with
    | |- digits_value _ ?v = Z.of_N (N.pos (Pos.of_uint_acc _ ?p)) =>
        replace v with (Z.pos p) by digit_arith
    end; apply digits_value_acc.
Qed.

Lemma span_digits_uint (d : Decimal.uint) :
  span_digits (NilEmpty.string_of_uint d)
  = (NilEmpty.string_of_uint d, EmptyString).
Proof.
  induction d; cbn [NilEmpty.string_of_uint span_digits]; [reflexivity | ..];
    match goal with
    | |- context [is_digit ?c] =>
        replace (is_digit c) with true by reflexivity
    end; now rewrite IHd.
Qed.

Lemma skip_spaces_uint (d : Decimal.uint) :
  skip_spaces (NilEmpty.string_of_uint d) = NilEmpty.string_of_uint d.
Proof. destruct d; reflexivity. Qed.

Lemma take_sign_uint (d : Decimal.uint) :
  take_sign (NilEmpty.string_of_uint d)
  = (EmptyString, NilEmpty.string_of_uint d).
Proof. destruct d; reflexivity. Qed.

Lemma string_of_uint_nonempty (p : positive) :
  NilEmpty.string_of_uint (Pos.to_uint p) <> EmptyString.
Proof.
  pose proof (DecimalPos.Unsigned.to_uint_nonnil p) as Hn.
  destruct (Pos.to_uint p); [congruence | ..]; discriminate.
Qed.

(** An integer is read back from its decimal digits. *)
Lemma parseInt_int_toString (z : Z) : parseInt (int_toString z) = Some z.
Proof.
  unfold int_toString, parseInt. destruct z as [|p|p]; [reflexivity | |].
  - cbn [Z.to_int NilEmpty.string_of_int].
    rewrite skip_spaces_uint, take_sign_uint, span_digits_uint.
    pose proof (string_of_uint_nonempty p) as Hne.
    pose proof (digits_value_uint (Pos.to_uint p)) as Hv.
    rewrite DecimalPos.Unsigned.of_to in Hv.
    destruct (NilEmpty.string_of_uint (Pos.to_uint p)); [congruence|].
    cbn [String.eqb]. now rewrite Hv.
  - cbn [Z.to_int NilEmpty.string_of_int].
    change (skip_spaces (String "-" ?s)) with (String "-" s).
    change (take_sign (String "-" ?s)) with (String "-" EmptyString, s).
    cbv iota beta. rewrite span_digits_uint.
    pose proof (string_of_uint_nonempty p) as Hne.
    pose proof (digits_value_uint (Pos.to_uint p)) as Hv.
    rewrite DecimalPos.Unsigned.of_to in Hv.
    destruct (NilEmpty.string_of_uint (Pos.to_uint p)); [congruence|].
    replace (String.eqb "-" "-") with true by reflexivity.
    now rewrite Hv.
Qed.

(** *** Decoded strings *)

Lemma is_white_ascii (c : ascii) : is_white (N_of_ascii c) = is_space c.
Proof. destruct c as [[] [] [] [] [] [] [] []]; reflexivity. Qed.

Lemma skip_white_units (s : string) :
  skip_white (units_of s) = units_of (skip_spaces s).
Proof.
  induction s as [|c s IH]; cbn [units_of skip_white skip_spaces];
    [reflexivity|].
  rewrite is_white_ascii. now destruct (is_space c).
Qed.

Lemma narrow_units (s : string) : narrow (units_of s) = s.
Proof.
  induction s as [|c s IH]; cbn [units_of narrow]; [reflexivity|].
  replace (N_of_ascii c <? 256)%N with true.
  - now rewrite ascii_N_embedding, IH.
  - symmetry. apply N.ltb_lt. apply N_ascii_bounded.
Qed.

Lemma skip_spaces_idem (s : string) : skip_spaces (skip_spaces s) = skip_spaces s.
Proof.
  induction s as [|c s IH]; cbn [skip_spaces]; [reflexivity|].
  destruct (is_space c) eqn:Hc; [exact IH|].
  cbn [skip_spaces]. now rewrite Hc.
Qed.

(** [parseFloat] reads a decoded string of bytes below 256 as it
    reads the bytes. *)
Lemma text_float_literal_units (s : string) :
  text_float_literal (units_of s) = float_literal s.
Proof.
  unfold text_float_literal, float_literal.
  now rewrite skip_white_units, narrow_units, skip_spaces_idem.
Qed.

Lemma parseFloatText_units {F : Type} `{Double F} (s : string) :
  parseFloatText (units_of s) = parseFloat s.
Proof. unfold parseFloatText, parseFloat. now rewrite text_float_literal_units. Qed.

End NumberFacts.


(** ** Qualifiers *)

Module QualifierProps.
Import JsString JsNumber Script StringFacts.

Lemma strip_quotes_q : strip_quotes q = "".
Proof. reflexivity. Qed.

(** What is left of a qualifier once its quotes are gone. *)
Lemma strip_qualifier (name version : string) :
  strip_quotes name = name -> strip_quotes version = version ->
  strip_quotes (qualifier_text name version) = name ++ ": " ++ version.
Proof.
  intros Hn Hv. unfold qualifier_text.
  rewrite !strip_quotes_app, Hn, Hv, strip_quotes_q.
  cbn [String.append strip_quotes is_quote].
  now rewrite !app_empty_r.
Qed.

Lemma no_colon_after_space (version : string) :
  find_last ":" version = None -> find_last ":" (" " ++ version) = None.
Proof. intros Hv. cbn [String.append find_last]. now rewrite Hv. Qed.

(** C2 (as the code has it).  For every name and version free of
    double quotes, the version free of colons, the qualifier the
    package enumerator builds from them is read back by
    [calculateExtension] as the exact name, also when the name holds
    colons, but as the version with the space that follows the colon
    in front of it: the split takes everything after the last colon. *)
Theorem parse_qualifier_keeps_space (name version : string) :
  strip_quotes name = name ->
  strip_quotes version = version ->
  find_last ":" version = None ->
  parse_qualifier (qualifier_text name version) = (name, " " ++ version).
Proof.
  intros Hn Hv Hc. unfold parse_qualifier.
  rewrite (strip_qualifier _ _ Hn Hv).
  assert (Hlast : lastIndexOf (name ++ ": " ++ version) ":"
                  = Z.of_nat (String.length name)).
  { unfold lastIndexOf.
    rewrite (find_last_app ":" name (": " ++ version) 0).
    - now rewrite Nat.add_0_r.
    - apply find_last_here; [now apply no_colon_after_space | reflexivity]. }
  rewrite Hlast.
  assert (Hlen : (String.length name + 1
                  <= String.length (name ++ ": " ++ version))%nat).
  { rewrite length_app. cbn [String.append String.length]. lia. }
  f_equal.
  - change 0 with (Z.of_nat 0). rewrite substring_nat by lia.
    rewrite Nat.sub_0_r. cbn [drop]. apply take_app.
  - replace (Z.of_nat (String.length name) + 1)
      with (Z.of_nat (String.length name + 1)) by lia.
    rewrite substring_from_nat by exact Hlen.
    rewrite drop_add, drop_app. reflexivity.
Qed.

Lemma parse_qualifier_keeps_space_witness :
  parse_qualifier (qualifier_text "@theia/a:b" "1.0.0")
  = ("@theia/a:b", " 1.0.0").
Proof.
  apply (parse_qualifier_keeps_space "@theia/a:b" "1.0.0"); reflexivity.
Defined.

End QualifierProps.

(** ** The result parser *)

Module MeasurementProps.
Import JsString JsNumber Script Logic StringFacts NumberFacts Reference Samples.

(** On a Buffer and a marker of bytes below 128, positions in bytes
    are positions in code units: [getMeasurement] is [substring] on
    the bytes. *)
Lemma getMeasurement_seven_bit `{Utf8} (output identifier : string) :
  seven_bit output = true -> seven_bit identifier = true ->
  let firstIndex := lastIndexOf output identifier + len identifier + 1 in
  getMeasurement output identifier
  = units_of (substring output firstIndex
                (indexOf output "seconds" firstIndex - 1)).
Proof.
  intros Ho Hi firstIndex. unfold getMeasurement.
  rewrite (utf8_of_seven_bit identifier Hi).
  rewrite (buffer_toString_seven_bit output Ho).
  change (utf8_of "seconds") with "seconds".
  apply text_substring_units.
Qed.

Lemma substring_swap (s : string) (a b : Z) : substring s a b = substring s b a.
Proof. unfold substring. now rewrite Nat.min_comm, Nat.max_comm. Qed.

Lemma take_app_le (n : nat) (a b : string) :
  (n <= String.length a)%nat -> take n (a ++ b) = take n a.
Proof.
  revert a; induction n as [|n IH]; intros a Hn; [reflexivity|].
  destruct a as [|c a]; cbn in Hn; [lia|].
  cbn [String.append take]. rewrite IH by lia. reflexivity.
Qed.

Lemma substring_between (pre marker gap post : string) (sep : ascii) :
  let rest := gap ++ "seconds" ++ post in
  let output := pre ++ marker ++ String sep rest in
  find_last marker output = Some (String.length pre) ->
  find_first "seconds" rest = Some (String.length gap) ->
  let firstIndex := lastIndexOf output marker + len marker + 1 in
  substring output firstIndex (indexOf output "seconds" firstIndex - 1)
  = extracted sep gap.
Proof.
  intros rest output Hlast Hfirst firstIndex.
  unfold firstIndex, lastIndexOf, len. rewrite Hlast.
  set (k := (String.length pre + String.length marker + 1)%nat).
  replace (Z.of_nat (String.length pre) + Z.of_nat (String.length marker) + 1)
    with (Z.of_nat k) by lia.
  assert (Hsep : drop (k - 1) output = String sep rest).
  { unfold k, output.
    replace (String.length pre + String.length marker + 1 - 1)%nat
      with (String.length pre + String.length marker)%nat by lia.
    rewrite !drop_add, !drop_app. reflexivity. }
  assert (Hdrop : drop k output = rest).
  { replace k with (k - 1 + 1)%nat by (unfold k; lia).
    rewrite drop_add, Hsep. reflexivity. }
  assert (Hlen : String.length output
                 = (k + String.length gap + 7 + String.length post)%nat).
  { unfold output, rest, k. rewrite !length_app. cbn [String.length].
    rewrite !length_app. cbn [String.length]. lia. }
  rewrite (indexOf_nat output "seconds" k (String.length gap))
    by (try lia; now rewrite Hdrop).
  destruct gap as [|g gap'].
  - cbn [extracted String.length]. rewrite Nat.add_0_r, substring_swap.
    replace (Z.of_nat k - 1) with (Z.of_nat (k - 1)) by (unfold k; lia).
    rewrite substring_nat by (cbn [String.length] in Hlen; lia).
    rewrite Hsep. replace (k - (k - 1))%nat with 1%nat by (unfold k; lia).
    reflexivity.
  - change (extracted sep (String g gap'))
      with (take (String.length (String g gap') - 1) (String g gap')).
    set (gap := String g gap') in *.
    assert (Hpos : (1 <= String.length gap)%nat) by (cbn; lia).
    replace (Z.of_nat (k + String.length gap) - 1)
      with (Z.of_nat (k + String.length gap - 1)) by lia.
    rewrite substring_nat by lia.
    rewrite Hdrop.
    replace (k + String.length gap - 1 - k)%nat
      with (String.length gap - 1)%nat by lia.
    unfold rest. apply take_app_le. lia.
Qed.

(** C3 (as the code has it).  Let the output and the marker hold
    7-bit text, and let the last occurrence of the marker be followed
    by one character, a text and the first [seconds] after that
    character.  Then [getMeasurement] answers that text less its last
    character: it starts one character after the last occurrence of
    the marker, whatever that character is, and stops one character
    before [seconds], whatever that character is; when [seconds]
    follows the skipped character at once, it answers the skipped
    character.  That is the text [parseFloat] is given.  Occurrences
    of the marker before the last one play no part. *)
Theorem getMeasurement_last_run `{Utf8}
    (pre marker gap post : string) (sep : ascii) :
  let rest := gap ++ "seconds" ++ post in
  let output := pre ++ marker ++ String sep rest in
  seven_bit output = true -> seven_bit marker = true ->
  find_last marker output = Some (String.length pre) ->
  find_first "seconds" rest = Some (String.length gap) ->
  getMeasurement output marker = units_of (extracted sep gap)
  /\ forall (F : Type) (D : Double F),
       parseFloatText (getMeasurement output marker)
       = parseFloat (extracted sep gap).
Proof.
  intros rest output Ho Hm Hlast Hfirst.
  enough (Hrun : getMeasurement output marker = units_of (extracted sep gap))
    by (split; [exact Hrun | intros F D; rewrite Hrun;
                             apply parseFloatText_units]).
  rewrite (getMeasurement_seven_bit output marker Ho Hm).
  f_equal. now apply substring_between.
Qed.

(** Two reports in one output: the text after the second marker is
    the answer.  And an output in which [seconds] follows the space
    after the marker at once: the answer is that space. *)
Lemma getMeasurement_last_run_witness :
  getMeasurement
    ((mean_marker ++ " 9.000 seconds" ++ nl)
     ++ mean_marker ++ String " " ("2.500 " ++ "seconds" ++ nl))
    mean_marker
  = units_of "2.500"
  /\ getMeasurement
       ("" ++ mean_marker ++ String " " ("" ++ "seconds" ++ nl)) mean_marker
     = units_of " ".
Proof.
  split.
  - apply (getMeasurement_last_run (mean_marker ++ " 9.000 seconds" ++ nl)
             mean_marker "2.500 " nl " "); reflexivity.
  - apply (getMeasurement_last_run "" mean_marker "" nl " "); reflexivity.
Defined.

(** C3, where the statement fails.  When the number follows the
    marker at once, the text right after the marker reads 2.5 and
    the text [getMeasurement] answers reads .5: the first digit is
    taken for the separator. *)
Lemma getMeasurement_skips_one_character :
  let output := mean_marker ++ "2.5 seconds" in
  float_literal (measurement_as_specified output mean_marker) = Some "2.5"
  /\ text_float_literal (getMeasurement output mean_marker) = Some ".5"
  /\ text_float_literal (getMeasurement output mean_marker)
     <> float_literal (measurement_as_specified output mean_marker).
Proof. vm_compute. repeat split; congruence. Qed.

(** C4, where the code departs from it.  The marker of the standard
    deviation is absent from [mean_only_output], yet the value parsed
    for it is not [NaN]: [lastIndexOf] answers -1, the extraction
    starts at the length of the marker and meets the digits of the
    mean.  The trial is reported as a measured row whose standard
    deviation is the mean. *)
Theorem absent_marker_is_measured {F : Type} `{Double F} `{Json} {U8 : Utf8} :
  let E := Env (fun _ => Some mean_only_output) (fun _ => 0%nat)
             None 0%nat None false true in
  let m := toFixed3 (of_literal "2.500") in
  lastIndexOf mean_only_output stdev_marker = -1
  /\ getMeasurement mean_only_output stdev_marker = units_of "2.500"
  /\ isNaN (parseFloatText (getMeasurement mean_only_output stdev_marker))
     = false
  /\ stdout (snd (calculateExtension E None (init_world ∅)))
     = ["Base Theia, " ++ m ++ ", " ++ m ++ ", "
        ++ toFixed (mul (div (Some (of_literal "2.500"))
                             (Some (of_literal "2.500"))) (Some hundred))
        ++ ", -"].
Proof.
  intros E m.
  assert (Hs : getMeasurement mean_only_output stdev_marker = units_of "2.500").
  { rewrite getMeasurement_seven_bit by reflexivity. reflexivity. }
  assert (Hm : getMeasurement mean_only_output mean_marker = units_of "2.500").
  { rewrite getMeasurement_seven_bit by reflexivity. reflexivity. }
  split; [reflexivity|]. split; [exact Hs|].
  split; [rewrite Hs; reflexivity|].
  unfold calculateExtension, mutate, bind, ret, gets, execSync.
  cbn [exec_result E tick pool init_world advance execs set_pool
       set_execs log_event trace set_trace runs url fst snd].
  unfold report. rewrite Hs, Hm. reflexivity.
Qed.

End MeasurementProps.

(** ** Reasoning about the script *)

Module ScriptFacts.
Import JsString JsNumber Script Logic.

Section Facts.
Context {F : Type} `{Double F} `{Json} {U8 : Utf8} (E : env).
Local Open Scope list_scope.

Abbreviation world := (@world F).
Implicit Types (R : world -> world -> Prop) (P X : world -> Prop) (w : world).

(* The predicates of [Logic], at the number type of this section. *)
#[local] Abbreviation disk_only := (Logic.disk_only (F := F)).
#[local] Abbreviation reported := (Logic.reported (F := F)).
#[local] Abbreviation grows := (Logic.grows (F := F)).
#[local] Abbreviation quiet_start := (Logic.quiet_start (F := F)).
#[local] Abbreviation report_of_sweep := (Logic.report_of_sweep (F := F)).
#[local] Abbreviation console_of_run := (Logic.console_of_run (F := F)).
#[local] Abbreviation default_start := (Logic.default_start (F := F)).
#[local] Abbreviation default_sweep := (Logic.default_sweep (F := F)).
#[local] Abbreviation backed_up := (Logic.backed_up (F := F)).
#[local] Abbreviation keeps_backup := (Logic.keeps_backup (F := F)).
#[local] Abbreviation untouched := (Logic.untouched (F := F)).
#[local] Abbreviation workspace := (Logic.workspace (F := F)).
#[local] Abbreviation runs_not_given := (Logic.runs_not_given (F := F)).

Lemma keeps_ret {A} R `{!Reflexive R} (a : A) : keeps R (ret a).
Proof. intros w. apply reflexivity. Qed.

Lemma keeps_throw {A} R `{!Reflexive R} e : keeps R (throw (A:=A) e).
Proof. intros w. apply reflexivity. Qed.

Lemma keeps_gets {A} R `{!Reflexive R} (f : world -> A) : keeps R (gets f).
Proof. intros w. apply reflexivity. Qed.

Lemma keeps_modify R (f : world -> world) :
  (forall w, R w (f w)) -> keeps R (modify f).
Proof. intros Hf w. apply Hf. Qed.

Lemma keeps_bind {A B} R `{!Transitive R} (m : M A) (k : A -> M B) :
  keeps R m -> (forall a, keeps R (k a)) -> keeps R (bind m k).
Proof.
  intros Hm Hk w. unfold bind. specialize (Hm w).
  destruct (m w) as [[a|e] w1]; simpl in *; [|exact Hm].
  etransitivity; [exact Hm | apply Hk].
Qed.

Lemma keeps_weaken {A} (R R' : world -> world -> Prop) (m : M A) :
  (forall w w', R w w' -> R' w w') -> keeps R m -> keeps R' m.
Proof. intros HR Hm w. apply HR, Hm. Qed.

#[local] Instance disk_only_refl : Reflexive disk_only.
Proof. intros w. repeat split. Qed.

#[local] Instance disk_only_trans : Transitive disk_only.
Proof.
  intros a b c (A1&A2&A3&A4&A5&A6&A7&A8) (B1&B2&B3&B4&B5&B6&B7&B8).
  repeat split; congruence.
Qed.

Ltac disk := repeat split; reflexivity.

Lemma disk_only_land r w : disk_only w (land r w).
Proof.
  destruct r as [id n src dst | n path [e|]]; cbn [land];
    [destruct (_ !! _)|..]; disk.
Qed.

Lemma disk_only_advance rs w : disk_only w (snd (advance rs w)).
Proof.
  revert w; induction rs as [|r rs IH]; intros w; [disk|].
  cbn [advance]. destruct (req_wait r).
  - etransitivity; [apply disk_only_land | apply IH].
  - specialize (IH w). destruct (advance rs w) as [keep w']. exact IH.
Qed.

Lemma disk_only_tick w : disk_only w (tick w).
Proof.
  unfold tick.
  pose proof (disk_only_advance (pool w) (set_pool [] w)) as Ha.
  destruct (advance (pool w) (set_pool [] w)) as [keep w'].
  destruct Ha as (A1&A2&A3&A4&A5&A6&A7&A8). repeat split; assumption.
Qed.

Lemma keeps_copyFileSync src dst : keeps disk_only (copyFileSync src dst).
Proof.
  intros w. unfold copyFileSync.
  pose proof (disk_only_tick w) as Ht.
  destruct (fs (tick w) !! src); [|exact Ht].
  etransitivity; [exact Ht | disk].
Qed.

Lemma keeps_unlinkSync path : keeps disk_only (unlinkSync path).
Proof.
  intros w. unfold unlinkSync.
  pose proof (disk_only_tick w) as Ht.
  destruct (fs (tick w) !! path); [|exact Ht].
  etransitivity; [exact Ht | disk].
Qed.

Lemma keeps_writeFileSync path data :
  keeps disk_only (writeFileSync path data).
Proof.
  intros w. unfold writeFileSync.
  etransitivity; [apply disk_only_tick | disk].
Qed.

Lemma keeps_copyFile src dst : keeps disk_only (copyFile E src dst).
Proof. intros w. disk. Qed.

Lemma keeps_execSync cmd : keeps disk_only (execSync E cmd).
Proof.
  intros w. unfold execSync.
  pose proof (disk_only_tick w) as Ht.
  destruct (exec_result E _); (etransitivity; [exact Ht | disk]).
Qed.

Lemma keeps_require_live : keeps disk_only require_live.
Proof.
  intros w. unfold require_live.
  destruct (cache w); [disk|].
  pose proof (disk_only_tick w) as Ht.
  destruct (fs (tick w) !! live_path) as [text|]; [|exact Ht].
  destruct (JSON_parse text); [|exact Ht].
  etransitivity; [exact Ht | disk].
Qed.


Lemma keeps_mkdirp path : keeps disk_only (mkdirp E path).
Proof. intros w. disk. Qed.

Lemma keeps_copyBasePackage : keeps disk_only (copyBasePackage E).
Proof. apply keeps_copyFile. Qed.

Lemma keeps_prepareWorkspace : keeps disk_only (prepareWorkspace E).
Proof.
  unfold prepareWorkspace.
  apply keeps_bind; [exact _ | apply keeps_copyFileSync | intros _].
  apply keeps_bind; [exact _ | apply keeps_copyBasePackage | intros _].
  apply keeps_mkdirp.
Qed.

Lemma keeps_cleanWorkspace : keeps disk_only cleanWorkspace.
Proof.
  unfold cleanWorkspace.
  apply keeps_bind; [exact _ | apply keeps_copyFileSync | intros _].
  apply keeps_unlinkSync.
Qed.

Lemma keeps_push_qualifiers ds qs : keeps disk_only (push_qualifiers ds qs).
Proof.
  revert qs; induction ds as [|d ds IH]; intros qs; cbn [push_qualifiers].
  - apply keeps_ret; exact _.
  - destruct (dir_manifest d) as [[n v]|]; [apply IH|].
    apply keeps_throw; exact _.
Qed.

Lemma keeps_getPackagesExtensions : keeps disk_only (getPackagesExtensions E).
Proof.
  unfold getPackagesExtensions.
  apply keeps_bind; [exact _ | | intros _].
  - apply keeps_modify, disk_only_tick.
  - destruct (packages E); [apply keeps_push_qualifiers|].
    apply keeps_throw; exact _.
Qed.

Lemma keeps_mutate q0 : keeps disk_only (mutate E q0).
Proof.
  unfold mutate. destruct q0 as [eq|]; [|apply keeps_ret; exact _].
  destruct (parse_qualifier eq) as [name version].
  apply keeps_bind; [exact _ | apply keeps_require_live | intros p].
  destruct (set_dependency name version p); [|apply keeps_throw; exact _].
  apply keeps_bind; [exact _ | | intros _].
  - apply keeps_modify. intros w. disk.
  - apply keeps_bind; [exact _ | apply keeps_writeFileSync | intros _].
    apply keeps_bind; [exact _ | apply keeps_execSync | intros _].
    apply keeps_ret; exact _.
Qed.

(** The ['exit'] listener does not change the exit code. *)
Lemma on_exit_code (code : Z) (w : world) : snd (on_exit code w) = code.
Proof. unfold on_exit. now destruct (cleanWorkspace w). Qed.

(** *** The report grows by rows *)

Lemma sweep_rows_app o1 rows1 o2 rows2 o3 :
  sweep_rows o1 rows1 o2 -> sweep_rows o2 rows2 o3 ->
  sweep_rows o1 (rows1 ++ rows2) o3.
Proof.
  intros H1 H2. induction H1; cbn [app]; [exact H2 | | | ].
  - apply rows_error; auto.
  - apply rows_first; auto.
  - apply rows_next; auto.
Qed.

#[local] Instance reported_refl : Reflexive reported.
Proof.
  intros w o Ho. exists o, []. rewrite app_nil_r.
  repeat split; [exact Ho | constructor].
Qed.

#[local] Instance reported_trans : Transitive reported.
Proof.
  intros a b c Hab Hbc o Ho.
  destruct (Hab o Ho) as (o1 & r1 & Hb & Hs1 & Hr1).
  destruct (Hbc o1 Hb) as (o2 & r2 & Hc & Hs2 & Hr2).
  exists o2, (r1 ++ r2). repeat split; [exact Hc | |].
  - rewrite Hs2, Hs1. now rewrite <- app_assoc.
  - eapply sweep_rows_app; eauto.
Qed.

Lemma same_console_reported (w w' : world) :
  w'.(stdout) = w.(stdout) -> w'.(baseTime) = w.(baseTime) ->
  reported w w'.
Proof.
  intros Hs Hb o Ho. exists o, []. rewrite app_nil_r.
  repeat split; [congruence | exact Hs | constructor].
Qed.

Lemma disk_only_reported w w' : disk_only w w' -> reported w w'.
Proof.
  intros (_ & Hb & _ & _ & _ & Hs & _). now apply same_console_reported.
Qed.

Lemma keeps_report label output : keeps reported (report label output).
Proof.
  intros w o Ho. unfold report.
  set (mean := parseFloatText (getMeasurement output mean_marker)).
  set (stdev := parseFloatText (getMeasurement output stdev_marker)).
  destruct (isNaN mean || isNaN stdev) eqn:Hnan.
  - exists o, [error_row label]. repeat split; [exact Ho |].
    apply rows_error, rows_done.
  - apply orb_false_elim in Hnan as [Hm Hs].
    unfold bind, gets. cbn. rewrite Ho.
    destruct o as [first|]; cbn.
    + exists (Some first),
        [measured_row label mean stdev (toFixed (sub mean first))].
      split; [exact Ho | split; [reflexivity|]].
      apply rows_next; [exact Hm | exact Hs | apply rows_done].
    + exists (Some mean), [measured_row label mean stdev "-"].
      split; [reflexivity | split; [reflexivity|]].
      apply rows_first; [exact Hm | exact Hs | apply rows_done].
Qed.

Lemma keeps_calculateExtension q0 : keeps reported (calculateExtension E q0).
Proof.
  unfold calculateExtension.
  apply keeps_bind; [exact _ | | intros label].
  { eapply keeps_weaken; [apply disk_only_reported | apply keeps_mutate]. }
  apply keeps_bind; [exact _ | apply keeps_gets; exact _ | intros r].
  apply keeps_bind; [exact _ | apply keeps_gets; exact _ | intros u].
  apply keeps_bind; [exact _ | | intros output; apply keeps_report].
  eapply keeps_weaken; [apply disk_only_reported | apply keeps_execSync].
Qed.

Lemma keeps_trial_loop exts : keeps reported (trial_loop E exts).
Proof.
  induction exts as [|e rest IH]; cbn [trial_loop].
  - apply keeps_ret; exact _.
  - apply keeps_bind; [exact _ | apply keeps_calculateExtension | intros _].
    apply keeps_bind; [exact _ | | intros _; exact IH].
    eapply keeps_weaken; [apply disk_only_reported | apply keeps_copyBasePackage].
Qed.

Lemma keeps_unawaited R `{!Transitive R} (m : M unit) :
  (forall w v, R w (set_unhandled v w)) ->
  keeps R m -> keeps R (unawaited m).
Proof.
  intros Hu Hm w. unfold unawaited. specialize (Hm w).
  destruct (m w) as [[a|e] w1]; cbn in *; [exact Hm|].
  etransitivity; [exact Hm | apply Hu].
Qed.


(** *** Pre- and postconditions *)

Lemma hoare_bind {A B} P (m : M A) Q (k : A -> M B) Q' X :
  hoare P m Q X -> (forall a, hoare (Q a) (k a) Q' X) ->
  hoare P (bind m k) Q' X.
Proof.
  intros Hm Hk w Hw. unfold bind. specialize (Hm w Hw).
  destruct (m w) as [[a|e] w1]; [apply (Hk a w1 Hm) | exact Hm].
Qed.

Lemma hoare_ret {A} (P : world -> Prop) (a : A) (Q : A -> world -> Prop) X :
  (forall w, P w -> Q a w) -> hoare P (ret a) Q X.
Proof. intros HQ w Hw. apply HQ, Hw. Qed.

Lemma hoare_modify (P : world -> Prop) f (Q : unit -> world -> Prop) X :
  (forall w, P w -> Q tt (f w)) -> hoare P (modify f) Q X.
Proof. intros HQ w Hw. apply HQ, Hw. Qed.

Lemma hoare_gets {A} (P : world -> Prop) (f : world -> A) X :
  hoare P (gets f) (fun _ => P) X.
Proof. intros w Hw. exact Hw. Qed.

Lemma hoare_weaken {A} (P P' : world -> Prop) (m : M A)
    (Q Q' : A -> world -> Prop) (X X' : world -> Prop) :
  hoare P m Q X ->
  (forall w, P' w -> P w) -> (forall a w, Q a w -> Q' a w) ->
  (forall w, X w -> X' w) ->
  hoare P' m Q' X'.
Proof.
  intros Hm HP HQ HX w Hw. specialize (Hm w (HP w Hw)).
  destruct (m w) as [[a|e] w1]; auto.
Qed.

(** A property stable under [R] is an invariant of whatever keeps
    [R]. *)
Lemma hoare_keeps {A} R (P : world -> Prop) (m : M A) :
  keeps R m -> (forall w w', R w w' -> P w -> P w') ->
  hoare P m (fun _ => P) P.
Proof.
  intros Hm HP w Hw. specialize (Hm w).
  destruct (m w) as [[a|e] w1]; cbn in Hm; eauto.
Qed.


(** *** The sweep *)

Lemma extensionImpact_undefined exts w :
  w.(baseTime) = BUndefined ->
  extensionImpact E exts w
  = sweep_tail E exts (set_stdout (w.(stdout) ++ [header w.(runs)]) w).
Proof.
  intros Hb. unfold extensionImpact, sweep_tail, bind at 1 2 3, gets.
  cbn. rewrite Hb. reflexivity.
Qed.

Lemma keeps_sweep_tail exts : keeps reported (sweep_tail E exts).
Proof.
  unfold sweep_tail.
  apply keeps_bind; [exact _ | | intros _].
  { apply keeps_unawaited; try exact _.
    - intros w v. now apply same_console_reported.
    - apply keeps_calculateExtension. }
  apply keeps_bind; [exact _ | | intros exts'; apply keeps_trial_loop].
  destruct (length exts <? 1)%nat.
  - eapply keeps_weaken; [apply disk_only_reported|].
    apply keeps_getPackagesExtensions.
  - apply keeps_ret; exact _.
Qed.

Lemma extensionImpact_reports exts :
  hoare quiet_start (extensionImpact E exts)
    (fun _ => report_of_sweep) report_of_sweep.
Proof.
  intros w [Hs Hb]. rewrite (extensionImpact_undefined exts w Hb).
  remember (set_stdout (w.(stdout) ++ [header w.(runs)]) w) as w1 eqn:Hw1.
  assert (Hs1 : w1.(stdout) = [header w.(runs)])
    by (subst w1; cbn [stdout set_stdout]; now rewrite Hs).
  assert (Hb1 : w1.(baseTime) = of_baseline None) by now subst w1.
  destruct (keeps_sweep_tail exts w1 None Hb1) as (o' & rows & Hb' & Hs' & Hr).
  assert (Hrep : report_of_sweep (snd (sweep_tail E exts w1))).
  { exists w.(runs), rows, o'. rewrite Hs', Hs1. auto. }
  destruct (sweep_tail E exts w1) as [[a|e] w2]; exact Hrep.
Qed.


Lemma quiet_start_stable w w' :
  disk_only w w' -> quiet_start w -> quiet_start w'.
Proof.
  intros (_ & Hb & _ & _ & _ & Hs & _) [Hs0 Hb0]. split; congruence.
Qed.

Ltac quiet_modify :=
  apply hoare_modify; intros ? [? ?]; split; assumption.

Ltac quiet_ret :=
  apply hoare_ret; intros ? [? ?]; split; assumption.

Ltac quiet_disk lem :=
  eapply hoare_weaken;
  [ apply (hoare_keeps disk_only quiet_start); [apply lem | apply quiet_start_stable]
  | auto | cbn; auto | intros ? ?; left; assumption ].

Lemma main_reports args :
  args.(arg_baseTime) = None ->
  hoare quiet_start (main E args)
    (fun _ => console_of_run) console_of_run.
Proof.
  intros Hbase. unfold main. rewrite Hbase.
  apply hoare_bind with (Q := fun _ => quiet_start); [quiet_ret | intros _].
  apply hoare_bind with (Q := fun _ => quiet_start); [| intros _].
  { destruct (arg_extensions args); [quiet_modify | quiet_ret]. }
  apply hoare_bind with (Q := fun _ => quiet_start); [| intros rejected].
  { destruct (arg_runs args) as [x|]; [|quiet_ret].
    destruct (num_truthy x); cbn [negb]; [|quiet_ret].
    apply hoare_bind with (Q := fun _ => quiet_start); [quiet_modify | intros _].
    destruct (parseInt (num_toString x)) as [n|]; [|quiet_ret].
    destruct (n <? 2)%Z; [|quiet_ret].
    apply hoare_bind with (Q := fun _ => quiet_start); [quiet_modify | intros _].
    quiet_ret. }
  destruct rejected.
  { apply hoare_ret. intros w Hw. left. exact Hw. }
  apply hoare_bind with (Q := fun _ => quiet_start); [| intros _].
  { destruct (arg_yarn args) as [[|]|]; [quiet_modify | quiet_ret | quiet_ret]. }
  apply hoare_bind with (Q := fun _ => quiet_start); [| intros _].
  { destruct (arg_url args) as [u|]; [|quiet_ret].
    destruct (String.eqb u ""); [quiet_ret | quiet_modify]. }
  apply hoare_bind with (Q := fun _ => quiet_start); [| intros _].
  { quiet_disk keeps_prepareWorkspace. }
  apply hoare_bind with (Q := fun _ => quiet_start);
    [apply hoare_gets | intros y].
  apply hoare_bind with (Q := fun _ => quiet_start); [| intros _].
  { quiet_disk keeps_execSync. }
  apply hoare_bind with (Q := fun _ => quiet_start);
    [apply hoare_gets | intros exts].
  apply hoare_bind with (Q := fun _ => report_of_sweep); [| intros _].
  { eapply hoare_weaken; [apply extensionImpact_reports | auto | auto |].
    intros w Hw. right. exact Hw. }
  apply hoare_ret. intros w Hw. right. exact Hw.
Qed.


(** *** The console only grows *)

#[local] Instance grows_refl : Reflexive grows.
Proof. intros w. repeat split. exists []. now rewrite app_nil_r. Qed.

#[local] Instance grows_trans : Transitive grows.
Proof.
  intros a b c (A1 & A2 & r1 & A3) (B1 & B2 & r2 & B3).
  repeat split; [congruence | congruence |].
  exists (r1 ++ r2). rewrite B3, A3. now rewrite <- app_assoc.
Qed.

Lemma disk_only_grows w w' : disk_only w w' -> grows w w'.
Proof.
  intros (Hr & _ & _ & _ & _ & Hs & He & _).
  repeat split; [exact Hr | exact He |].
  exists []. now rewrite app_nil_r.
Qed.

Lemma keeps_console_log line : keeps grows (console_log line).
Proof. intros w. repeat split. now exists [line]. Qed.

Lemma keeps_grows_report label output : keeps grows (report label output).
Proof.
  unfold report.
  destruct (isNaN _ || isNaN _); [apply keeps_console_log|].
  apply keeps_bind; [exact _ | apply keeps_gets; exact _ | intros b].
  apply keeps_bind; [exact _ | | intros diff; apply keeps_console_log].
  destruct b; try (apply keeps_ret; exact _).
  apply keeps_bind; [exact _ | | intros _; apply keeps_ret; exact _].
  apply keeps_modify. intros w. repeat split. exists [].
  cbn. now rewrite app_nil_r.
Qed.

Lemma keeps_grows_calculateExtension q0 :
  keeps grows (calculateExtension E q0).
Proof.
  unfold calculateExtension.
  apply keeps_bind; [exact _ | | intros label].
  { eapply keeps_weaken; [apply disk_only_grows | apply keeps_mutate]. }
  apply keeps_bind; [exact _ | apply keeps_gets; exact _ | intros r].
  apply keeps_bind; [exact _ | apply keeps_gets; exact _ | intros u].
  apply keeps_bind; [exact _ | | intros output; apply keeps_grows_report].
  eapply keeps_weaken; [apply disk_only_grows | apply keeps_execSync].
Qed.

Lemma keeps_grows_trial_loop exts : keeps grows (trial_loop E exts).
Proof.
  induction exts as [|e rest IH]; cbn [trial_loop].
  - apply keeps_ret; exact _.
  - apply keeps_bind;
      [exact _ | apply keeps_grows_calculateExtension | intros _].
    apply keeps_bind; [exact _ | | intros _; exact IH].
    eapply keeps_weaken; [apply disk_only_grows | apply keeps_copyBasePackage].
Qed.

Lemma extensionImpact_headline exts w :
  extensionImpact E exts w
  = sweep_body E exts (set_stdout (w.(stdout) ++ [header w.(runs)]) w).
Proof. reflexivity. Qed.

Lemma keeps_sweep_body exts : keeps grows (sweep_body E exts).
Proof.
  unfold sweep_body.
  apply keeps_bind; [exact _ | apply keeps_gets; exact _ | intros b].
  apply keeps_bind; [exact _ | | intros _].
  { destruct b; try apply keeps_console_log.
    apply keeps_unawaited; try exact _.
    - intros w v. repeat split. exists []. cbn. now rewrite app_nil_r.
    - apply keeps_grows_calculateExtension. }
  apply keeps_bind; [exact _ | | intros exts'; apply keeps_grows_trial_loop].
  destruct (length exts <? 1)%nat.
  - eapply keeps_weaken; [apply disk_only_grows|].
    apply keeps_getPackagesExtensions.
  - apply keeps_ret; exact _.
Qed.


(** *** The default run count *)

Lemma default_start_sweep w : default_start w -> default_sweep w.
Proof. intros (Hs & Hr & He). repeat split; auto. Qed.

Lemma default_start_stable w w' :
  disk_only w w' -> default_start w -> default_start w'.
Proof.
  intros (Hr & _ & _ & _ & _ & Hs & He & _) (Hs0 & Hr0 & He0).
  repeat split; congruence.
Qed.

Lemma extensionImpact_default exts :
  hoare default_start (extensionImpact E exts)
    (fun _ => default_sweep) default_sweep.
Proof.
  intros w (Hs & Hr & He). rewrite extensionImpact_headline.
  remember (set_stdout (w.(stdout) ++ [header w.(runs)]) w) as w1 eqn:Hw1.
  assert (Hs1 : w1.(stdout) = [header (Some 10%Z)])
    by (subst w1; cbn [stdout set_stdout]; now rewrite Hs, Hr).
  destruct (keeps_sweep_body exts w1) as (Hr' & He' & rows & Hs').
  assert (Hend : default_sweep (snd (sweep_body E exts w1))).
  { repeat split.
    - rewrite Hr'. now subst w1.
    - rewrite He'. now subst w1.
    - right. exists rows. now rewrite Hs', Hs1. }
  destruct (sweep_body E exts w1) as [[a|e] w2]; exact Hend.
Qed.

Ltac default_modify :=
  apply hoare_modify; intros ? (? & ? & ?); repeat split; assumption.

Ltac default_ret :=
  apply hoare_ret; intros ? (? & ? & ?); repeat split; assumption.

Ltac default_disk lem :=
  eapply hoare_weaken;
  [ apply (hoare_keeps disk_only default_start);
    [apply lem | apply default_start_stable]
  | auto | cbn; auto | apply default_start_sweep ].

Lemma main_default args :
  runs_not_given args ->
  hoare default_start (main E args)
    (fun started w => started = true /\ default_sweep w) default_sweep.
Proof.
  intros Hruns. unfold main.
  apply hoare_bind with (Q := fun _ => default_start); [| intros _].
  { destruct (arg_baseTime args) as [x|]; [|default_ret].
    destruct (num_truthy x); [default_modify | default_ret]. }
  apply hoare_bind with (Q := fun _ => default_start); [| intros _].
  { destruct (arg_extensions args); [default_modify | default_ret]. }
  apply hoare_bind with (Q := fun rej w => rej = false /\ default_start w);
    [| intros rejected].
  { unfold Logic.runs_not_given in Hruns.
    destruct (arg_runs args) as [x|]; [rewrite Hruns|]; apply hoare_ret; auto. }
  destruct rejected.
  { intros w [Habs _]. discriminate. }
  apply hoare_bind with (Q := fun _ => default_start); [| intros _].
  { destruct (arg_yarn args) as [[|]|];
      apply hoare_modify || apply hoare_ret;
      intros ? [_ (? & ? & ?)]; repeat split; assumption. }
  apply hoare_bind with (Q := fun _ => default_start); [| intros _].
  { destruct (arg_url args) as [u|]; [|default_ret].
    destruct (String.eqb u ""); [default_ret | default_modify]. }
  apply hoare_bind with (Q := fun _ => default_start); [| intros _].
  { default_disk keeps_prepareWorkspace. }
  apply hoare_bind with (Q := fun _ => default_start);
    [apply hoare_gets | intros y].
  apply hoare_bind with (Q := fun _ => default_start); [| intros _].
  { default_disk keeps_execSync. }
  apply hoare_bind with (Q := fun _ => default_start);
    [apply hoare_gets | intros exts].
  apply hoare_bind with (Q := fun _ => default_sweep);
    [apply extensionImpact_default | intros _].
  apply hoare_ret. auto.
Qed.


(** *** The backup survives the sweep *)

Lemma live_is_not_backup : live_path <> backup_path.
Proof. intros Heq. vm_compute in Heq. discriminate. Qed.

Lemma land_backup (r : request) w c :
  targets_live r ->
  w.(fs) !! backup_path = Some c ->
  (land r w).(fs) !! backup_path = Some c /\ (land r w).(pool) = w.(pool).
Proof.
  intros Hd Hb. destruct r as [id n src dst | n path [e|]]; cbn [land];
    [|now split..].
  rewrite (Hd dst eq_refl). destruct (fs w !! src) as [text|].
  - cbn. split; [|reflexivity].
    rewrite lookup_insert_ne by apply live_is_not_backup. exact Hb.
  - cbn. split; [exact Hb | reflexivity].
Qed.

Lemma targets_live_set_wait n r : targets_live r -> targets_live (set_wait n r).
Proof. destruct r; exact (fun Hr => Hr). Qed.

Lemma advance_backup (rs : list request) w c :
  Forall targets_live rs ->
  w.(fs) !! backup_path = Some c ->
  Forall targets_live (fst (advance rs w))
  /\ (snd (advance rs w)).(fs) !! backup_path = Some c
  /\ (snd (advance rs w)).(pool) = w.(pool).
Proof.
  intros Hrs. revert w. induction Hrs as [|r rs Hr Hrs IH]; intros w Hb.
  - cbn. auto.
  - cbn [advance]. destruct (req_wait r) as [|n] eqn:Hw.
    + destruct (land_backup r w c Hr Hb) as [Hb' Hp'].
      destruct (IH (land r w) Hb') as (Hk & Hf & Hp).
      repeat split; [exact Hk | exact Hf | congruence].
    + destruct (IH w Hb) as (Hk & Hf & Hp).
      destruct (advance rs w) as [keep w']. cbn in *.
      repeat split;
        [constructor; [now apply targets_live_set_wait | exact Hk]
        | exact Hf | exact Hp].
Qed.

Lemma tick_backup c w : backed_up c w -> backed_up c (tick w).
Proof.
  intros [Hb Hp]. unfold tick.
  destruct (advance_backup (pool w) (set_pool [] w) c Hp Hb) as (Hk & Hf & _).
  destruct (advance (pool w) (set_pool [] w)) as [keep w'].
  split; [exact Hf | exact Hk].
Qed.

Lemma drain_backup c w :
  backed_up c w ->
  (drain w).(fs) !! backup_path = Some c /\ (drain w).(pool) = [].
Proof.
  intros [Hb Hp]. unfold drain.
  assert (Hfold : forall rs w0,
            Forall targets_live rs ->
            w0.(fs) !! backup_path = Some c -> w0.(pool) = [] ->
            let w1 := fold_left (fun acc r => land r acc) rs w0 in
            w1.(fs) !! backup_path = Some c /\ w1.(pool) = []).
  { intros rs w0 Hrs. revert w0.
    induction Hrs as [|r rs Hr Hrs IH]; intros w0 Hb0 Hp0; [cbn; auto|].
    cbn [fold_left]. destruct (land_backup r w0 c Hr Hb0) as [Hb1 Hp1].
    apply IH; [exact Hb1 | congruence]. }
  destruct (Hfold (pool w) (set_pool [] w) Hp Hb eq_refl) as [Hf Hq].
  split; [exact Hf | exact Hq].
Qed.

Lemma drain_untouched fs0 w : untouched fs0 w -> untouched fs0 (drain w).
Proof.
  intros [Hf Hp]. unfold drain. rewrite Hp.
  split; cbn; [exact Hf | reflexivity].
Qed.

Lemma tick_untouched fs0 w : untouched fs0 w -> untouched fs0 (tick w).
Proof.
  intros [Hf Hp]. unfold tick. rewrite Hp.
  split; cbn; [exact Hf | reflexivity].
Qed.

(** With the backup in place and the thread pool at rest,
    [cleanWorkspace] puts the backup back and removes it. *)
Lemma cleanWorkspace_restores c w :
  w.(fs) !! backup_path = Some c -> w.(pool) = [] ->
  let w' := snd (cleanWorkspace w) in
  w'.(fs) !! live_path = Some c /\ w'.(fs) !! backup_path = None.
Proof.
  intros Hb Hp. destruct (tick_untouched (fs w) w (conj eq_refl Hp)) as [Hf Hq].
  unfold cleanWorkspace, bind, copyFileSync. rewrite Hf, Hb.
  set (w1 := log_event _ _).
  assert (Hw1 : untouched (<[live_path := c]> (fs w)) w1).
  { subst w1. split; cbn; [reflexivity | exact Hq]. }
  destruct (tick_untouched _ w1 Hw1) as [Hf1 Hq1].
  unfold unlinkSync. rewrite Hf1.
  rewrite lookup_insert_ne by apply live_is_not_backup. rewrite Hb.
  cbn. split.
  - rewrite lookup_delete_ne by (intros Heq; now apply live_is_not_backup).
    apply lookup_insert_eq.
  - apply lookup_delete_eq.
Qed.

(** Without a backup [cleanWorkspace] throws at its first step; with
    one it returns. *)
Lemma cleanWorkspace_throws w :
  w.(fs) !! backup_path = None -> w.(pool) = [] ->
  cleanWorkspace w = (Throw ("ENOENT: " ++ backup_path)%string, tick w).
Proof.
  intros Hb Hp. destruct (tick_untouched (fs w) w (conj eq_refl Hp)) as [Hf Hq].
  unfold cleanWorkspace, bind, copyFileSync. now rewrite Hf, Hb.
Qed.

Lemma cleanWorkspace_returns c w :
  w.(fs) !! backup_path = Some c -> w.(pool) = [] ->
  fst (cleanWorkspace w) = Ret tt.
Proof.
  intros Hb Hp. destruct (tick_untouched (fs w) w (conj eq_refl Hp)) as [Hf Hq].
  unfold cleanWorkspace, bind, copyFileSync. rewrite Hf, Hb.
  set (w1 := log_event _ _).
  assert (Hw1 : untouched (<[live_path := c]> (fs w)) w1).
  { subst w1. split; cbn; [reflexivity | exact Hq]. }
  destruct (tick_untouched _ w1 Hw1) as [Hf1 Hq1].
  unfold unlinkSync. rewrite Hf1.
  rewrite lookup_insert_ne by apply live_is_not_backup. now rewrite Hb.
Qed.

(** Without a backup, [cleanWorkspace] leaves the files alone. *)
Lemma cleanWorkspace_idle w :
  w.(fs) !! backup_path = None -> w.(pool) = [] ->
  (snd (cleanWorkspace w)).(fs) = w.(fs).
Proof.
  intros Hb Hp. destruct (tick_untouched (fs w) w (conj eq_refl Hp)) as [Hf Hq].
  unfold cleanWorkspace, bind, copyFileSync. rewrite Hf, Hb. exact Hf.
Qed.


#[local] Instance keeps_backup_refl c : Reflexive (keeps_backup c).
Proof. intros w Hw. exact Hw. Qed.

#[local] Instance keeps_backup_trans c : Transitive (keeps_backup c).
Proof. intros w1 w2 w3 H12 H23 Hw. apply H23, H12, Hw. Qed.

Lemma same_disk_backup c w w' :
  w'.(fs) = w.(fs) -> w'.(pool) = w.(pool) -> keeps_backup c w w'.
Proof. intros Hf Hp [Hb Hq]. split; [now rewrite Hf | now rewrite Hp]. Qed.

Lemma backup_modify c (f : world -> world) :
  (forall w, (f w).(fs) = w.(fs) /\ (f w).(pool) = w.(pool)) ->
  keeps (keeps_backup c) (modify f).
Proof. intros Hf w. destruct (Hf w). now apply same_disk_backup. Qed.

Lemma backup_tick c : keeps (keeps_backup c) (modify tick).
Proof. intros w Hw. now apply tick_backup. Qed.

Lemma backup_copyFileSync c src dst :
  dst <> backup_path -> keeps (keeps_backup c) (copyFileSync src dst).
Proof.
  intros Hd w Hw. apply tick_backup in Hw. destruct Hw as [Hb Hp].
  unfold copyFileSync. destruct (fs (tick w) !! src).
  - split; cbn; [|exact Hp]. now rewrite lookup_insert_ne.
  - now split.
Qed.

Lemma backup_writeFileSync c path data :
  path <> backup_path -> keeps (keeps_backup c) (writeFileSync path data).
Proof.
  intros Hd w Hw. apply tick_backup in Hw. destruct Hw as [Hb Hp].
  unfold writeFileSync. split; cbn; [|exact Hp]. now rewrite lookup_insert_ne.
Qed.

Lemma backup_copyBasePackage c : keeps (keeps_backup c) (copyBasePackage E).
Proof.
  intros w [Hb Hp]. unfold copyBasePackage, copyFile, modify.
  split; cbn; [exact Hb|]. apply Forall_app. split; [exact Hp|].
  constructor; [intros dst [= <-]; reflexivity | constructor].
Qed.

Lemma backup_execSync c cmd : keeps (keeps_backup c) (execSync E cmd).
Proof.
  intros w Hw. apply tick_backup in Hw. unfold execSync.
  destruct (exec_result E _); exact Hw.
Qed.

Lemma backup_require_live c : keeps (keeps_backup c) require_live.
Proof.
  intros w Hw. unfold require_live. destruct (cache w); [exact Hw|].
  apply tick_backup in Hw.
  destruct (fs (tick w) !! live_path) as [text|]; [|exact Hw].
  destruct (JSON_parse text); exact Hw.
Qed.

Lemma backup_mkdirp c path : keeps (keeps_backup c) (mkdirp E path).
Proof.
  intros w [Hb Hp]. unfold mkdirp, modify.
  split; cbn; [exact Hb|]. apply Forall_app. split; [exact Hp|].
  constructor; [intros dst Hd; discriminate | constructor].
Qed.

Lemma backup_console_log c line : keeps (keeps_backup c) (console_log line).
Proof. apply backup_modify. intros w. split; reflexivity. Qed.

Lemma backup_getPackagesExtensions c :
  keeps (keeps_backup c) (getPackagesExtensions E).
Proof.
  unfold getPackagesExtensions.
  apply keeps_bind; [exact _ | apply backup_tick | intros _].
  destruct (packages E) as [entries|]; [|apply keeps_throw; exact _].
  generalize (@nil string).
  induction (filter _ (filter _ entries)) as [|d ds IH]; intros qs;
    cbn [push_qualifiers].
  - apply keeps_ret; exact _.
  - destruct (dir_manifest d) as [[n v]|]; [apply IH|].
    apply keeps_throw; exact _.
Qed.

Lemma backup_mutate c q0 : keeps (keeps_backup c) (mutate E q0).
Proof.
  unfold mutate. destruct q0 as [eq|]; [|apply keeps_ret; exact _].
  destruct (parse_qualifier eq) as [name version].
  apply keeps_bind; [exact _ | apply backup_require_live | intros p].
  destruct (set_dependency name version p); [|apply keeps_throw; exact _].
  apply keeps_bind; [exact _ | | intros _].
  { apply backup_modify. intros w. split; reflexivity. }
  apply keeps_bind; [exact _ | | intros _].
  { apply backup_writeFileSync, live_is_not_backup. }
  apply keeps_bind; [exact _ | apply backup_execSync | intros _].
  apply keeps_ret; exact _.
Qed.

Lemma backup_report c label output :
  keeps (keeps_backup c) (report label output).
Proof.
  unfold report.
  destruct (isNaN _ || isNaN _); [apply backup_console_log|].
  apply keeps_bind; [exact _ | apply keeps_gets; exact _ | intros b].
  apply keeps_bind; [exact _ | | intros diff; apply backup_console_log].
  destruct b; try (apply keeps_ret; exact _).
  apply keeps_bind; [exact _ | | intros _; apply keeps_ret; exact _].
  apply backup_modify. intros w. split; reflexivity.
Qed.

Lemma backup_calculateExtension c q0 :
  keeps (keeps_backup c) (calculateExtension E q0).
Proof.
  unfold calculateExtension.
  apply keeps_bind; [exact _ | apply backup_mutate | intros label].
  apply keeps_bind; [exact _ | apply keeps_gets; exact _ | intros r].
  apply keeps_bind; [exact _ | apply keeps_gets; exact _ | intros u].
  apply keeps_bind; [exact _ | apply backup_execSync | intros output].
  apply backup_report.
Qed.

Lemma backup_trial_loop c exts : keeps (keeps_backup c) (trial_loop E exts).
Proof.
  induction exts as [|e rest IH]; cbn [trial_loop].
  - apply keeps_ret; exact _.
  - apply keeps_bind; [exact _ | apply backup_calculateExtension | intros _].
    apply keeps_bind; [exact _ | apply backup_copyBasePackage | intros _].
    exact IH.
Qed.

Lemma backup_extensionImpact c exts :
  keeps (keeps_backup c) (extensionImpact E exts).
Proof.
  unfold extensionImpact.
  apply keeps_bind; [exact _ | apply keeps_gets; exact _ | intros r].
  apply keeps_bind; [exact _ | apply backup_console_log | intros _].
  apply keeps_bind; [exact _ | apply keeps_gets; exact _ | intros b].
  apply keeps_bind; [exact _ | | intros _].
  { destruct b; try apply backup_console_log.
    apply keeps_unawaited; try exact _.
    - intros w v. now apply same_disk_backup.
    - apply backup_calculateExtension. }
  apply keeps_bind; [exact _ | | intros exts'; apply backup_trial_loop].
  destruct (length exts <? 1)%nat.
  - apply backup_getPackagesExtensions.
  - apply keeps_ret; exact _.
Qed.


Lemma prepareWorkspace_backs_up fs0 c :
  fs0 !! live_path = Some c ->
  hoare (untouched fs0) (prepareWorkspace E)
    (fun _ => backed_up c) (workspace fs0 c).
Proof.
  intros Hlive w Hw. destruct (tick_untouched fs0 w Hw) as [Hf Hp].
  unfold prepareWorkspace, bind at 1, copyFileSync. rewrite Hf, Hlive.
  set (w1 := log_event _ _).
  assert (Hw1 : backed_up c w1).
  { subst w1. split; cbn; [apply lookup_insert_eq | rewrite Hp; constructor]. }
  assert (Hk : keeps (keeps_backup c)
                 (bind (copyBasePackage E) (fun _ => mkdirp E no_plugins_path))).
  { apply keeps_bind; [exact _ | apply backup_copyBasePackage | intros _].
    apply backup_mkdirp. }
  specialize (Hk w1 Hw1).
  destruct (bind (copyBasePackage E) (fun _ => mkdirp E no_plugins_path) w1) as [[a|e] w2];
    cbn in Hk; [exact Hk | right; exact Hk].
Qed.

Ltac untouched_modify :=
  apply hoare_modify; intros ? [? ?]; split; assumption.

Ltac untouched_ret :=
  apply hoare_ret; intros ? [? ?]; split; assumption.

Ltac backup_step c lem :=
  eapply hoare_weaken;
  [ apply (hoare_keeps (keeps_backup c) (backed_up c));
    [apply lem | intros ? ? Hk ?; now apply Hk]
  | auto | cbn; auto | intros ? ?; right; assumption ].

Lemma main_workspace args fs0 c :
  fs0 !! live_path = Some c ->
  hoare (untouched fs0) (main E args)
    (fun _ => workspace fs0 c) (workspace fs0 c).
Proof.
  intros Hlive. unfold main.
  apply hoare_bind with (Q := fun _ => untouched fs0); [| intros _].
  { destruct (arg_baseTime args) as [x|]; [|untouched_ret].
    destruct (num_truthy x); [untouched_modify | untouched_ret]. }
  apply hoare_bind with (Q := fun _ => untouched fs0); [| intros _].
  { destruct (arg_extensions args); [untouched_modify | untouched_ret]. }
  apply hoare_bind with (Q := fun _ => untouched fs0); [| intros rejected].
  { destruct (arg_runs args) as [x|]; [|untouched_ret].
    destruct (num_truthy x); cbn [negb]; [|untouched_ret].
    apply hoare_bind with (Q := fun _ => untouched fs0);
      [untouched_modify | intros _].
    destruct (parseInt (num_toString x)) as [n|]; [|untouched_ret].
    destruct (n <? 2)%Z; [|untouched_ret].
    apply hoare_bind with (Q := fun _ => untouched fs0);
      [untouched_modify | intros _].
    untouched_ret. }
  destruct rejected.
  { apply hoare_ret. intros w Hw. left. exact Hw. }
  apply hoare_bind with (Q := fun _ => untouched fs0); [| intros _].
  { destruct (arg_yarn args) as [[|]|];
      [untouched_modify | untouched_ret | untouched_ret]. }
  apply hoare_bind with (Q := fun _ => untouched fs0); [| intros _].
  { destruct (arg_url args) as [u|]; [|untouched_ret].
    destruct (String.eqb u ""); [untouched_ret | untouched_modify]. }
  apply hoare_bind with (Q := fun _ => backed_up c);
    [now apply prepareWorkspace_backs_up | intros _].
  apply hoare_bind with (Q := fun _ => backed_up c);
    [apply hoare_gets | intros y].
  apply hoare_bind with (Q := fun _ => backed_up c); [| intros _].
  { backup_step c backup_execSync. }
  apply hoare_bind with (Q := fun _ => backed_up c);
    [apply hoare_gets | intros exts].
  apply hoare_bind with (Q := fun _ => backed_up c); [| intros _].
  { backup_step c backup_extensionImpact. }
  apply hoare_ret. intros w Hw. right. exact Hw.
Qed.

(** When the event loop has run dry, the ['exit'] listener leaves the
    live manifest as it was before the run, and no backup file. *)
Lemma on_exit_restores fs0 c code w :
  fs0 !! live_path = Some c -> fs0 !! backup_path = None ->
  workspace fs0 c w ->
  let w' := fst (on_exit code (drain w)) in
  w'.(fs) !! live_path = Some c /\ w'.(fs) !! backup_path = None.
Proof.
  intros Hlive Hnone [Hw | Hw]; unfold on_exit.
  - destruct (drain_untouched fs0 w Hw) as [Hf Hp].
    pose proof (cleanWorkspace_idle (drain w)) as Hidle.
    rewrite Hf in Hidle. specialize (Hidle Hnone Hp).
    destruct (cleanWorkspace (drain w)) as [r w2]. cbn in *.
    rewrite Hidle. split; assumption.
  - destruct (drain_backup c w Hw) as [Hb Hp].
    pose proof (cleanWorkspace_restores c (drain w) Hb Hp) as Hres.
    destruct (cleanWorkspace (drain w)) as [r w2]. exact Hres.
Qed.

Lemma on_drained_restores fs0 c w :
  fs0 !! live_path = Some c -> fs0 !! backup_path = None ->
  workspace fs0 c w ->
  let w' := fst (on_drained E (drain w)) in
  w'.(fs) !! live_path = Some c /\ w'.(fs) !! backup_path = None.
Proof.
  intros Hlive Hnone [Hw | Hw]; unfold on_drained.
  - destruct (drain_untouched fs0 w Hw) as [Hf Hp].
    pose proof (cleanWorkspace_idle (drain w)) as Hidle.
    rewrite Hf in Hidle. specialize (Hidle Hnone Hp).
    destruct (cleanWorkspace (drain w)) as [[a|e] w2]; cbn in *;
      rewrite Hidle; split; assumption.
  - destruct (drain_backup c w Hw) as [Hb Hp].
    pose proof (cleanWorkspace_restores c (drain w) Hb Hp) as Hres.
    destruct (cleanWorkspace (drain w)) as [[a|e] w2]; exact Hres.
Qed.

End Facts.
End ScriptFacts.

(** ** The report *)

Module ReportProps.
Import JsString JsNumber Script Logic ScriptFacts Reference Samples.

(** When no base time is supplied, whatever the commands answer and
    however the run ends, the console holds either nothing or the
    headline followed by a report that started without a baseline:
    failed measurements print the error line, the first row with a
    measured mean prints a dash for its delta and makes that mean the
    baseline, and every later measured row prints
    [(mean - first mean).toFixed(3)] for its delta. *)
Lemma report_of_any_run {F : Type} `{Double F} `{Json} {U8 : Utf8}
    (E : env) (args : argv) (fs0 : gmap string string) :
  args.(arg_baseTime) = None ->
  let w' := snd (main E args (init_world fs0)) in
  w'.(stdout) = []
  \/ exists r rows o',
       w'.(stdout) = header r :: rows /\ sweep_rows None rows o'.
Proof.
  intros Hbase w'.
  pose proof (main_reports E args Hbase (init_world fs0)) as Hm.
  assert (Hrun : console_of_run w').
  { subst w'. destruct (main E args (init_world fs0)) as [[a|e] w1];
      apply Hm; split; reflexivity. }
  destruct Hrun as [[Hs _] | (r & rows & o' & Hs & _ & Hr)].
  - left. exact Hs.
  - right. exists r, rows, o'. split; assumption.
Qed.

(** The report of a sweep over two extensions, each double standing
    for the expression that computes it. *)
Example report_of_two_extensions :
  stdout (snd (main calm (with_extensions two_extensions)
                 (init_world clean_disk)))
  = [ header (Some 10);
      "Base Theia, 2.500.toFixed(3), 0.100.toFixed(3), "
      ++ "((0.100 / 2.500) * 100).toFixed(3), -";
      qualifier_text "a" "1.0.0"
      ++ ", 2.700.toFixed(3), 0.100.toFixed(3), "
      ++ "((0.100 / 2.700) * 100).toFixed(3), (2.700 - 2.500).toFixed(3)";
      qualifier_text "b" "2.0.0"
      ++ ", 2.700.toFixed(3), 0.100.toFixed(3), "
      ++ "((0.100 / 2.700) * 100).toFixed(3), (2.700 - 2.500).toFixed(3)" ].
Proof. vm_compute. reflexivity. Qed.

End ReportProps.

(** ** The options *)

Module OptionProps.
Import JsString JsNumber Script Logic ScriptFacts NumberFacts Reference Samples.
Local Open Scope list_scope.

(** C9, where the statement fails.  With [--runs 1] and a backup
    file left by an earlier run, the message is printed and the
    start-up function returns; the exit handler finds the backup,
    restores it and the process ends with exit code 0, not with a
    non-zero one. *)
Lemma runs_one_exits_with_zero :
  let '(w, code) := run calm (with_runs 1) disk_with_leftover in
  w.(stderr) = [runs_rejected_message]
  /\ code = 0
  /\ ~ (code <> 0).
Proof. vm_compute. repeat split. intros Hne. now apply Hne. Qed.

(** C9 (as the code has it).  When [--runs] is given a truthy value
    whose text [parseInt] reads as an integer below 2, the start-up
    function prints the message on the error stream and returns at
    once: nothing was printed on the console, no file or directory was
    created, copied or modified, no command was run and nothing was
    asked of the thread pool.  The check sets no exit code.  When the
    process is not interrupted, its exit code is that of the exit
    handler: 0 when a backup file exists (which the handler copies
    over the live manifest); without a backup file the handler's
    cleanup is rejected, and the code is 1 on a runtime that ends the
    process on an unhandled rejection and 0 on one that does not. *)
Theorem runs_below_two_rejected {F : Type} `{Double F} `{Json} {U8 : Utf8}
    (E : env) (args : argv) (fs0 : gmap string string)
    (x : number F) (n : Z) :
  args.(arg_runs) = Some x -> num_truthy x = true ->
  parseInt (num_toString x) = Some n -> n < 2 -> sigint E = false ->
  let '(r, w') := main E args (init_world fs0) in
  r = Ret false
  /\ w'.(stderr) = [runs_rejected_message] /\ w'.(stdout) = []
  /\ w'.(fs) = fs0 /\ w'.(dirs) = [] /\ w'.(trace) = [] /\ w'.(pool) = []
  /\ w'.(execs) = 0%nat
  /\ (fs0 !! backup_path = None ->
      snd (run E args fs0) = if rejections_fatal E then 1 else 0)
  /\ (fs0 !! backup_path <> None -> snd (run E args fs0) = 0).
Proof.
  intros Hruns Htruthy Hparse Hn Hsig.
  assert (Hmain : exists w', main E args (init_world fs0) = (Ret false, w')
            /\ w'.(stderr) = [runs_rejected_message] /\ w'.(stdout) = []
            /\ w'.(fs) = fs0 /\ w'.(dirs) = [] /\ w'.(trace) = []
            /\ w'.(pool) = [] /\ w'.(execs) = 0%nat
            /\ w'.(unhandled) = []).
  { unfold main. rewrite Hruns, Htruthy. cbn [negb]. rewrite Hparse.
    apply Z.ltb_lt in Hn. rewrite Hn.
    destruct (arg_baseTime args) as [b|];
      [destruct (num_truthy b)|];
      destruct (arg_extensions args);
      eexists; repeat split. }
  destruct Hmain as (w' & Hm & He & Ho & Hf & Hd & Ht & Hp & Hx & Hu).
  unfold run. rewrite Hm. rewrite Hu, Hsig.
  assert (Hdf : (drain w').(fs) = fs0 /\ (drain w').(pool) = []).
  { apply (drain_untouched fs0 w'). split; assumption. }
  destruct Hdf as [Hdf Hdp].
  repeat split; try assumption.
  - intros Hnone. unfold on_drained.
    rewrite cleanWorkspace_throws by (rewrite ?Hdf; assumption).
    now destruct (rejections_fatal E).
  - intros Hsome. unfold on_drained.
    destruct (fs0 !! backup_path) as [c|] eqn:Hb; [|congruence].
    pose proof (cleanWorkspace_returns c (drain w')) as Hret.
    rewrite Hdf in Hret. specialize (Hret Hb Hdp).
    destruct (cleanWorkspace (drain w')) as [[[]|e] w2];
      [reflexivity | discriminate].
Qed.

Lemma runs_below_two_rejected_witness :
  let '(r, w') := main calm (with_runs 1) (init_world clean_disk) in
  r = Ret false
  /\ w'.(stderr) = [runs_rejected_message] /\ w'.(stdout) = []
  /\ w'.(fs) = clean_disk /\ w'.(dirs) = [] /\ w'.(trace) = []
  /\ w'.(pool) = [] /\ w'.(execs) = 0%nat
  /\ (clean_disk !! backup_path = None ->
      snd (run calm (with_runs 1) clean_disk)
      = if rejections_fatal calm then 1 else 0)
  /\ (clean_disk !! backup_path <> None ->
      snd (run calm (with_runs 1) clean_disk) = 0).
Proof.
  apply (runs_below_two_rejected calm (with_runs 1) clean_disk
           (Some "1") 1);
    [reflexivity | reflexivity | reflexivity | lia | reflexivity].
Defined.

End OptionProps.

(** ** The workspace *)

Module WorkspaceProps.
Import JsString JsNumber Script Logic ScriptFacts Reference Samples.
Local Open Scope list_scope.

Lemma tick_idle {F : Type} (w : world (F := F)) :
  w.(pool) = [] -> (tick w).(fs) = w.(fs) /\ (tick w).(pool) = [].
Proof. intros Hp. unfold tick. rewrite Hp. split; reflexivity. Qed.

(** C8, where the code departs from it.  Without a backup file
    [cleanWorkspace] throws: its promise is rejected with the error
    of [copyFileSync], nothing is printed on either stream, and no
    file changes.  [exitHandler] awaits that promise, so it is
    rejected in turn and never reaches [process.exit()]; on a runtime
    that ends the process on an unhandled rejection, an interrupt then
    ends with exit code 1. *)
Theorem cleanWorkspace_throws_without_backup {F : Type} `{Double F} `{Json} {U8 : Utf8}
    (E : env) (w : world (F := F)) :
  w.(fs) !! backup_path = None -> w.(pool) = [] ->
  let '(r, w') := cleanWorkspace w in
  r = Throw ("ENOENT: " ++ backup_path)%string
  /\ w'.(stdout) = w.(stdout) /\ w'.(stderr) = w.(stderr)
  /\ w'.(fs) = w.(fs)
  /\ (rejections_fatal E = true -> snd (on_sigint E w) = 1).
Proof.
  intros Hb Hp. destruct (tick_idle w Hp) as [Hfs Hpool].
  assert (Hc : cleanWorkspace w
               = (Throw ("ENOENT: " ++ backup_path)%string, tick w)).
  { unfold cleanWorkspace, bind, copyFileSync. now rewrite Hfs, Hb. }
  unfold on_sigint. rewrite Hc.
  destruct (disk_only_tick w) as (_ & _ & _ & _ & _ & Hs & He & _).
  repeat split; try assumption.
  intros Hfatal. rewrite Hfatal. apply on_exit_code.
Qed.

Lemma cleanWorkspace_throws_without_backup_witness :
  let '(r, w') := cleanWorkspace (F := string) (init_world clean_disk) in
  r = Throw ("ENOENT: " ++ backup_path)%string
  /\ w'.(stdout) = [] /\ w'.(stderr) = []
  /\ w'.(fs) = clean_disk
  /\ (rejections_fatal calm = true
      -> snd (on_sigint (F := string) calm (init_world clean_disk)) = 1).
Proof.
  apply (cleanWorkspace_throws_without_backup calm (init_world clean_disk));
    reflexivity.
Defined.

(** A second cleanup after a successful one throws as well. *)
Example second_cleanup_throws :
  let w := init_world (F := string) disk_with_leftover in
  fst (cleanWorkspace w) = Ret tt
  /\ fst (cleanWorkspace (snd (cleanWorkspace w)))
     = Throw ("ENOENT: " ++ backup_path)%string.
Proof. vm_compute. split; reflexivity. Qed.

(** C6, where the code departs from it.  In a sweep over two
    extensions the manifest written for the second one still holds
    the entry of the first: [require] answers the object it cached,
    which the first trial changed in place, and the reset of the file
    in between does not reach it.  Two entries differ from the base
    manifest, not one. *)
Theorem second_mutation_keeps_first_entry :
  let w := fst (run calm (with_extensions two_extensions) clean_disk) in
  map JSON_parse (written w.(trace))
  = [ Some (Package (Some [("@theia/core", "1.0.0"); ("a", " 1.0.0")])
              [("private", "true")]);
      Some (Package (Some [("@theia/core", "1.0.0"); ("a", " 1.0.0");
                           ("b", " 2.0.0")])
              [("private", "true")]) ]
  /\ JSON_parse (print_package base_package) = Some base_package.
Proof. vm_compute. split; reflexivity. Qed.

(** C7, where the code departs from it.  [copyBasePackage] hands the
    reset to the thread pool and returns; nothing waits for it.  When
    the thread pool is one file operation late with the reset after
    the first trial, the manifest of the second trial is written
    before that reset is carried out (and is then overwritten by
    it). *)
Theorem mutation_overtakes_reset :
  let w := fst (run late_reset (with_extensions two_extensions) clean_disk) in
  manifest_events w.(trace)
  = [ ResetRequested 0; ResetDone 0; Mutated;
      ResetRequested 1; Mutated; ResetDone 1;
      ResetRequested 2; ResetDone 2 ]
  /\ resets_done_before_mutations 0 (manifest_events w.(trace)) = false.
Proof. vm_compute. split; reflexivity. Qed.

(** X14.  What the backup does achieve.  A run that starts with the live manifest
    in place and no backup file, is not interrupted, and exits once
    the event loop has run dry, leaves the live manifest with the
    content it had before the run, and no backup file. *)
Theorem live_manifest_restored_on_completion {F : Type} `{Double F} `{Json} {U8 : Utf8}
    (E : env) (args : argv) (fs0 : gmap string string) (c : string) :
  fs0 !! live_path = Some c -> fs0 !! backup_path = None ->
  completes_normally E args fs0 ->
  let w := fst (run E args fs0) in
  w.(fs) !! live_path = Some c /\ w.(fs) !! backup_path = None.
Proof.
  intros Hlive Hnone [Hsig Hdry].
  pose proof (main_workspace E args fs0 c Hlive (init_world fs0)) as Hm.
  unfold run. rewrite Hsig.
  destruct (main E args (init_world fs0)) as [[b|e] w1] eqn:Hmain.
  - assert (Hw : workspace fs0 c w1) by (apply Hm; split; reflexivity).
    destruct (unhandled w1) as [|u us] eqn:Hu.
    + now apply on_drained_restores with (fs0 := fs0).
    + destruct Hdry as [-> | (b' & w' & Heq & Hnil)].
      * now apply on_drained_restores with (fs0 := fs0).
      * injection Heq as _ <-. congruence.
  - assert (Hw : workspace fs0 c w1) by (apply Hm; split; reflexivity).
    set (w2 := set_unhandled _ w1).
    assert (Hw2 : workspace fs0 c w2) by exact Hw.
    assert (Hu : exists u us, unhandled w2 = u :: us).
    { subst w2. cbn. destruct (unhandled w1); cbn; eauto. }
    destruct Hu as (u & us & ->).
    destruct Hdry as [-> | (b' & w' & Heq & _)]; [|discriminate].
    now apply on_drained_restores with (fs0 := fs0).
Qed.

Lemma live_manifest_restored_on_completion_witness :
  let w := fst (run late_reset (with_extensions two_extensions) clean_disk) in
  w.(fs) !! live_path = Some original_text /\ w.(fs) !! backup_path = None.
Proof.
  apply (live_manifest_restored_on_completion late_reset
           (with_extensions two_extensions) clean_disk original_text);
    [reflexivity | reflexivity |].
  split; [reflexivity|]. right.
  eexists _, _. split; [vm_compute; reflexivity | reflexivity].
Defined.

(** C1, where the code departs from it.  Two runs after which the
    live manifest is not what it was before the run.  In the first a
    backup file was left from an earlier run and [--runs 1] is
    rejected: the exit handler copies the old backup over the live
    manifest although this run never made a backup.  In the second the
    run is interrupted during its last measurement and the thread pool
    is one file operation late with the last reset: the exit handler
    restores the backup and the reset then overwrites it with the base
    manifest. *)
Theorem live_manifest_not_restored :
  let leftover := fst (run calm (with_runs 1) disk_with_leftover) in
  let raced := fst (run (interrupted 1)
                      (with_extensions [qualifier_text "a" "1.0.0"])
                      clean_disk) in
  disk_with_leftover !! live_path = Some original_text
  /\ leftover.(fs) !! live_path = Some (print_package base_package)
  /\ clean_disk !! live_path = Some original_text
  /\ raced.(fs) !! live_path = Some (print_package base_package)
  /\ print_package base_package <> original_text.
Proof. vm_compute. repeat split. discriminate. Qed.

End WorkspaceProps.

(** * Further properties of the script *)

(** ** Parsing: qualifiers, measurements, dependencies *)

Module ParsingExtras.
Import JsString JsNumber Script Logic Coverage StringFacts NumberFacts.
Import MeasurementProps Reference Samples.

Lemma take_0 (s : string) : take 0 s = EmptyString.
Proof. now destruct s. Qed.

Lemma clamp_negative (s : string) (i : Z) : i <= 0 -> clamp s i = 0%nat.
Proof. intros Hi. unfold clamp, len. lia. Qed.

(** X1.  A qualifier without a colon is not refused: [lastIndexOf]
    answers -1, the name is the empty text and the version is the whole
    qualifier, quotes removed. *)
Theorem parse_qualifier_without_colon (e : string) :
  find_last ":" (strip_quotes e) = None ->
  parse_qualifier e = (EmptyString, strip_quotes e).
Proof.
  intros Hnone. unfold parse_qualifier, lastIndexOf. rewrite Hnone.
  f_equal.
  - unfold substring. rewrite !clamp_negative by lia. apply take_0.
  - change (-1 + 1) with (Z.of_nat 0).
    rewrite substring_from_nat by lia. reflexivity.
Qed.

Lemma parse_qualifier_without_colon_witness :
  parse_qualifier (q ++ "@theia/editor" ++ q) = (EmptyString, "@theia/editor").
Proof.
  apply (parse_qualifier_without_colon (q ++ "@theia/editor" ++ q)).
  reflexivity.
Defined.

(** X2.  When no [seconds] follows the extraction start in the
    Buffer, [getMeasurement] does not answer an empty text: [indexOf]
    answers -1, [substring] gets a negative end and swaps its ends, and
    the answer is the head of the decoded output, up to the extraction
    start (a position in bytes, applied to the decoded string). *)
Theorem getMeasurement_without_seconds {U8 : Utf8}
    (output identifier : string) :
  let firstIndex :=
    lastIndexOf output (utf8_of identifier) + len identifier + 1 in
  find_first "seconds" (drop (clamp output firstIndex) output) = None ->
  getMeasurement output identifier
  = firstn (text_clamp (buffer_toString output) firstIndex)
      (buffer_toString output).
Proof.
  intros firstIndex Hnone. unfold getMeasurement. fold firstIndex.
  change (utf8_of "seconds") with "seconds".
  unfold indexOf. rewrite Hnone. unfold text_substring.
  replace (text_clamp (buffer_toString output) (-1 - 1)) with 0%nat
    by (unfold text_clamp; lia).
  rewrite Nat.min_0_r, Nat.max_0_r, Nat.sub_0_r. reflexivity.
Qed.

Lemma getMeasurement_without_seconds_witness :
  getMeasurement ("12 tries" ++ nl ++ mean_marker ++ " 2.5 s") mean_marker
  = units_of ("12 tries" ++ nl ++ mean_marker ++ " ").
Proof.
  etransitivity.
  - apply (getMeasurement_without_seconds
             ("12 tries" ++ nl ++ mean_marker ++ " 2.5 s") mean_marker).
    reflexivity.
  - vm_compute. reflexivity.
Defined.


Lemma take_app_more (a b : string) (k : nat) :
  take (String.length a + k) (a ++ b) = a ++ take k b.
Proof.
  induction a as [|c a IH]; cbn [String.length String.append Nat.add take].
  - reflexivity.
  - now rewrite IH.
Qed.

Lemma drop_app_more (a b : string) (k : nat) :
  drop (String.length a + k) (a ++ b) = drop k b.
Proof. now rewrite drop_add, drop_app. Qed.

(** The text the specification's wording extracts on a line whose two
    separators are spaces: the run with the leading space. *)
Lemma measurement_as_specified_spaced (pre marker run post : string) :
  let rest := run ++ String " " ("seconds" ++ post) in
  let output := pre ++ marker ++ String " " rest in
  find_last marker output = Some (String.length pre) ->
  find_first "seconds" rest = Some (S (String.length run)) ->
  measurement_as_specified output marker = String " " run.
Proof.
  intros rest output Hlast Hfirst.
  unfold measurement_as_specified, lastIndexOf, len. rewrite Hlast.
  set (k := (String.length pre + String.length marker)%nat).
  replace (Z.of_nat (String.length pre) + Z.of_nat (String.length marker))
    with (Z.of_nat k) by lia.
  assert (Hdrop : drop k output = String " " rest).
  { unfold k, output. rewrite !drop_add, !drop_app. reflexivity. }
  assert (Hlen : (k + String.length run + 2 <= String.length output)%nat).
  { unfold output, rest, k. rewrite !length_app. cbn [String.length].
    rewrite !length_app. cbn [String.length]. lia. }
  assert (Hseconds : find_first "seconds" (String " " rest)
                     = Some (S (S (String.length run)))).
  { cbn [find_first]. change (String.prefix "seconds" (String " " rest))
      with false. cbv iota. now rewrite Hfirst. }
  rewrite (indexOf_nat output "seconds" k (S (S (String.length run))))
    by (try lia; now rewrite Hdrop).
  rewrite substring_nat by lia. rewrite Hdrop.
  replace (k + S (S (String.length run)) - k)%nat
    with (S (String.length run + 1)) by lia.
  unfold rest. cbn [take]. rewrite take_app_more. cbn [take String.append].
  cbn [String.length]. rewrite length_app. cbn [String.length].
  replace (S (String.length run + 1) - 1)%nat
    with (S (String.length run + 0)) by lia.
  cbn [drop take]. rewrite drop_app_more, take_app_more.
  cbn [drop take]. rewrite app_empty_r. reflexivity.
Qed.

(** X3.  On a 7-bit output with a line whose marker is followed by a
    space, the number, a space and [seconds], the extraction of the
    code and the extraction as the specification words it give
    [parseFloat] the same literal: the space the code skips is one
    [parseFloat] skips too. *)
Theorem getMeasurement_agrees_on_spaced_lines {U8 : Utf8}
    (pre marker run post : string) :
  let rest := run ++ String " " ("seconds" ++ post) in
  let output := pre ++ marker ++ String " " rest in
  seven_bit output = true -> seven_bit marker = true ->
  find_last marker output = Some (String.length pre) ->
  find_first "seconds" rest = Some (S (String.length run)) ->
  text_float_literal (getMeasurement output marker)
  = float_literal (measurement_as_specified output marker).
Proof.
  intros rest output Ho Hm Hlast Hfirst.
  pose proof (measurement_as_specified_spaced pre marker run post Hlast Hfirst)
    as Hspec.
  cbv zeta in Hspec. fold rest output in Hspec. rewrite Hspec.
  rewrite (getMeasurement_seven_bit output marker Ho Hm).
  rewrite text_float_literal_units.
  assert (Hrest : rest = (run ++ " ") ++ "seconds" ++ post).
  { unfold rest. now rewrite app_assoc. }
  assert (Hcode :
    substring output (lastIndexOf output marker + len marker + 1)
      (indexOf output "seconds" (lastIndexOf output marker + len marker + 1)
       - 1)
    = extracted " " (run ++ " ")).
  { pose proof (substring_between pre marker (run ++ " ") post " ") as Hb.
    cbv zeta in Hb. rewrite <- Hrest in Hb. apply Hb; [exact Hlast|].
    rewrite Hfirst, length_app. cbn [String.length]. f_equal. lia. }
  cbv zeta. rewrite Hcode.
  assert (Hrun : extracted " " (run ++ " ") = run).
  { unfold extracted. destruct (run ++ " ") as [|c r] eqn:Hr.
    - destruct run; discriminate.
    - rewrite <- Hr, length_app. cbn [String.length].
      replace (String.length run + 1 - 1)%nat with (String.length run) by lia.
      apply take_app. }
  rewrite Hrun. reflexivity.
Qed.

Lemma getMeasurement_agrees_on_spaced_lines_witness :
  let output := (mean_marker ++ " 9.000 seconds" ++ nl)
                ++ mean_marker ++ String " " ("2.500" ++ String " " ("seconds" ++ nl)) in
  text_float_literal (getMeasurement output mean_marker)
  = float_literal (measurement_as_specified output mean_marker).
Proof.
  apply (getMeasurement_agrees_on_spaced_lines
           (mean_marker ++ " 9.000 seconds" ++ nl) mean_marker "2.500" nl);
    reflexivity.
Defined.

(** *** Objects *)

Lemma has_key_get (key : string) (o : list (string * string)) :
  has_key key o = match get key o with Some _ => true | None => false end.
Proof.
  induction o as [|[k v] o IH]; cbn [has_key get]; [reflexivity|].
  now destruct (String.eqb k key).
Qed.

Lemma get_update_same (key value : string) (o : list (string * string)) :
  get key o <> None -> get key (update key value o) = Some value.
Proof.
  induction o as [|[k v] o IH]; cbn [update get]; [congruence|].
  destruct (String.eqb k key) eqn:Hk; cbn [get]; rewrite Hk;
    [reflexivity | exact IH].
Qed.

Lemma get_update_other (key value k' : string) (o : list (string * string)) :
  k' <> key -> get k' (update key value o) = get k' o.
Proof.
  intros Hne. induction o as [|[k v] o IH]; cbn [update get]; [reflexivity|].
  destruct (String.eqb k key) eqn:Hk; cbn [get].
  - apply String.eqb_eq in Hk. subst k.
    apply String.eqb_neq in Hne. rewrite String.eqb_sym in Hne.
    now rewrite Hne.
  - now rewrite IH.
Qed.

Lemma length_update (key value : string) (o : list (string * string)) :
  length (update key value o) = length o.
Proof.
  induction o as [|[k v] o IH]; cbn [update length]; [reflexivity|].
  destruct (String.eqb k key); cbn [length]; [reflexivity | now rewrite IH].
Qed.

Lemma get_insert_index (n : Z) (key value k' : string)
    (o : list (string * string)) :
  get key o = None ->
  get k' (insert_index n key value o)
  = if String.eqb key k' then Some value else get k' o.
Proof.
  induction o as [|[k v] o IH]; intros Hnone; cbn [insert_index get].
  - reflexivity.
  - cbn [get] in Hnone. destruct (String.eqb k key) eqn:Hk; [discriminate|].
    destruct (array_index k) as [m|]; [destruct (m <? n)%Z|]; cbn [get];
      try reflexivity.
    destruct (String.eqb k k') eqn:Hk'.
    + apply String.eqb_eq in Hk'. subst k'.
      rewrite String.eqb_sym in Hk. now rewrite Hk.
    + now apply IH.
Qed.

Lemma length_insert_index (n : Z) (key value : string)
    (o : list (string * string)) :
  length (insert_index n key value o) = S (length o).
Proof.
  induction o as [|[k v] o IH]; cbn [insert_index length]; [reflexivity|].
  destruct (array_index k) as [m|]; [destruct (m <? n)%Z|]; cbn [length];
    try reflexivity.
  now rewrite IH.
Qed.

Lemma get_snoc (key value k' : string) (o : list (string * string)) :
  get key o = None ->
  get k' (o ++ [(key, value)])%list
  = if String.eqb key k' then Some value else get k' o.
Proof.
  induction o as [|[k v] o IH]; intros Hnone; cbn [app get]; [reflexivity|].
  cbn [get] in Hnone. destruct (String.eqb k key) eqn:Hk; [discriminate|].
  destruct (String.eqb k k') eqn:Hk'.
  - apply String.eqb_eq in Hk'. subst k'.
    rewrite String.eqb_sym in Hk. now rewrite Hk.
  - now apply IH.
Qed.

(** Every name but the assigned one reads as before. *)
Lemma get_assign_other (key value k' : string) (o : list (string * string)) :
  k' <> key -> get k' (assign key value o) = get k' o.
Proof.
  intros Hne. unfold assign. rewrite has_key_get.
  assert (Hkey : String.eqb key k' = false)
    by (apply String.eqb_neq; congruence).
  destruct (get key o) as [v|] eqn:Hget.
  - now apply get_update_other.
  - destruct (String.eqb key "__proto__"); [reflexivity|].
    destruct (array_index key) as [n|].
    + now rewrite get_insert_index, Hkey.
    + now rewrite get_snoc, Hkey.
Qed.

(** The assigned name reads as the value, unless it is a [__proto__]
    the object does not own. *)
Lemma get_assign_same (key value : string) (o : list (string * string)) :
  get key o <> None \/ key <> "__proto__" ->
  get key (assign key value o) = Some value.
Proof.
  intros Hok. unfold assign. rewrite has_key_get.
  destruct (get key o) as [v|] eqn:Hget.
  - apply get_update_same. congruence.
  - destruct Hok as [Hok | Hok]; [congruence|].
    apply String.eqb_neq in Hok. rewrite Hok.
    destruct (array_index key) as [n|].
    + now rewrite get_insert_index, String.eqb_refl.
    + now rewrite get_snoc, String.eqb_refl.
Qed.

Lemma length_assign (key value : string) (o : list (string * string)) :
  get key o <> None \/ key <> "__proto__" ->
  length (assign key value o)
  = match get key o with
    | Some _ => length o
    | None => S (length o)
    end.
Proof.
  intros Hok. unfold assign. rewrite has_key_get.
  destruct (get key o) as [v|] eqn:Hget.
  - apply length_update.
  - destruct Hok as [Hok | Hok]; [congruence|].
    apply String.eqb_neq in Hok. rewrite Hok.
    destruct (array_index key) as [n|].
    + apply length_insert_index.
    + rewrite List.length_app. cbn. lia.
Qed.

(** X4.  [package.dependencies[name] = version]: a manifest without a
    [dependencies] member makes the assignment fail.  Otherwise every
    other name reads as before and the other members are untouched.
    The name [__proto__], when the object does not own it, goes to the
    setter of [Object.prototype] and the object is unchanged; any
    other name, and an own [__proto__], then reads as the version (the
    last write wins), the number of entries growing by one only when
    the name was new; a new name that is no array index goes last. *)
Theorem set_dependency_last_write_wins (name version : string) (p : package) :
  match p.(dependencies) with
  | None => set_dependency name version p = None
  | Some deps =>
      exists deps',
        set_dependency name version p = Some (Package (Some deps') p.(members))
        /\ (forall k, k <> name -> get k deps' = get k deps)
        /\ (get name deps = None -> name = "__proto__" -> deps' = deps)
        /\ (get name deps <> None \/ name <> "__proto__" ->
            get name deps' = Some version
            /\ length deps' = match get name deps with
                              | Some _ => length deps
                              | None => S (length deps)
                              end)
        /\ (get name deps = None -> name <> "__proto__" ->
            array_index name = None -> deps' = deps ++ [(name, version)])%list
  end.
Proof.
  unfold set_dependency. destruct (dependencies p) as [deps|]; [|reflexivity].
  exists (assign name version deps). split; [reflexivity|].
  split; [|split; [|split]].
  - intros k Hk. now apply get_assign_other.
  - intros Hnone ->. unfold assign. rewrite has_key_get, Hnone. reflexivity.
  - intros Hok. split; [now apply get_assign_same | now apply length_assign].
  - intros Hnone Hne Hidx. unfold assign. rewrite has_key_get, Hnone.
    apply String.eqb_neq in Hne. now rewrite Hne, Hidx.
Qed.

End ParsingExtras.

(** ** The package enumerator *)

Module EnumeratorExtras.
Import JsString JsNumber Script Logic Coverage Reference Samples.
Local Open Scope list_scope.

Section Enumerator.
Context {F : Type} `{Double F} `{Json} {U8 : Utf8} (E : env).
Implicit Types w : world (F := F).

Lemma push_qualifiers_all (ds : list dirent) (qs : list string) w :
  Forall (fun d => d.(dir_manifest) <> None) ds ->
  push_qualifiers ds qs w = (Ret (qs ++ map qualifier_of ds), w).
Proof.
  intros Hds. revert qs. induction Hds as [|d ds Hd Hds IH]; intros qs.
  - cbn. now rewrite app_nil_r.
  - cbn [push_qualifiers map]. unfold qualifier_of at 1.
    destruct (dir_manifest d) as [[n v]|]; [|congruence].
    rewrite IH. now rewrite <- app_assoc.
Qed.

Lemma push_qualifiers_stops (ds1 ds2 : list dirent) (d : dirent)
    (qs : list string) w :
  Forall (fun d => d.(dir_manifest) <> None) ds1 ->
  d.(dir_manifest) = None ->
  push_qualifiers (ds1 ++ d :: ds2) qs w
  = (Throw ("Cannot find module ../../packages/" ++ d.(dir_name))%string, w).
Proof.
  intros Hds Hd. revert qs. induction Hds as [|d1 ds1 Hd1 Hds IH]; intros qs.
  - cbn. now rewrite Hd.
  - cbn [app push_qualifiers].
    destruct (dir_manifest d1) as [[n v]|]; [apply IH | congruence].
Qed.

(** X5.  When every package directory has a manifest,
    [getPackagesExtensions] answers one qualifier per directory of
    [../../packages] other than [core], in the order of the listing;
    entries that are not directories are skipped. *)
Theorem getPackagesExtensions_lists_directories (entries : list dirent) w :
  packages E = Some entries ->
  Forall (fun d => d.(dir_manifest) <> None) (package_directories entries) ->
  fst (getPackagesExtensions E w)
  = Ret (map qualifier_of (package_directories entries)).
Proof.
  intros Hp Hall. unfold getPackagesExtensions, bind, modify. rewrite Hp.
  fold (package_directories entries).
  now rewrite (push_qualifiers_all _ [] (tick w) Hall).
Qed.

(** X6.  The first package directory without a readable manifest
    makes [getPackagesExtensions] throw: no qualifier is answered, not
    even for the directories before it. *)
Theorem getPackagesExtensions_missing_manifest
    (entries ds1 ds2 : list dirent) (d : dirent) w :
  packages E = Some entries ->
  package_directories entries = ds1 ++ d :: ds2 ->
  Forall (fun d => d.(dir_manifest) <> None) ds1 ->
  d.(dir_manifest) = None ->
  fst (getPackagesExtensions E w)
  = Throw ("Cannot find module ../../packages/" ++ d.(dir_name))%string.
Proof.
  intros Hp Hsplit Hds Hd. unfold getPackagesExtensions, bind, modify.
  rewrite Hp. fold (package_directories entries). rewrite Hsplit.
  now rewrite (push_qualifiers_stops ds1 ds2 d [] (tick w) Hds Hd).
Qed.

End Enumerator.

Lemma getPackagesExtensions_lists_directories_witness :
  fst (getPackagesExtensions (F := string) (listing_env sample_listing)
         (init_world clean_disk))
  = Ret [qualifier_text "@theia/editor" "1.0.0";
         qualifier_text "@theia/git" "1.2.0"].
Proof.
  apply (getPackagesExtensions_lists_directories
           (listing_env sample_listing) sample_listing (init_world clean_disk)).
  - reflexivity.
  - repeat constructor; discriminate.
Defined.

Lemma getPackagesExtensions_missing_manifest_witness :
  fst (getPackagesExtensions (F := string)
         (listing_env (sample_listing ++ [Dirent "broken" true None]))
         (init_world clean_disk))
  = Throw "Cannot find module ../../packages/broken".
Proof.
  apply (getPackagesExtensions_missing_manifest
           (listing_env (sample_listing ++ [Dirent "broken" true None]))
           (sample_listing ++ [Dirent "broken" true None])
           [Dirent "editor" true (Some ("@theia/editor", "1.0.0"));
            Dirent "git" true (Some ("@theia/git", "1.2.0"))]
           [] (Dirent "broken" true None) (init_world clean_disk)).
  - reflexivity.
  - reflexivity.
  - repeat constructor; discriminate.
  - reflexivity.
Defined.

End EnumeratorExtras.

(** ** Supporting lemmas *)

Module CoverageFacts.
Import JsString JsNumber Script Logic Coverage ScriptFacts.
Local Open Scope list_scope.

Lemma main_events_app (a b : list event) :
  main_events (a ++ b) = main_events a ++ main_events b.
Proof.
  induction a as [|ev a IH]; cbn [app main_events]; [reflexivity|].
  destruct (is_main_event ev); cbn [app]; now rewrite IH.
Qed.

Section Facts.
Context {F : Type} `{Double F} `{Json} {U8 : Utf8} (E : env).

Abbreviation world := (@world F).
Implicit Types (P : world -> Prop) (w : world).

#[local] Abbreviation main_thread_idle := (Coverage.main_thread_idle (F := F)).

(** *** Rules for [triple] *)

Lemma triple_bind {A B} P (m : M A) Q (k : A -> M B) Q' X :
  triple P m Q X -> (forall a, triple (Q a) (k a) Q' X) ->
  triple P (bind m k) Q' X.
Proof.
  intros Hm Hk w Hw. unfold bind. specialize (Hm w Hw).
  destruct (m w) as [[a|e] w1]; [apply (Hk a w1 Hm) | exact Hm].
Qed.

Lemma triple_ret {A} P (a : A) (Q : A -> world -> Prop) X :
  (forall w, P w -> Q a w) -> triple P (ret a) Q X.
Proof. intros HQ w Hw. apply HQ, Hw. Qed.

Lemma triple_modify P f (Q : unit -> world -> Prop) X :
  (forall w, P w -> Q tt (f w)) -> triple P (modify f) Q X.
Proof. intros HQ w Hw. apply HQ, Hw. Qed.

Lemma triple_gets {A} P (f : world -> A) X :
  triple P (gets f) (fun a w => a = f w /\ P w) X.
Proof. intros w Hw. cbn. auto. Qed.

Lemma triple_weaken {A} P P' (m : M A) (Q Q' : A -> world -> Prop)
    (X X' : string -> world -> Prop) :
  triple P m Q X ->
  (forall w, P' w -> P w) -> (forall a w, Q a w -> Q' a w) ->
  (forall e w, X e w -> X' e w) ->
  triple P' m Q' X'.
Proof.
  intros Hm HP HQ HX w Hw. specialize (Hm w (HP w Hw)).
  destruct (m w) as [[a|e] w1]; auto.
Qed.

Lemma triple_pure {A} (phi : Prop) P (m : M A) Q X :
  (phi -> triple P m Q X) -> triple (fun w => phi /\ P w) m Q X.
Proof. intros Hm w [Hphi Hw]. now apply Hm. Qed.

Lemma triple_false {A} (m : @M F A) Q X : triple (fun _ => False) m Q X.
Proof. intros w []. Qed.

(** A [hoare] fact, read as a [triple] that forgets the error. *)
Lemma triple_of_hoare {A} P (m : M A) Q (X : world -> Prop) :
  hoare P m Q X -> triple P m Q (fun _ => X).
Proof. intros Hm w Hw. exact (Hm w Hw). Qed.

Lemma triple_and {A} P1 P2 (m : M A) Q1 Q2 X1 X2 :
  triple P1 m Q1 X1 -> triple P2 m Q2 X2 ->
  triple (fun w => P1 w /\ P2 w) m
    (fun a w => Q1 a w /\ Q2 a w) (fun e w => X1 e w /\ X2 e w).
Proof.
  intros H1 H2 w [Hw1 Hw2]. specialize (H1 w Hw1). specialize (H2 w Hw2).
  destruct (m w) as [[a|e] w1]; auto.
Qed.

(** *** The thread pool leaves the main thread alone *)

#[local] Instance disk_only_reflexive : Reflexive (disk_only (F := F)).
Proof. intros w. repeat split. Qed.

#[local] Instance disk_only_transitive : Transitive (disk_only (F := F)).
Proof.
  intros a b c (A1&A2&A3&A4&A5&A6&A7&A8) (B1&B2&B3&B4&B5&B6&B7&B8).
  repeat split; congruence.
Qed.

#[local] Instance main_thread_idle_refl : Reflexive main_thread_idle.
Proof. intros w. repeat split. Qed.

#[local] Instance main_thread_idle_trans : Transitive main_thread_idle.
Proof.
  intros a b c (A0 & A1 & A2 & A3 & A4) (B0 & B1 & B2 & B3 & B4).
  split; [etransitivity; eassumption|]. repeat split; congruence.
Qed.

Lemma land_idle (r : request) w : main_thread_idle w (land r w).
Proof.
  split; [apply disk_only_land|].
  destruct r as [id n src dst | n path [e|]]; cbn [land];
    [destruct (fs w !! src)|..]; cbn; repeat split;
    rewrite main_events_app; cbn; now rewrite app_nil_r.
Qed.

Lemma advance_idle (rs : list request) w :
  main_thread_idle w (snd (advance rs w)).
Proof.
  revert w; induction rs as [|r rs IH]; intros w; [reflexivity|].
  cbn [advance]. destruct (req_wait r).
  - etransitivity; [apply land_idle | apply IH].
  - specialize (IH w). destruct (advance rs w) as [keep w']. exact IH.
Qed.

Lemma tick_idle_main w : main_thread_idle w (tick w).
Proof.
  unfold tick.
  pose proof (advance_idle (pool w) (set_pool [] w)) as Ha.
  destruct (advance (pool w) (set_pool [] w)) as [keep w'].
  destruct Ha as ((A1&A2&A3&A4&A5&A6&A7&A8) & B1 & B2 & B3 & B4).
  repeat split; assumption.
Qed.

End Facts.
End CoverageFacts.

(** ** Start-up *)

Module StartupExtras.
Import JsString JsNumber Script Logic Coverage.
Import ScriptFacts NumberFacts CoverageFacts Reference Samples.
Local Open Scope list_scope.

Section Startup.
Context {F : Type} `{Double F} `{Json} {U8 : Utf8} (E : env).

Abbreviation world := (@world F).
Implicit Types (P : world -> Prop) (w : world) (args : argv (F := F)).

#[local] Abbreviation pristine := (Coverage.pristine (F := F)).
#[local] Abbreviation prepared := (Coverage.prepared (F := F)).
#[local] Abbreviation start_with := (Coverage.start_with (F := F)).
#[local] Abbreviation sweep_with := (Coverage.sweep_with (F := F)).

Ltac pristine_modify :=
  apply triple_modify; intros ? (?&?&?&?&?&?); repeat split; assumption.

Ltac pristine_ret :=
  apply triple_ret; intros ? (?&?&?&?&?&?); repeat split; assumption.

(** With accepted options the start-up function comes to
    [prepareWorkspace] with the world as it found it. *)
Lemma main_accepted args fs0 (Q : bool -> world -> Prop) X :
  runs_accepted args ->
  triple (pristine fs0 (wants_yarn args)) (sweep_start E) Q X ->
  triple (pristine fs0 false) (main E args) Q X.
Proof.
  intros Hacc Hsweep. unfold main.
  apply triple_bind with (Q := fun _ => pristine fs0 false); [| intros _].
  { destruct (arg_baseTime args) as [x|]; [|pristine_ret].
    destruct (num_truthy x); [pristine_modify | pristine_ret]. }
  apply triple_bind with (Q := fun _ => pristine fs0 false); [| intros _].
  { destruct (arg_extensions args); [pristine_modify | pristine_ret]. }
  apply triple_bind
    with (Q := fun rej w => rej = false /\ pristine fs0 false w);
    [| intros rejected].
  { unfold runs_accepted in Hacc.
    destruct (arg_runs args) as [z|]; [|apply triple_ret; auto].
    destruct (num_truthy z) eqn:Hz; cbn [negb]; [|apply triple_ret; auto].
    destruct Hacc as [Hf | Hz2]; [discriminate|].
    apply triple_bind with (Q := fun _ => pristine fs0 false);
      [pristine_modify | intros _].
    destruct (parseInt (num_toString z)) as [n|]; [|apply triple_ret; auto].
    assert (Hlt : (n <? 2)%Z = false) by (apply Z.ltb_ge; lia).
    rewrite Hlt. apply triple_ret. auto. }
  apply triple_pure. intros ->.
  apply triple_bind with (Q := fun _ => pristine fs0 (wants_yarn args));
    [| intros _].
  { unfold wants_yarn. destruct (arg_yarn args) as [[|]|].
    - apply triple_modify. intros ? (?&?&?&?&?&?). repeat split; assumption.
    - pristine_ret.
    - pristine_ret. }
  apply triple_bind with (Q := fun _ => pristine fs0 (wants_yarn args));
    [| intros _; exact Hsweep].
  destruct (arg_url args) as [u|]; [|pristine_ret].
  destruct (String.eqb u ""); [pristine_ret | pristine_modify].
Qed.

Lemma init_pristine fs0 : pristine fs0 false (init_world fs0).
Proof. repeat split. Qed.

(** X7.  When the live manifest does not exist, a run with accepted
    options stops in [prepareWorkspace]: [copyFileSync] throws, no file
    is created or changed, no command is run, nothing is printed. *)
Theorem missing_live_manifest_aborts args (fs0 : gmap string string) :
  fs0 !! live_path = None -> runs_accepted args ->
  let '(r, w') := main E args (init_world fs0) in
  r = Throw ("ENOENT: " ++ live_path)%string
  /\ w'.(fs) = fs0 /\ w'.(trace) = [] /\ w'.(stdout) = []
  /\ w'.(execs) = 0%nat.
Proof.
  intros Hlive Hacc.
  assert (Hm : triple (pristine fs0 false) (main E args)
                 (fun _ _ => False)
                 (fun e w => e = ("ENOENT: " ++ live_path)%string
                             /\ w.(fs) = fs0 /\ w.(trace) = []
                             /\ w.(stdout) = [] /\ w.(execs) = 0%nat)).
  { apply main_accepted; [exact Hacc|]. unfold sweep_start.
    apply triple_bind with (Q := fun _ _ => False);
      [| intros _; apply triple_false].
    intros w (Hf & Hp & Ht & Hs & He & Hy).
    unfold prepareWorkspace, bind, copyFileSync, tick. rewrite Hp. cbn.
    rewrite Hf, Hlive. cbn. repeat split; assumption. }
  specialize (Hm (init_world fs0) (init_pristine fs0)).
  destruct (main E args (init_world fs0)) as [[b|e] w']; [destruct Hm|].
  destruct Hm as (-> & Hm). exact (conj eq_refl Hm).
Qed.

(** X8.  When the first build fails, the run stops there: [execSync]
    throws, it was the only command run, the headline is not printed,
    and the backup made by [prepareWorkspace] is in place for the exit
    handler. *)
Theorem first_build_failure_aborts args (fs0 : gmap string string)
    (c : string) :
  fs0 !! live_path = Some c -> runs_accepted args ->
  exec_result E 0 = None ->
  let '(r, w') := main E args (init_world fs0) in
  r = Throw ("Command failed: " ++ first_build args)%string
  /\ w'.(execs) = 1%nat /\ w'.(stdout) = []
  /\ w'.(fs) !! backup_path = Some c.
Proof.
  intros Hlive Hacc Hfail.
  assert (Hm : triple (pristine fs0 false) (main E args)
                 (fun _ _ => False)
                 (fun e w => e = ("Command failed: " ++ first_build args)%string
                             /\ w.(execs) = 1%nat /\ w.(stdout) = []
                             /\ w.(fs) !! backup_path = Some c)).
  { apply main_accepted; [exact Hacc|]. unfold sweep_start.
    apply triple_bind with (Q := fun _ => prepared c (wants_yarn args));
      [| intros _].
    { intros w (Hf & Hp & Ht & Hs & He & Hy).
      unfold prepareWorkspace, bind, copyFileSync, tick. rewrite Hp. cbn.
      rewrite Hf, Hlive. cbn.
      unfold mkdirp, modify. cbn.
      repeat split; cbn; try assumption; [apply lookup_insert_eq|].
      repeat constructor; intros dst Hd; now inversion Hd. }
    apply triple_bind
      with (Q := fun y w => y = yarn w /\ prepared c (wants_yarn args) w);
      [apply triple_gets | intros y].
    apply triple_bind with (Q := fun _ _ => False);
      [| intros _; apply triple_false].
    intros w (-> & Hb & He & Hs & Hy). rewrite Hy. fold (first_build args).
    unfold execSync.
    destruct (tick_idle_main w) as ((_&_&_&_&_&Hs'&_) & _ & He' & _).
    destruct (tick_backup c w Hb) as [Hb' _].
    rewrite He', He, Hfail. cbn. repeat split; [congruence | exact Hb']. }
  specialize (Hm (init_world fs0) (init_pristine fs0)).
  destruct (main E args (init_world fs0)) as [[b|e] w']; [destruct Hm|].
  destruct Hm as (-> & Hm). exact (conj eq_refl Hm).
Qed.


(** *** The run count *)

Lemma start_with_stable r w w' :
  disk_only w w' -> start_with r w -> start_with r w'.
Proof.
  intros (Hr & _ & _ & _ & _ & Hs & He & _) (Hs0 & Hr0 & He0).
  repeat split; congruence.
Qed.

Lemma start_with_sweep r w : start_with r w -> sweep_with r w.
Proof. intros (Hs & Hr & He). repeat split; auto. Qed.

Lemma extensionImpact_with r exts :
  hoare (start_with r) (extensionImpact E exts)
    (fun _ => sweep_with r) (sweep_with r).
Proof.
  intros w (Hs & Hr & He). rewrite extensionImpact_headline.
  remember (set_stdout (w.(stdout) ++ [header w.(runs)]) w) as w1 eqn:Hw1.
  assert (Hs1 : w1.(stdout) = [header r])
    by (subst w1; cbn [stdout set_stdout]; now rewrite Hs, Hr).
  destruct (keeps_sweep_body E exts w1) as (Hr' & He' & rows & Hs').
  assert (Hend : sweep_with r (snd (sweep_body E exts w1))).
  { repeat split.
    - rewrite Hr'. now subst w1.
    - rewrite He'. now subst w1.
    - right. exists rows. now rewrite Hs', Hs1. }
  destruct (sweep_body E exts w1) as [[a|e] w2]; exact Hend.
Qed.

Ltac start_modify :=
  apply hoare_modify; intros ? (? & ? & ?); repeat split; assumption.

Ltac start_ret :=
  apply hoare_ret; intros ? (? & ? & ?); repeat split; assumption.

Ltac start_disk r :=
  eapply hoare_weaken;
  [ apply (hoare_keeps (disk_only (F := F)) (start_with r));
    [ first [apply (keeps_prepareWorkspace E) | apply (keeps_execSync E)]
    | apply start_with_stable ]
  | auto | cbn; auto | apply start_with_sweep ].

(** The run count is the integer [parseInt] reads in the text of
    [--runs] (2 for 2.5; 1, and so a rejection, for a value that
    prints as 1e+21).  When that integer is 2 or more, the start-up
    function does not take its early return and prints nothing on the
    error stream, [runs] holds the integer, and the headline of the
    sweep, once printed, announces it: as its decimal digits when it
    is no more than 2^53. *)
Lemma run_count_taken args (fs0 : gmap string string)
    (x : number F) (z : Z) :
  args.(arg_runs) = Some x -> num_truthy x = true ->
  parseInt (num_toString x) = Some z -> 2 <= z ->
  let '(r, w') := main E args (init_world fs0) in
  r <> Ret false
  /\ w'.(runs) = Some z
  /\ w'.(stderr) = []
  /\ (w'.(stdout) = []
      \/ exists rows, w'.(stdout) = header (Some z) :: rows)
  /\ (z <= 9007199254740992 -> runs_text (Some z) = int_toString z).
Proof.
  intros Hruns Htruthy Hparse Hz.
  assert (Hm : hoare (start_with (Some 10)) (main E args)
                 (fun started w => started = true /\ sweep_with (Some z) w)
                 (sweep_with (Some z))).
  { unfold main.
    apply hoare_bind with (Q := fun _ => start_with (Some 10)); [| intros _].
    { destruct (arg_baseTime args) as [b|]; [|start_ret].
      destruct (num_truthy b); [start_modify | start_ret]. }
    apply hoare_bind with (Q := fun _ => start_with (Some 10)); [| intros _].
    { destruct (arg_extensions args); [start_modify | start_ret]. }
    apply hoare_bind
      with (Q := fun rej w => rej = false /\ start_with (Some z) w);
      [| intros rejected].
    { rewrite Hruns, Htruthy. cbn [negb].
      assert (Hlt : (z <? 2)%Z = false) by (apply Z.ltb_ge; lia).
      rewrite Hparse, Hlt.
      apply hoare_bind with (Q := fun _ => start_with (Some z)); [| intros _].
      - apply hoare_modify. intros ? (? & ? & ?). repeat split; assumption.
      - apply hoare_ret. auto. }
    destruct rejected.
    { intros w [Habs _]. discriminate. }
    apply hoare_bind with (Q := fun _ => start_with (Some z)); [| intros _].
    { destruct (arg_yarn args) as [[|]|];
        apply hoare_modify || apply hoare_ret;
        intros ? [_ (? & ? & ?)]; repeat split; assumption. }
    apply hoare_bind with (Q := fun _ => start_with (Some z)); [| intros _].
    { destruct (arg_url args) as [u|]; [|start_ret].
      destruct (String.eqb u ""); [start_ret | start_modify]. }
    apply hoare_bind with (Q := fun _ => start_with (Some z)); [| intros _].
    { start_disk (Some z). }
    apply hoare_bind with (Q := fun _ => start_with (Some z));
      [apply hoare_gets | intros y].
    apply hoare_bind with (Q := fun _ => start_with (Some z)); [| intros _].
    { start_disk (Some z). }
    apply hoare_bind with (Q := fun _ => start_with (Some z));
      [apply hoare_gets | intros exts].
    apply hoare_bind with (Q := fun _ => sweep_with (Some z));
      [apply extensionImpact_with | intros _].
    apply hoare_ret. auto. }
  assert (Htext : z <= 9007199254740992 -> runs_text (Some z) = int_toString z).
  { intros Hle. apply toString_integer. lia. }
  specialize (Hm (init_world fs0)).
  destruct (main E args (init_world fs0)) as [[started|e] w'].
  - destruct Hm as [-> (Hr & He & Hs)]; [repeat split|].
    repeat split; [discriminate | exact Hr | exact He | exact Hs | exact Htext].
  - destruct Hm as (Hr & He & Hs); [repeat split|].
    repeat split; [discriminate | exact Hr | exact He | exact Hs | exact Htext].
Qed.


(** *** A supplied base time *)

#[local] Abbreviation keeps_base_time := (Coverage.keeps_base_time (F := F)).
#[local] Abbreviation provided_report := (Coverage.provided_report (F := F)).

#[local] Instance keeps_base_time_refl s : Reflexive (keeps_base_time s).
Proof. intros w Hb. split; [exact Hb|]. exists []. now rewrite app_nil_r. Qed.

#[local] Instance keeps_base_time_trans s : Transitive (keeps_base_time s).
Proof.
  intros a b c Hab Hbc Ha.
  destruct (Hab Ha) as (Hb & r1 & Hs1).
  destruct (Hbc Hb) as (Hc & r2 & Hs2).
  split; [exact Hc|]. exists (r1 ++ r2). rewrite Hs2, Hs1.
  now rewrite <- app_assoc.
Qed.

Lemma disk_only_base_time s w w' : disk_only w w' -> keeps_base_time s w w'.
Proof.
  intros (_ & Hb & _ & _ & _ & Hs & _) Hw. split; [congruence|].
  exists []. now rewrite app_nil_r.
Qed.

Lemma base_time_report s label output :
  keeps (keeps_base_time s) (report label output).
Proof.
  intros w Hb. unfold report.
  destruct (isNaN _ || isNaN _).
  - split; [exact Hb | now eexists].
  - unfold bind, gets. cbn. rewrite Hb. cbn.
    split; [exact Hb | now eexists].
Qed.

Lemma base_time_calculateExtension s q0 :
  keeps (keeps_base_time s) (calculateExtension E q0).
Proof.
  unfold calculateExtension.
  apply keeps_bind; [exact _ | | intros label].
  { eapply keeps_weaken; [apply disk_only_base_time | apply keeps_mutate]. }
  apply keeps_bind; [exact _ | apply keeps_gets; exact _ | intros r].
  apply keeps_bind; [exact _ | apply keeps_gets; exact _ | intros u].
  apply keeps_bind; [exact _ | | intros output; apply base_time_report].
  eapply keeps_weaken; [apply disk_only_base_time | apply keeps_execSync].
Qed.

Lemma base_time_sweep_loop s exts :
  keeps (keeps_base_time s) (sweep_loop E exts).
Proof.
  unfold sweep_loop.
  apply keeps_bind; [exact _ | | intros exts'].
  { destruct (length exts <? 1)%nat; [|apply keeps_ret; exact _].
    eapply keeps_weaken; [apply disk_only_base_time|].
    apply keeps_getPackagesExtensions. }
  induction exts' as [|e rest IH]; cbn [trial_loop].
  - apply keeps_ret; exact _.
  - apply keeps_bind;
      [exact _ | apply base_time_calculateExtension | intros _].
    apply keeps_bind; [exact _ | | intros _; exact IH].
    eapply keeps_weaken;
      [apply disk_only_base_time | apply keeps_copyBasePackage].
Qed.

Lemma extensionImpact_provided s exts w :
  w.(baseTime) = BString s ->
  extensionImpact E exts w
  = sweep_loop E exts
      (set_stdout ((w.(stdout) ++ [header w.(runs)]) ++ [provided_row s]) w).
Proof.
  intros Hb. unfold extensionImpact, sweep_loop, bind at 1 2 3 4, gets.
  cbn. rewrite Hb. reflexivity.
Qed.

#[local] Abbreviation base_start := (Coverage.base_start (F := F)).
#[local] Abbreviation base_time_kept := (Coverage.base_time_kept (F := F)).

Lemma base_start_stable s w w' :
  disk_only w w' -> base_start s w -> base_start s w'.
Proof.
  intros (_ & Hb & _ & _ & _ & Hs & _) [Hs0 Hb0]. split; congruence.
Qed.

Lemma extensionImpact_base s exts :
  hoare (base_start s) (extensionImpact E exts)
    (fun _ => provided_report s) (provided_report s).
Proof.
  intros w [Hs Hb]. rewrite (extensionImpact_provided s exts w Hb).
  remember (set_stdout _ w) as w1 eqn:Hw1.
  assert (Hs1 : w1.(stdout) = [header w.(runs); provided_row s])
    by (subst w1; cbn [stdout set_stdout]; now rewrite Hs).
  assert (Hb1 : w1.(baseTime) = BString s) by now subst w1.
  destruct (base_time_sweep_loop s exts w1 Hb1) as (Hb' & rows & Hs').
  assert (Hend : provided_report s (snd (sweep_loop E exts w1))).
  { split; [exact Hb'|]. exists w.(runs), rows. now rewrite Hs', Hs1. }
  destruct (sweep_loop E exts w1) as [[a|e] w2]; exact Hend.
Qed.

Ltac base_modify :=
  apply hoare_modify; intros ? [? ?]; split; assumption.

Ltac base_ret :=
  apply hoare_ret; intros ? [? ?]; split; assumption.

Ltac base_disk s :=
  eapply hoare_weaken;
  [ apply (hoare_keeps (disk_only (F := F)) (base_start s));
    [ first [apply (keeps_prepareWorkspace E) | apply (keeps_execSync E)]
    | apply base_start_stable ]
  | auto | cbn; auto
  | intros ? [? ?]; split; [assumption | left; assumption] ].

(** A base time supplied on the command line (and not zero or [NaN])
    is kept as the string [toFixed(3)] makes of it for the whole run,
    however the run ends: no measured mean ever replaces it, and the
    console holds nothing or the headline, the line
    [Base Theia (provided)] with that string, and rows. *)
Lemma base_time_kept_in_any_run args (fs0 : gmap string string)
    (x : number F) :
  args.(arg_baseTime) = Some x -> num_truthy x = true ->
  let s := toFixed (parseFloat (num_toString x)) in
  let w' := snd (main E args (init_world fs0)) in
  w'.(baseTime) = BString s
  /\ (w'.(stdout) = []
      \/ exists r rows, w'.(stdout) = header r :: provided_row s :: rows).
Proof.
  intros Hbase Htruthy s w'.
  assert (Hm : hoare (fun w => w.(stdout) = []) (main E args)
                 (fun _ => base_time_kept s) (base_time_kept s)).
  { unfold main. rewrite Hbase, Htruthy. fold s.
    apply hoare_bind with (Q := fun _ => base_start s); [| intros _].
    { apply hoare_modify. intros w Hs. split; [exact Hs | reflexivity]. }
    apply hoare_bind with (Q := fun _ => base_start s); [| intros _].
    { destruct (arg_extensions args); [base_modify | base_ret]. }
    apply hoare_bind with (Q := fun _ => base_start s); [| intros rejected].
    { destruct (arg_runs args) as [xr|]; [|base_ret].
      destruct (num_truthy xr); cbn [negb]; [|base_ret].
      apply hoare_bind with (Q := fun _ => base_start s);
        [base_modify | intros _].
      destruct (parseInt (num_toString xr)) as [n|]; [|base_ret].
      destruct (n <? 2)%Z; [|base_ret].
      apply hoare_bind with (Q := fun _ => base_start s);
        [base_modify | intros _].
      base_ret. }
    destruct rejected.
    { apply hoare_ret. intros w [Hs Hb].
      split; [exact Hb | left; exact Hs]. }
    apply hoare_bind with (Q := fun _ => base_start s); [| intros _].
    { destruct (arg_yarn args) as [[|]|]; [base_modify | base_ret | base_ret]. }
    apply hoare_bind with (Q := fun _ => base_start s); [| intros _].
    { destruct (arg_url args) as [u|]; [|base_ret].
      destruct (String.eqb u ""); [base_ret | base_modify]. }
    apply hoare_bind with (Q := fun _ => base_start s); [| intros _].
    { base_disk s. }
    apply hoare_bind with (Q := fun _ => base_start s);
      [apply hoare_gets | intros y].
    apply hoare_bind with (Q := fun _ => base_start s); [| intros _].
    { base_disk s. }
    apply hoare_bind with (Q := fun _ => base_start s);
      [apply hoare_gets | intros exts].
    apply hoare_bind with (Q := fun _ => provided_report s); [| intros _].
    { eapply hoare_weaken; [apply (extensionImpact_base s) | auto | auto |].
      intros w [Hb Hs]. split; [exact Hb | right; exact Hs]. }
    apply hoare_ret. intros w [Hb Hs]. split; [exact Hb | right; exact Hs]. }
  specialize (Hm (init_world fs0) eq_refl). subst w'.
  destruct (main E args (init_world fs0)) as [[b|e] w1]; exact Hm.
Qed.

End Startup.

Lemma missing_live_manifest_aborts_witness :
  let '(r, w') := main calm (with_runs 3) (init_world disk_without_live) in
  r = Throw ("ENOENT: " ++ live_path)%string
  /\ w'.(fs) = disk_without_live /\ w'.(trace) = [] /\ w'.(stdout) = []
  /\ w'.(execs) = 0%nat.
Proof.
  apply (missing_live_manifest_aborts calm (with_runs 3) disk_without_live).
  - reflexivity.
  - right. now vm_compute.
Defined.

Lemma first_build_failure_aborts_witness :
  let '(r, w') := main failing_build (with_extensions two_extensions)
                    (init_world clean_disk) in
  r = Throw "Command failed: yarn browser build"
  /\ w'.(execs) = 1%nat /\ w'.(stdout) = []
  /\ w'.(fs) !! backup_path = Some original_text.
Proof.
  apply (first_build_failure_aborts failing_build
           (with_extensions two_extensions) clean_disk original_text).
  - reflexivity.
  - exact I.
  - reflexivity.
Defined.

End StartupExtras.

(** ** The workspace: which files a run touches *)

Module FileExtras.
Import JsString JsNumber Script Logic Coverage.
Import ScriptFacts CoverageFacts Reference Samples.
Local Open Scope list_scope.

Section OtherFiles.
Context {F : Type} `{Double F} `{Json} {U8 : Utf8} (E : env).
Context (path : string).
Hypothesis not_live : path <> live_path.
Hypothesis not_backup : path <> backup_path.

Abbreviation world := (@world F).
Implicit Types (w : world).

#[local] Abbreviation pool_to_live := (Coverage.pool_to_live (F := F)).
#[local] Abbreviation keeps_file := (Coverage.keeps_file (F := F) path).

#[local] Abbreviation made_no_other := (Coverage.made_no_other (F := F)).

Lemma made_no_other_same w w' : w'.(dirs) = w.(dirs) -> made_no_other w w'.
Proof. intros Hd d Hin. left. now rewrite <- Hd. Qed.

Lemma made_no_other_trans a b c :
  made_no_other a b -> made_no_other b c -> made_no_other a c.
Proof.
  intros Hab Hbc d Hin. destruct (Hbc d Hin) as [Hb | ->]; [|now right].
  now apply Hab.
Qed.

#[local] Instance keeps_file_refl : Reflexive keeps_file.
Proof.
  intros w Hw. split; [exact Hw|]. split; [reflexivity|].
  now apply made_no_other_same.
Qed.

#[local] Instance keeps_file_trans : Transitive keeps_file.
Proof.
  intros a b c Hab Hbc Ha. destruct (Hab Ha) as (Hb & Hfb & Hdb).
  destruct (Hbc Hb) as (Hc & Hfc & Hdc).
  split; [exact Hc|]. split; [congruence|].
  now apply made_no_other_trans with (b := b).
Qed.

Lemma same_disk_file w w' :
  w'.(fs) = w.(fs) -> w'.(pool) = w.(pool) -> w'.(dirs) = w.(dirs) ->
  keeps_file w w'.
Proof.
  intros Hf Hp Hd Hw. unfold Coverage.pool_to_live in *.
  rewrite Hf, Hp. split; [exact Hw|]. split; [reflexivity|].
  now apply made_no_other_same.
Qed.

Lemma land_file (r : request) w :
  targets_workspace r ->
  (land r w).(fs) !! path = w.(fs) !! path
  /\ (land r w).(pool) = w.(pool)
  /\ made_no_other w (land r w).
Proof.
  intros Hd. destruct r as [id n src dst | n p [e|]]; cbn in Hd; subst;
    cbn [land].
  - destruct (fs w !! src) as [text|]; cbn.
    + split; [now apply lookup_insert_ne|].
      split; [reflexivity | now apply made_no_other_same].
    + split; [reflexivity|].
      split; [reflexivity | now apply made_no_other_same].
  - split; [reflexivity|].
    split; [reflexivity | now apply made_no_other_same].
  - split; [reflexivity|]. split; [reflexivity|].
    intros d Hin. cbn in Hin. apply in_app_or in Hin as [Hin | [<- | []]];
      [now left | now right].
Qed.

Lemma targets_workspace_set_wait n r :
  targets_workspace r -> targets_workspace (set_wait n r).
Proof. destruct r; exact (fun Hr => Hr). Qed.

Lemma advance_file (rs : list request) w :
  Forall targets_workspace rs ->
  Forall targets_workspace (fst (advance rs w))
  /\ (snd (advance rs w)).(fs) !! path = w.(fs) !! path
  /\ (snd (advance rs w)).(pool) = w.(pool)
  /\ made_no_other w (snd (advance rs w)).
Proof.
  intros Hrs. revert w. induction Hrs as [|r rs Hr Hrs IH]; intros w.
  - cbn. repeat split; auto. now apply made_no_other_same.
  - cbn [advance]. destruct (req_wait r) as [|n].
    + destruct (land_file r w Hr) as (Hf & Hp & Hd).
      destruct (IH (land r w)) as (Hk & Hf' & Hp' & Hd').
      repeat split; [exact Hk | congruence | congruence |].
      now apply made_no_other_trans with (b := land r w).
    + destruct (IH w) as (Hk & Hf & Hp & Hd).
      destruct (advance rs w) as [keep w']. cbn in *.
      repeat split;
        [constructor; [now apply targets_workspace_set_wait | exact Hk]
        | exact Hf | exact Hp | exact Hd].
Qed.

Lemma tick_file w : keeps_file w (tick w).
Proof.
  intros Hp. unfold tick.
  destruct (advance_file (pool w) (set_pool [] w) Hp) as (Hk & Hf & _ & Hd).
  destruct (advance (pool w) (set_pool [] w)) as [keep w'].
  split; [exact Hk|]. split; [exact Hf | exact Hd].
Qed.

Lemma drain_file w : keeps_file w (drain w).
Proof.
  intros Hp. unfold drain.
  assert (Hfold : forall rs w0,
            Forall targets_workspace rs ->
            let w1 := fold_left (fun acc r => land r acc) rs w0 in
            w1.(fs) !! path = w0.(fs) !! path /\ w1.(pool) = w0.(pool)
            /\ made_no_other w0 w1).
  { intros rs w0 Hrs. revert w0.
    induction Hrs as [|r rs Hr Hrs IH]; intros w0.
    - cbn. repeat split. now apply made_no_other_same.
    - cbn [fold_left]. destruct (land_file r w0 Hr) as (Hf1 & Hp1 & Hd1).
      destruct (IH (land r w0)) as (Hf2 & Hp2 & Hd2).
      split; [congruence|]. split; [congruence|].
      now apply made_no_other_trans with (b := land r w0). }
  destruct (Hfold (pool w) (set_pool [] w) Hp) as (Hf & Hq & Hd).
  split; [|split; [exact Hf | exact Hd]].
  unfold Coverage.pool_to_live. cbn. cbn in Hq. rewrite Hq. constructor.
Qed.

Lemma file_modify (f : world -> world) :
  (forall w, (f w).(fs) = w.(fs) /\ (f w).(pool) = w.(pool)
             /\ (f w).(dirs) = w.(dirs)) ->
  keeps keeps_file (modify f).
Proof. intros Hf w. destruct (Hf w) as (? & ? & ?). now apply same_disk_file. Qed.

(** A step that follows [tick] and then only changes files other than
    [path]. *)
Lemma after_tick_file w w' :
  (tick w).(pool) = w'.(pool) -> (tick w).(dirs) = w'.(dirs) ->
  w'.(fs) !! path = (tick w).(fs) !! path ->
  keeps_file w w'.
Proof.
  intros Hp Hd Hf Hw. destruct (tick_file w Hw) as (Hp' & Hf' & Hd').
  unfold Coverage.pool_to_live in *. rewrite <- Hp.
  split; [exact Hp'|]. split; [congruence|].
  intros d Hin. apply Hd'. now rewrite Hd.
Qed.

Lemma file_copyFileSync src dst :
  dst <> path -> keeps keeps_file (copyFileSync src dst).
Proof.
  intros Hd w. unfold copyFileSync. destruct (fs (tick w) !! src).
  - apply after_tick_file; cbn; try reflexivity. now rewrite lookup_insert_ne.
  - apply tick_file.
Qed.

Lemma file_unlinkSync p : p <> path -> keeps keeps_file (unlinkSync p).
Proof.
  intros Hd w. unfold unlinkSync. destruct (fs (tick w) !! p).
  - apply after_tick_file; cbn; try reflexivity. now rewrite lookup_delete_ne.
  - apply tick_file.
Qed.

Lemma file_writeFileSync p data :
  p <> path -> keeps keeps_file (writeFileSync p data).
Proof.
  intros Hd w. unfold writeFileSync.
  apply after_tick_file; cbn; try reflexivity. now rewrite lookup_insert_ne.
Qed.

Lemma file_copyBasePackage : keeps keeps_file (copyBasePackage E).
Proof.
  intros w Hp. unfold copyBasePackage, copyFile, modify.
  split; cbn; [|split; [reflexivity | now apply made_no_other_same]].
  apply Forall_app. split; [exact Hp|].
  constructor; [reflexivity | constructor].
Qed.

Lemma file_execSync cmd : keeps keeps_file (execSync E cmd).
Proof.
  intros w. unfold execSync.
  destruct (exec_result E _); apply after_tick_file; reflexivity.
Qed.

Lemma file_require_live : keeps keeps_file require_live.
Proof.
  intros w. unfold require_live. destruct (cache w); [reflexivity|].
  destruct (fs (tick w) !! live_path) as [text|]; [|apply tick_file].
  destruct (JSON_parse text); [|apply tick_file].
  apply after_tick_file; reflexivity.
Qed.

Lemma file_console_log line : keeps keeps_file (console_log line).
Proof. apply file_modify. intros w. repeat split; reflexivity. Qed.

Lemma file_mkdirp : keeps keeps_file (mkdirp E no_plugins_path).
Proof.
  intros w Hp. unfold mkdirp, modify.
  split; cbn; [|split; [reflexivity | now apply made_no_other_same]].
  apply Forall_app. split; [exact Hp|].
  constructor; [reflexivity | constructor].
Qed.

Lemma file_getPackagesExtensions : keeps keeps_file (getPackagesExtensions E).
Proof.
  unfold getPackagesExtensions.
  apply keeps_bind; [exact _ | | intros _].
  { intros w. apply tick_file. }
  destruct (packages E) as [entries|]; [|apply keeps_throw; exact _].
  generalize (@nil string).
  induction (filter _ (filter _ entries)) as [|d ds IH]; intros qs;
    cbn [push_qualifiers].
  - apply keeps_ret; exact _.
  - destruct (dir_manifest d) as [[n v]|]; [apply IH|].
    apply keeps_throw; exact _.
Qed.

Lemma file_mutate q0 : keeps keeps_file (mutate E q0).
Proof.
  unfold mutate. destruct q0 as [eq|]; [|apply keeps_ret; exact _].
  destruct (parse_qualifier eq) as [name version].
  apply keeps_bind; [exact _ | apply file_require_live | intros p].
  destruct (set_dependency name version p); [|apply keeps_throw; exact _].
  apply keeps_bind; [exact _ | | intros _].
  { apply file_modify. intros w. repeat split; reflexivity. }
  apply keeps_bind; [exact _ | | intros _].
  { apply file_writeFileSync. congruence. }
  apply keeps_bind; [exact _ | apply file_execSync | intros _].
  apply keeps_ret; exact _.
Qed.

Lemma file_report label output : keeps keeps_file (report label output).
Proof.
  unfold report.
  destruct (isNaN _ || isNaN _); [apply file_console_log|].
  apply keeps_bind; [exact _ | apply keeps_gets; exact _ | intros b].
  apply keeps_bind; [exact _ | | intros diff; apply file_console_log].
  destruct b; try (apply keeps_ret; exact _).
  apply keeps_bind; [exact _ | | intros _; apply keeps_ret; exact _].
  apply file_modify. intros w. repeat split; reflexivity.
Qed.

Lemma file_calculateExtension q0 : keeps keeps_file (calculateExtension E q0).
Proof.
  unfold calculateExtension.
  apply keeps_bind; [exact _ | apply file_mutate | intros label].
  apply keeps_bind; [exact _ | apply keeps_gets; exact _ | intros r].
  apply keeps_bind; [exact _ | apply keeps_gets; exact _ | intros u].
  apply keeps_bind; [exact _ | apply file_execSync | intros output].
  apply file_report.
Qed.

Lemma file_trial_loop exts : keeps keeps_file (trial_loop E exts).
Proof.
  induction exts as [|e rest IH]; cbn [trial_loop].
  - apply keeps_ret; exact _.
  - apply keeps_bind; [exact _ | apply file_calculateExtension | intros _].
    apply keeps_bind; [exact _ | apply file_copyBasePackage | intros _].
    exact IH.
Qed.

Lemma file_extensionImpact exts : keeps keeps_file (extensionImpact E exts).
Proof.
  unfold extensionImpact.
  apply keeps_bind; [exact _ | apply keeps_gets; exact _ | intros r].
  apply keeps_bind; [exact _ | apply file_console_log | intros _].
  apply keeps_bind; [exact _ | apply keeps_gets; exact _ | intros b].
  apply keeps_bind; [exact _ | | intros _].
  { destruct b; try apply file_console_log.
    apply keeps_unawaited; try exact _.
    - intros w v. now apply same_disk_file.
    - apply file_calculateExtension. }
  apply keeps_bind; [exact _ | | intros exts'; apply file_trial_loop].
  destruct (length exts <? 1)%nat.
  - apply file_getPackagesExtensions.
  - apply keeps_ret; exact _.
Qed.

Lemma file_prepareWorkspace : keeps keeps_file (prepareWorkspace E).
Proof.
  unfold prepareWorkspace.
  apply keeps_bind; [exact _ | | intros _].
  { apply file_copyFileSync. congruence. }
  apply keeps_bind; [exact _ | apply file_copyBasePackage | intros _].
  apply file_mkdirp.
Qed.

Lemma file_cleanWorkspace : keeps keeps_file cleanWorkspace.
Proof.
  unfold cleanWorkspace.
  apply keeps_bind; [exact _ | | intros _].
  { apply file_copyFileSync. congruence. }
  apply file_unlinkSync. congruence.
Qed.

Ltac file_setter := apply file_modify; intros ?; repeat split; reflexivity.

Lemma file_main args : keeps keeps_file (main E args).
Proof.
  unfold main.
  apply keeps_bind; [exact _ | | intros _].
  { destruct (arg_baseTime args) as [x|]; [|apply keeps_ret; exact _].
    destruct (num_truthy x); [file_setter | apply keeps_ret; exact _]. }
  apply keeps_bind; [exact _ | | intros _].
  { destruct (arg_extensions args); [file_setter | apply keeps_ret; exact _]. }
  apply keeps_bind; [exact _ | | intros rejected].
  { destruct (arg_runs args) as [x|]; [|apply keeps_ret; exact _].
    destruct (num_truthy x); cbn [negb]; [|apply keeps_ret; exact _].
    apply keeps_bind; [exact _ | file_setter | intros _].
    destruct (parseInt (num_toString x)) as [n|]; [|apply keeps_ret; exact _].
    destruct (n <? 2)%Z; [|apply keeps_ret; exact _].
    apply keeps_bind; [exact _ | file_setter | intros _].
    apply keeps_ret; exact _. }
  destruct rejected; [apply keeps_ret; exact _|].
  apply keeps_bind; [exact _ | | intros _].
  { destruct (arg_yarn args) as [[|]|];
      [file_setter | apply keeps_ret; exact _ | apply keeps_ret; exact _]. }
  apply keeps_bind; [exact _ | | intros _].
  { destruct (arg_url args) as [u|]; [|apply keeps_ret; exact _].
    destruct (String.eqb u ""); [apply keeps_ret; exact _ | file_setter]. }
  apply keeps_bind; [exact _ | apply file_prepareWorkspace | intros _].
  apply keeps_bind; [exact _ | apply keeps_gets; exact _ | intros y].
  apply keeps_bind; [exact _ | apply file_execSync | intros _].
  apply keeps_bind; [exact _ | apply keeps_gets; exact _ | intros exts].
  apply keeps_bind; [exact _ | apply file_extensionImpact | intros _].
  apply keeps_ret; exact _.
Qed.

Lemma file_on_exit code w : keeps_file w (fst (on_exit code w)).
Proof.
  unfold on_exit. pose proof (file_cleanWorkspace w) as Hc.
  destruct (cleanWorkspace w) as [r w']. cbn in *.
  etransitivity; [exact Hc | now apply same_disk_file].
Qed.

Lemma file_on_drained w : keeps_file w (fst (on_drained E w)).
Proof.
  unfold on_drained. pose proof (file_cleanWorkspace w) as Hc.
  destruct (cleanWorkspace w) as [[a|e] w']; cbn in *;
    (etransitivity; [exact Hc | now apply same_disk_file]).
Qed.

Lemma file_on_sigint w : keeps_file w (fst (on_sigint E w)).
Proof.
  unfold on_sigint. pose proof (file_cleanWorkspace w) as Hc.
  destruct (cleanWorkspace w) as [[a|e] w']; cbn in Hc.
  - etransitivity; [exact Hc | apply file_on_exit].
  - etransitivity; [exact Hc|].
    etransitivity; [apply (same_disk_file w' (set_unhandled
                             (unhandled w' ++ [e]) w')); reflexivity|].
    destruct (rejections_fatal E).
    + apply file_on_exit.
    + etransitivity; [apply drain_file | apply file_on_drained].
Qed.

(** X11.  The script itself (what the commands it runs do to the
    disk is no part of the world) only ever writes the live manifest
    and the backup file and makes no directory but [../../noPlugins]:
    every other file, the base manifest among them, is at exit what
    it was before the run, however the run ends and whenever the
    thread pool carries out its requests. *)
Theorem other_files_untouched args (fs0 : gmap string string) :
  let w := fst (run E args fs0) in
  w.(fs) !! path = fs0 !! path
  /\ forall d, In d w.(dirs) -> d = no_plugins_path.
Proof.
  assert (Hinit : pool_to_live (init_world fs0)) by constructor.
  unfold run. pose proof (file_main args (init_world fs0)) as Hm.
  destruct (main E args (init_world fs0)) as [r w]. cbn in Hm.
  set (w1 := match r with Throw e => _ | Ret _ => w end).
  assert (Hw1 : keeps_file (init_world fs0) w1).
  { subst w1. destruct r; [exact Hm|].
    etransitivity; [exact Hm | now apply same_disk_file]. }
  assert (Hend : forall w2, keeps_file w1 w2 ->
            w2.(fs) !! path = fs0 !! path
            /\ forall d, In d w2.(dirs) -> d = no_plugins_path).
  { intros w2 H2. assert (H02 : keeps_file (init_world fs0) w2)
      by (etransitivity; eassumption).
    destruct (H02 Hinit) as (_ & Hf & Hd). split; [exact Hf|].
    intros d Hin. now destruct (Hd d Hin) as [[] | ->]. }
  destruct (unhandled w1); destruct (rejections_fatal E);
    destruct (sigint E); apply Hend;
    first [ apply file_on_sigint
          | apply file_on_exit
          | etransitivity; [apply drain_file | apply file_on_drained] ].
Qed.

End OtherFiles.

Lemma other_files_untouched_witness :
  let w := fst (run (F := string) late_reset (with_extensions two_extensions)
                  clean_disk) in
  w.(fs) !! base_path = clean_disk !! base_path
  /\ forall d, In d w.(dirs) -> d = no_plugins_path.
Proof.
  apply (other_files_untouched late_reset base_path); discriminate.
Defined.

Section Cleanup.
Context {F : Type} `{Double F} `{Json} {U8 : Utf8} (E : env).

Abbreviation world := (@world F).
Implicit Types (w : world).

Lemma tick_rest w : w.(pool) = [] -> (tick w).(fs) = w.(fs) /\ (tick w).(pool) = [].
Proof. intros Hp. unfold tick. rewrite Hp. split; reflexivity. Qed.

(** X12.  [cleanWorkspace] works once: with the backup in place (and
    the thread pool at rest) it returns, the live manifest holds the
    content of the backup and the backup is gone; called again, it
    throws the error of [copyFileSync] and changes no file. *)
Theorem cleanup_works_once (c : string) w :
  w.(fs) !! backup_path = Some c -> w.(pool) = [] ->
  let '(r1, w1) := cleanWorkspace w in
  let '(r2, w2) := cleanWorkspace w1 in
  r1 = Ret tt
  /\ w1.(fs) !! live_path = Some c /\ w1.(fs) !! backup_path = None
  /\ r2 = Throw ("ENOENT: " ++ backup_path)%string
  /\ w2.(fs) = w1.(fs).
Proof.
  intros Hb Hp. destruct (tick_rest w Hp) as [Hf Hq].
  unfold cleanWorkspace at 1. unfold bind, copyFileSync. rewrite Hf, Hb.
  set (wa := log_event _ _).
  assert (Hpa : wa.(pool) = []) by (subst wa; exact Hq).
  assert (Hfa : wa.(fs) = <[live_path := c]> (fs w)) by now subst wa.
  destruct (tick_rest wa Hpa) as [Hf1 Hq1].
  unfold unlinkSync. rewrite Hf1, Hfa.
  rewrite lookup_insert_ne by apply live_is_not_backup. rewrite Hb.
  set (w1 := log_event _ _).
  assert (Hp1 : w1.(pool) = []) by (subst w1; exact Hq1).
  assert (Hfs1 : w1.(fs) = delete backup_path (<[live_path := c]> (fs w)))
    by now subst w1.
  assert (Hnone : w1.(fs) !! backup_path = None)
    by (rewrite Hfs1; apply lookup_delete_eq).
  destruct (tick_rest w1 Hp1) as [Hf2 Hq2].
  unfold cleanWorkspace, bind, copyFileSync. rewrite Hf2, Hnone.
  repeat split; try assumption.
  rewrite Hfs1. rewrite lookup_delete_ne
    by (intros Heq; now apply live_is_not_backup).
  apply lookup_insert_eq.
Qed.

End Cleanup.

Lemma cleanup_works_once_witness :
  let '(r1, w1) := cleanWorkspace (F := string)
                     (init_world disk_with_leftover) in
  let '(r2, w2) := cleanWorkspace w1 in
  r1 = Ret tt
  /\ w1.(fs) !! live_path = Some (print_package base_package)
  /\ w1.(fs) !! backup_path = None
  /\ r2 = Throw ("ENOENT: " ++ backup_path)%string
  /\ w2.(fs) = w1.(fs).
Proof.
  apply (cleanup_works_once (print_package base_package)
           (init_world disk_with_leftover)); reflexivity.
Defined.

End FileExtras.

(** ** The loop over the extensions *)

Module SweepExtras.
Import JsString JsNumber Script Logic Coverage.
Import ScriptFacts CoverageFacts Reference Samples.
Local Open Scope list_scope.

Section Sweep.
Context {F : Type} `{Double F} `{Json} {U8 : Utf8} (E : env).

Abbreviation world := (@world F).
Implicit Types (w : world) (p : package).

#[local] Abbreviation progress := (Coverage.progress (F := F)).
#[local] Abbreviation manifest_ready := (Coverage.manifest_ready (F := F)).

Lemma bind_ret_eq {A B} (m : M A) (k : A -> M B) w (a : A) w1 :
  m w = (Ret a, w1) -> bind m k w = k a w1.
Proof. intros Hm. unfold bind. now rewrite Hm. Qed.

Lemma bind_gets_eq {A B} (f : world -> A) (k : A -> M B) w :
  bind (gets f) k w = k (f w) w.
Proof. reflexivity. Qed.

Lemma progress_refl w : progress 0 0 0 [] w w.
Proof.
  unfold Coverage.progress. rewrite app_nil_r. repeat split; lia.
Qed.

Lemma progress_trans de dc rows evs de' dc' rows' evs' w w1 w2 :
  progress de dc rows evs w w1 -> progress de' dc' rows' evs' w1 w2 ->
  progress (de + de') (dc + dc') (rows + rows') (evs ++ evs') w w2.
Proof.
  intros (A1&A2&A3&A4&A5&A6&A7&A8) (B1&B2&B3&B4&B5&B6&B7&B8).
  unfold Coverage.progress. rewrite B8, A8, <- app_assoc.
  repeat split; try congruence; lia.
Qed.

Lemma tick_progress w :
  progress 0 0 0 [] w (tick w) /\ (tick w).(cache) = w.(cache).
Proof.
  destruct (tick_idle_main w) as ((R1&_&_&_&R5&R6&R7&R8) & C & Ex & Co & Me).
  split; [|exact C]. unfold Coverage.progress. rewrite app_nil_r.
  repeat split; try congruence; try lia. now rewrite R6.
Qed.

(** Closes a [progress] goal about a world built on [tick w]. *)
Ltac after_tick w :=
  let R1 := fresh in let R2 := fresh in let R3 := fresh in
  let R4 := fresh in let R5 := fresh in let R6 := fresh in
  let R7 := fresh in let R8 := fresh in let C := fresh in
  destruct (tick_progress w) as ((R1&R2&R3&R4&R5&R6&R7&R8) & C);
  rewrite app_nil_r in R8;
  unfold Coverage.progress; cbn;
  rewrite ?main_events_app; cbn;
  rewrite ?length_app; cbn;
  rewrite ?app_nil_r;
  repeat split; try congruence; try lia.

Lemma require_spec p w :
  manifest_ready p w ->
  exists w1, require_live w = (Ret p, w1)
             /\ progress 0 0 0 [] w w1 /\ w1.(cache) = Some p.
Proof.
  intros [Hc | (Hc & Hp & text & Hf & Hparse)]; unfold require_live;
    rewrite Hc.
  - exists w. split; [reflexivity|].
    split; [apply progress_refl | exact Hc].
  - assert (Hfs : (tick w).(fs) = w.(fs))
      by (unfold tick; now rewrite Hp).
    rewrite Hfs, Hf, Hparse. eexists. split; [reflexivity|].
    split; [|reflexivity]. after_tick w.
Qed.

Lemma writeFileSync_spec path data w :
  exists w1, writeFileSync path data w = (Ret tt, w1)
             /\ progress 0 0 0 [EvWrite path data] w w1
             /\ w1.(cache) = w.(cache).
Proof.
  unfold writeFileSync. eexists. split; [reflexivity|].
  split; [after_tick w | apply tick_progress].
Qed.

Lemma execSync_spec cmd out w :
  exec_result E w.(execs) = Some out ->
  exists w1, execSync E cmd w = (Ret out, w1)
             /\ progress 1 0 0 [EvExec cmd] w w1
             /\ w1.(cache) = w.(cache).
Proof.
  intros Hout. unfold execSync.
  destruct (tick_progress w) as ((_&_&_&_&Ex&_) & C).
  replace (execs (tick w)) with (execs w) by lia. rewrite Hout.
  eexists. split; [reflexivity|].
  split; [after_tick w | exact C].
Qed.

Lemma report_spec label output w :
  exists w1, report label output w = (Ret tt, w1)
             /\ progress 0 0 1 [] w w1 /\ w1.(cache) = w.(cache).
Proof.
  unfold report. destruct (isNaN _ || isNaN _).
  - eexists. split; [reflexivity|]. split; [|reflexivity].
    unfold Coverage.progress. cbn. rewrite length_app, app_nil_r. cbn.
    repeat split; lia.
  - unfold bind, gets. cbn. destruct (baseTime w); cbn;
      (eexists; split; [reflexivity|]; split; [|reflexivity];
       unfold Coverage.progress; cbn; rewrite length_app, app_nil_r; cbn;
       repeat split; lia).
Qed.

Lemma copyBasePackage_spec w :
  exists w1, copyBasePackage E w = (Ret tt, w1)
             /\ progress 0 1 0 [EvCopyIssued w.(copies) base_path live_path]
                  w w1
             /\ w1.(cache) = w.(cache).
Proof.
  unfold copyBasePackage, copyFile, modify. eexists.
  split; [reflexivity|]. split; [|reflexivity].
  unfold Coverage.progress. cbn. rewrite main_events_app. cbn.
  repeat split; lia.
Qed.

Lemma set_cache_progress c w : progress 0 0 0 [] w (set_cache c w).
Proof.
  unfold Coverage.progress. cbn. rewrite app_nil_r. repeat split; lia.
Qed.

(** The mutation and the build for one qualifier, when the build
    succeeds. *)
Lemma mutate_spec e p out w :
  manifest_ready p w -> p.(dependencies) <> None ->
  exec_result E w.(execs) = Some out ->
  exists w1, mutate E (Some e) w = (Ret e, w1)
             /\ progress 1 0 0
                  [EvWrite live_path (JSON_stringify (mutated p e));
                   EvExec "yarn browser build"] w w1
             /\ w1.(cache) = Some (mutated p e).
Proof.
  intros Hready Hdeps Hout.
  destruct (require_spec p w Hready) as (w1 & R1 & P1 & C1).
  unfold mutate, mutated.
  destruct (parse_qualifier e) as [name version]. cbn [fst snd].
  rewrite (bind_ret_eq _ _ _ _ _ R1).
  destruct (set_dependency name version p) as [p'|] eqn:Hset.
  2:{ unfold set_dependency in Hset.
      destruct (dependencies p); congruence. }
  pose proof (set_cache_progress (Some p') w1) as P2.
  set (w2 := set_cache (Some p') w1) in *.
  destruct (writeFileSync_spec live_path (JSON_stringify p') w2)
    as (w3 & R3 & P3 & C3).
  pose proof (progress_trans _ _ _ _ _ _ _ _ _ _ _
                (progress_trans _ _ _ _ _ _ _ _ _ _ _ P1 P2) P3) as P13.
  cbn in P13.
  destruct (execSync_spec "yarn browser build" out w3)
    as (w4 & R4 & P4 & C4).
  { destruct P13 as (_&_&_&_&Ex&_). rewrite Ex, Nat.add_0_r. exact Hout. }
  exists w4. split.
  - unfold bind at 1. unfold modify at 1. fold w2.
    rewrite (bind_ret_eq _ _ _ _ _ R3), (bind_ret_eq _ _ _ _ _ R4).
    reflexivity.
  - split; [exact (progress_trans _ _ _ _ _ _ _ _ _ _ _ P13 P4)|].
    rewrite C4, C3. reflexivity.
Qed.

(** One trial: mutation, build, measurement and one line, whatever
    the measurement printed. *)
Lemma calculateExtension_spec e p out out' w :
  manifest_ready p w -> p.(dependencies) <> None ->
  exec_result E w.(execs) = Some out ->
  exec_result E (S w.(execs)) = Some out' ->
  exists w1, calculateExtension E (Some e) w = (Ret tt, w1)
             /\ progress 2 0 1
                  [EvWrite live_path (JSON_stringify (mutated p e));
                   EvExec "yarn browser build";
                   EvExec (measure_command w.(runs) w.(url))] w w1
             /\ w1.(cache) = Some (mutated p e).
Proof.
  intros Hready Hdeps Hout Hout'.
  destruct (mutate_spec e p out w Hready Hdeps Hout) as (w1 & R1 & P1 & C1).
  destruct (execSync_spec (measure_command w1.(runs) w1.(url)) out' w1)
    as (w2 & R2 & P2 & C2).
  { destruct P1 as (_&_&_&_&Ex&_). rewrite Ex, Nat.add_1_r. exact Hout'. }
  destruct (report_spec e out' w2) as (w3 & R3 & P3 & C3).
  exists w3. split.
  - unfold calculateExtension.
    rewrite (bind_ret_eq _ _ _ _ _ R1), !bind_gets_eq,
      (bind_ret_eq _ _ _ _ _ R2).
    exact R3.
  - split; [|congruence].
    pose proof (progress_trans _ _ _ _ _ _ _ _ _ _ _
                  (progress_trans _ _ _ _ _ _ _ _ _ _ _ P1 P2) P3) as P.
    destruct P1 as (Hr & Hu & _). rewrite Hr, Hu in P. exact P.
Qed.

(** The loop over the qualifiers when every command succeeds. *)
Lemma trial_loop_spec exts : forall p w,
  manifest_ready p w -> p.(dependencies) <> None ->
  commands_succeed E w.(execs) ->
  exists w1, trial_loop E exts w = (Ret tt, w1)
             /\ progress (2 * length exts) (length exts) (length exts)
                  (trial_events w.(runs) w.(url) w.(copies) p exts) w w1
             /\ manifest_ready (fold_left mutated exts p) w1.
Proof.
  induction exts as [|e rest IH]; intros p w Hready Hdeps Hok.
  - exists w. split; [reflexivity|]. split; [apply progress_refl|exact Hready].
  - destruct (exec_result E w.(execs)) as [out|] eqn:Hout;
      [|now apply Hok in Hout].
    destruct (exec_result E (S w.(execs))) as [out'|] eqn:Hout';
      [|apply Hok in Hout'; [easy|lia]].
    destruct (calculateExtension_spec e p out out' w Hready Hdeps Hout Hout')
      as (w1 & R1 & P1 & C1).
    destruct (copyBasePackage_spec w1) as (w2 & R2 & P2 & C2).
    pose proof (progress_trans _ _ _ _ _ _ _ _ _ _ _ P1 P2) as P12.
    assert (Hdeps' : (mutated p e).(dependencies) <> None).
    { unfold mutated, set_dependency.
      destruct (dependencies p); cbn; congruence. }
    destruct (IH (mutated p e) w2) as (w3 & R3 & P3 & Hready3).
    + left. congruence.
    + exact Hdeps'.
    + intros k Hk. apply Hok. destruct P12 as (_&_&_&_&Ex&_). lia.
    + exists w3. split.
      * cbn [trial_loop].
        rewrite (bind_ret_eq _ _ _ _ _ R1), (bind_ret_eq _ _ _ _ _ R2).
        exact R3.
      * split; [|exact Hready3].
        pose proof (progress_trans _ _ _ _ _ _ _ _ _ _ _ P12 P3) as P.
        destruct P12 as (Hr & Hu & _ & _ & _ & Hc & _).
        destruct P1 as (_ & _ & _ & _ & _ & Hc1 & _).
        rewrite Hr, Hu, Hc, Hc1 in P.
        replace (copies w + (0 + 1))%nat with (S (copies w)) in P by lia.
        replace (copies w + 0)%nat with (copies w) in P by lia.
        cbn [trial_events length].
        destruct P as (A1&A2&A3&A4&A5&A6&A7&A8).
        unfold Coverage.progress. rewrite A8.
        repeat split; try congruence; lia.
Qed.

(** *** A command that fails *)

Lemma execSync_fails cmd w :
  exec_result E w.(execs) = None ->
  exists w1, execSync E cmd w = (Throw ("Command failed: " ++ cmd), w1)
             /\ progress 1 0 0 [EvExec cmd] w w1
             /\ w1.(cache) = w.(cache).
Proof.
  intros Hout. unfold execSync.
  destruct (tick_progress w) as ((_&_&_&_&Ex&_) & C).
  replace (execs (tick w)) with (execs w) by lia. rewrite Hout.
  eexists. split; [reflexivity|].
  split; [after_tick w | exact C].
Qed.

Lemma bind_throw_eq {A B} (m : M A) (k : A -> M B) w e w1 :
  m w = (Throw e, w1) -> bind m k w = (Throw e, w1).
Proof. intros Hm. unfold bind. now rewrite Hm. Qed.

Lemma mutate_build_fails e p w :
  manifest_ready p w -> p.(dependencies) <> None ->
  exec_result E w.(execs) = None ->
  exists w1, mutate E (Some e) w
             = (Throw "Command failed: yarn browser build", w1)
             /\ progress 1 0 0
                  [EvWrite live_path (JSON_stringify (mutated p e));
                   EvExec "yarn browser build"] w w1.
Proof.
  intros Hready Hdeps Hout.
  destruct (require_spec p w Hready) as (w1 & R1 & P1 & C1).
  unfold mutate, mutated.
  destruct (parse_qualifier e) as [name version]. cbn [fst snd].
  rewrite (bind_ret_eq _ _ _ _ _ R1).
  destruct (set_dependency name version p) as [p'|] eqn:Hset.
  2:{ unfold set_dependency in Hset.
      destruct (dependencies p); congruence. }
  pose proof (set_cache_progress (Some p') w1) as P2.
  set (w2 := set_cache (Some p') w1) in *.
  destruct (writeFileSync_spec live_path (JSON_stringify p') w2)
    as (w3 & R3 & P3 & C3).
  pose proof (progress_trans _ _ _ _ _ _ _ _ _ _ _
                (progress_trans _ _ _ _ _ _ _ _ _ _ _ P1 P2) P3) as P13.
  cbn in P13.
  destruct (execSync_fails "yarn browser build" w3)
    as (w4 & R4 & P4 & C4).
  { destruct P13 as (_&_&_&_&Ex&_). rewrite Ex, Nat.add_0_r. exact Hout. }
  exists w4. split.
  - unfold bind at 1. unfold modify at 1. fold w2.
    rewrite (bind_ret_eq _ _ _ _ _ R3), (bind_throw_eq _ _ _ _ _ R4).
    reflexivity.
  - exact (progress_trans _ _ _ _ _ _ _ _ _ _ _ P13 P4).
Qed.

(** *** The manifests of a sweep *)

Lemma mutated_has_dependencies p e :
  p.(dependencies) <> None -> (mutated p e).(dependencies) <> None.
Proof.
  unfold mutated, set_dependency.
  destruct (dependencies p); cbn; congruence.
Qed.

Lemma entry_mutated_same p e :
  p.(dependencies) <> None ->
  fst (parse_qualifier e) <> "__proto__" ->
  entry (mutated p e) (fst (parse_qualifier e))
  = Some (snd (parse_qualifier e)).
Proof.
  unfold entry, mutated, set_dependency.
  destruct (dependencies p) as [deps|]; [|congruence]. intros _ Hne. cbn.
  apply ParsingExtras.get_assign_same. now right.
Qed.

Lemma entry_mutated_kept p e name :
  entry p name <> None -> entry (mutated p e) name <> None.
Proof.
  unfold entry, mutated, set_dependency.
  destruct (dependencies p) as [deps|]; [|congruence]. cbn.
  destruct (String.eqb name (fst (parse_qualifier e))) eqn:Hn.
  - apply String.eqb_eq in Hn. subst name. intros Hget.
    rewrite ParsingExtras.get_assign_same by now left. discriminate.
  - apply String.eqb_neq in Hn.
    now rewrite ParsingExtras.get_assign_other.
Qed.

Lemma fold_mutated_has_dependencies exts : forall p,
  p.(dependencies) <> None ->
  (fold_left mutated exts p).(dependencies) <> None.
Proof.
  induction exts as [|e rest IH]; intros p Hp; [exact Hp|].
  cbn [fold_left]. apply IH. now apply mutated_has_dependencies.
Qed.

Lemma fold_mutated_kept exts : forall p name,
  entry p name <> None -> entry (fold_left mutated exts p) name <> None.
Proof.
  induction exts as [|e rest IH]; intros p name Hp; [exact Hp|].
  cbn [fold_left]. apply IH. now apply entry_mutated_kept.
Qed.

Lemma fold_mutated_entries exts : forall p e,
  p.(dependencies) <> None -> In e exts ->
  fst (parse_qualifier e) <> "__proto__" ->
  entry (fold_left mutated exts p) (fst (parse_qualifier e)) <> None.
Proof.
  induction exts as [|e0 rest IH]; intros p e Hp Hin Hne; [destruct Hin|].
  cbn [fold_left]. destruct Hin as [-> | Hin].
  - apply fold_mutated_kept. now rewrite entry_mutated_same.
  - apply IH; [now apply mutated_has_dependencies | exact Hin | exact Hne].
Qed.

Lemma In_main_events ev tr : In ev (main_events tr) -> In ev tr.
Proof.
  induction tr as [|ev' tr IH]; cbn [main_events]; [easy|].
  destruct (is_main_event ev'); cbn [In]; intuition.
Qed.

Lemma trial_events_write r u pre : forall id p e rest,
  In (EvWrite live_path (JSON_stringify (fold_left mutated (pre ++ [e]) p)))
     (trial_events r u id p (pre ++ e :: rest)).
Proof.
  induction pre as [|e0 pre IH]; intros id p e rest.
  - cbn. now left.
  - cbn [app fold_left trial_events In]. do 4 right. apply IH.
Qed.

(** X15.  The loop over the qualifiers, when the manifest has a
    [dependencies] member and every command exits with success: it
    completes, with one line on the console, two commands and one
    request for a reset per qualifier, whatever the measurements
    printed; nothing goes to the error stream and no rejection is
    left unhandled. *)
Theorem loop_prints_one_row_per_qualifier (exts : list string) p w :
  manifest_ready p w -> p.(dependencies) <> None ->
  commands_succeed E w.(execs) ->
  exists w', trial_loop E exts w = (Ret tt, w')
             /\ length w'.(stdout) = (length w.(stdout) + length exts)%nat
             /\ w'.(execs) = (w.(execs) + 2 * length exts)%nat
             /\ w'.(copies) = (w.(copies) + length exts)%nat
             /\ w'.(stderr) = w.(stderr)
             /\ w'.(unhandled) = w.(unhandled).
Proof.
  intros Hready Hdeps Hok.
  destruct (trial_loop_spec exts p w Hready Hdeps Hok)
    as (w' & R & (_ & _ & Herr & Hun & Hex & Hco & Hout & _) & _).
  exists w'. repeat split; assumption.
Qed.

(** X16.  What the main thread does in such a loop, in order: for
    each qualifier it makes the assignment for it on the manifest
    [require] has cached, which holds the assignments made for the
    qualifiers before, and writes that manifest; it runs the build,
    runs the measurement with the run count and the URL of the
    options, and requests the copy of the base manifest; the next
    trial starts from the cached manifest, not from the base manifest.
    (The assignment adds or replaces the entry of the name; for the
    name [__proto__], unless the manifest owns it, it changes
    nothing.) *)
Theorem loop_trace (exts : list string) p w :
  manifest_ready p w -> p.(dependencies) <> None ->
  commands_succeed E w.(execs) ->
  exists w', trial_loop E exts w = (Ret tt, w')
             /\ main_events w'.(trace)
                = main_events w.(trace)
                  ++ trial_events w.(runs) w.(url) w.(copies) p exts
             /\ manifest_ready (fold_left mutated exts p) w'.
Proof.
  intros Hready Hdeps Hok.
  destruct (trial_loop_spec exts p w Hready Hdeps Hok)
    as (w' & R & (_ & _ & _ & _ & _ & _ & _ & Htrace) & Hready').
  exists w'. repeat split; assumption.
Qed.

(** X17.  The manifest written for a qualifier holds an entry for it
    and for every qualifier tried before it in the same sweep; the
    one exception is a qualifier with the name [__proto__], whose
    assignment adds nothing to a manifest that does not own that
    name. *)
Theorem written_manifest_accumulates (pre : list string) (e : string)
    (rest : list string) p w :
  manifest_ready p w -> p.(dependencies) <> None ->
  commands_succeed E w.(execs) ->
  exists w' written,
    trial_loop E (pre ++ e :: rest) w = (Ret tt, w')
    /\ In (EvWrite live_path (JSON_stringify written)) w'.(trace)
    /\ (fst (parse_qualifier e) <> "__proto__" ->
        entry written (fst (parse_qualifier e))
        = Some (snd (parse_qualifier e)))
    /\ forall e', In e' pre ->
                  fst (parse_qualifier e') <> "__proto__" ->
                  entry written (fst (parse_qualifier e')) <> None.
Proof.
  intros Hready Hdeps Hok.
  destruct (trial_loop_spec (pre ++ e :: rest) p w Hready Hdeps Hok)
    as (w' & R & (_ & _ & _ & _ & _ & _ & _ & Htrace) & _).
  exists w', (fold_left mutated (pre ++ [e]) p).
  split; [exact R|]. split; [|split].
  - apply In_main_events. rewrite Htrace. apply in_or_app. right.
    apply trial_events_write.
  - intros Hne. rewrite fold_left_app. cbn [fold_left].
    apply entry_mutated_same; [|exact Hne].
    now apply fold_mutated_has_dependencies.
  - intros e' Hin Hne. apply fold_mutated_entries; [exact Hdeps| |exact Hne].
    apply in_or_app. now left.
Qed.

(** X18.  A build that fails ends the loop: the manifest has been
    written as the assignment for the qualifier left it, the rejection
    of [calculateExtension] is the result of the loop, no line is
    printed for the qualifier, the measurement is not run and no reset
    is requested. *)
Theorem failed_build_ends_loop (e : string) (rest : list string) p w :
  manifest_ready p w -> p.(dependencies) <> None ->
  exec_result E w.(execs) = None ->
  exists w', trial_loop E (e :: rest) w
             = (Throw "Command failed: yarn browser build", w')
             /\ main_events w'.(trace)
                = main_events w.(trace)
                  ++ [EvWrite live_path (JSON_stringify (mutated p e));
                      EvExec "yarn browser build"]
             /\ length w'.(stdout) = length w.(stdout)
             /\ w'.(copies) = w.(copies).
Proof.
  intros Hready Hdeps Hout.
  destruct (mutate_build_fails e p w Hready Hdeps Hout)
    as (w' & R & (_ & _ & _ & _ & _ & Hco & Hrows & Htrace)).
  exists w'. split.
  - cbn [trial_loop].
    assert (Hc : calculateExtension E (Some e) w
                 = (Throw "Command failed: yarn browser build", w')).
    { unfold calculateExtension. now rewrite (bind_throw_eq _ _ _ _ _ R). }
    now rewrite (bind_throw_eq _ _ _ _ _ Hc).
  - repeat split; [exact Htrace | lia | lia].
Qed.

(** X19.  A measurement command that fails (as opposed to one that
    succeeds without printing the two values) gives no line: the
    rejection ends the loop after the build, before any reset is
    requested. *)
Theorem failed_measurement_ends_loop (e : string) (rest : list string)
    p out w :
  manifest_ready p w -> p.(dependencies) <> None ->
  exec_result E w.(execs) = Some out ->
  exec_result E (S w.(execs)) = None ->
  exists w', trial_loop E (e :: rest) w
             = (Throw ("Command failed: " ++ measure_command w.(runs) w.(url)),
                w')
             /\ w'.(execs) = (w.(execs) + 2)%nat
             /\ length w'.(stdout) = length w.(stdout)
             /\ w'.(copies) = w.(copies).
Proof.
  intros Hready Hdeps Hout Hout'.
  destruct (mutate_spec e p out w Hready Hdeps Hout) as (w1 & R1 & P1 & C1).
  destruct (execSync_fails (measure_command w1.(runs) w1.(url)) w1)
    as (w2 & R2 & P2 & C2).
  { destruct P1 as (_&_&_&_&Ex&_). rewrite Ex, Nat.add_1_r. exact Hout'. }
  pose proof (progress_trans _ _ _ _ _ _ _ _ _ _ _ P1 P2)
    as (_ & _ & _ & _ & Hex & Hco & Hrows & _).
  destruct P1 as (Hr & Hu & _).
  exists w2. split.
  - cbn [trial_loop].
    assert (Hc : calculateExtension E (Some e) w
                 = (Throw ("Command failed: "
                           ++ measure_command w.(runs) w.(url)), w2)).
    { unfold calculateExtension.
      rewrite (bind_ret_eq _ _ _ _ _ R1), !bind_gets_eq,
        (bind_throw_eq _ _ _ _ _ R2).
      now rewrite Hr, Hu. }
    now rewrite (bind_throw_eq _ _ _ _ _ Hc).
  - repeat split; lia.
Qed.

End Sweep.

Lemma ready_on_clean_disk :
  Coverage.manifest_ready (F := string) original_package
    (init_world clean_disk).
Proof.
  right. repeat split. exists original_text. split; reflexivity.
Qed.

Lemma calm_succeeds (k : nat) : commands_succeed calm k.
Proof. intros j _. discriminate. Qed.

Lemma loop_prints_one_row_per_qualifier_witness :
  exists w', trial_loop (F := string) calm two_extensions
               (init_world clean_disk) = (Ret tt, w')
             /\ length w'.(stdout) = 2%nat
             /\ w'.(execs) = 4%nat
             /\ w'.(copies) = 2%nat
             /\ w'.(stderr) = []
             /\ w'.(unhandled) = [].
Proof.
  apply (loop_prints_one_row_per_qualifier calm two_extensions
           original_package (init_world clean_disk)).
  - exact ready_on_clean_disk.
  - discriminate.
  - apply calm_succeeds.
Defined.

Lemma loop_trace_witness :
  exists w', trial_loop (F := string) calm two_extensions
               (init_world clean_disk) = (Ret tt, w')
             /\ main_events w'.(trace)
                = trial_events (Some 10%Z) None 0 original_package
                    two_extensions
             /\ Coverage.manifest_ready
                  (fold_left mutated two_extensions original_package) w'.
Proof.
  apply (loop_trace calm two_extensions original_package
           (init_world clean_disk)).
  - exact ready_on_clean_disk.
  - discriminate.
  - apply calm_succeeds.
Defined.

Lemma written_manifest_accumulates_witness :
  exists w' written,
    trial_loop (F := string) calm two_extensions (init_world clean_disk)
    = (Ret tt, w')
    /\ In (EvWrite live_path (JSON_stringify written)) w'.(trace)
    /\ ("b" <> "__proto__" -> entry written "b" = Some " 2.0.0")
    /\ forall e', In e' [qualifier_text "a" "1.0.0"] ->
                  fst (parse_qualifier e') <> "__proto__" ->
                  entry written (fst (parse_qualifier e')) <> None.
Proof.
  apply (written_manifest_accumulates calm [qualifier_text "a" "1.0.0"]
           (qualifier_text "b" "2.0.0") [] original_package
           (init_world clean_disk)).
  - exact ready_on_clean_disk.
  - discriminate.
  - apply calm_succeeds.
Defined.

Lemma failed_build_ends_loop_witness :
  exists w', trial_loop (F := string) failing_build two_extensions
               (init_world clean_disk)
             = (Throw "Command failed: yarn browser build", w')
             /\ main_events w'.(trace)
                = [EvWrite live_path
                     (JSON_stringify
                        (mutated original_package (qualifier_text "a" "1.0.0")));
                   EvExec "yarn browser build"]
             /\ length w'.(stdout) = 0%nat
             /\ w'.(copies) = 0%nat.
Proof.
  apply (failed_build_ends_loop failing_build (qualifier_text "a" "1.0.0")
           [qualifier_text "b" "2.0.0"] original_package
           (init_world clean_disk)).
  - exact ready_on_clean_disk.
  - discriminate.
  - reflexivity.
Defined.

Lemma failed_measurement_ends_loop_witness :
  exists w', trial_loop (F := string) failing_measurement two_extensions
               (init_world clean_disk)
             = (Throw ("Command failed: " ++ measure_command (Some 10%Z) None),
                w')
             /\ w'.(execs) = 2%nat
             /\ length w'.(stdout) = 0%nat
             /\ w'.(copies) = 0%nat.
Proof.
  apply (failed_measurement_ends_loop failing_measurement
           (qualifier_text "a" "1.0.0") [qualifier_text "b" "2.0.0"]
           original_package (measured "2.500" "0.100")
           (init_world clean_disk)).
  - exact ready_on_clean_disk.
  - discriminate.
  - reflexivity.
  - reflexivity.
Defined.

Section Rows.
Context {F : Type} `{Double F} `{Json} {U8 : Utf8} (E : env).

Implicit Types (w : world (F := F)).

Lemma mutate_label q0 w label w1 :
  mutate E q0 w = (Ret label, w1) -> label = row_label q0.
Proof.
  unfold mutate. destruct q0 as [e|]; cbn [row_label].
  2:{ unfold ret. congruence. }
  destruct (parse_qualifier e) as [name version].
  unfold bind. destruct (require_live w) as [[p|err] w0]; [|congruence].
  destruct (set_dependency name version p); [|unfold throw; congruence].
  unfold modify.
  destruct (writeFileSync _ _ _) as [[[]|err] w2]; [|congruence].
  destruct (execSync E _ w2) as [[out|err] w3]; [|congruence].
  unfold ret. congruence.
Qed.

Lemma report_row label output w :
  exists rest w1, report label output w = (Ret tt, w1)
                  /\ w1.(stdout) = w.(stdout) ++ [(label ++ ", " ++ rest)%string].
Proof.
  unfold report. destruct (isNaN _ || isNaN _).
  - do 2 eexists. split; reflexivity.
  - unfold bind, gets. cbn. destruct (baseTime w); cbn;
      do 2 eexists; split; reflexivity.
Qed.

(** X20.  [calculateExtension] prints one line when it returns and
    none when it throws; the line starts with the qualifier exactly as
    it was given (the quotes are removed only for the entry of the
    manifest), or with [Base Theia] for the baseline. *)
Theorem row_starts_with_the_qualifier (q0 : option string) w :
  match calculateExtension E q0 w with
  | (Ret _, w') =>
      exists rest,
        w'.(stdout) = w.(stdout) ++ [(row_label q0 ++ ", " ++ rest)%string]
  | (Throw _, w') => w'.(stdout) = w.(stdout)
  end.
Proof.
  unfold calculateExtension.
  pose proof (keeps_mutate E q0 w) as Hm.
  unfold bind at 1.
  destruct (mutate E q0 w) as [[label|err] w1] eqn:Hmut; cbn [snd] in Hm.
  2:{ apply Hm. }
  apply mutate_label in Hmut. subst label.
  rewrite !SweepExtras.bind_gets_eq.
  pose proof (keeps_execSync E (measure_command (runs w1) (url w1)) w1) as He.
  unfold bind at 1.
  destruct (execSync E _ w1) as [[out|err] w2]; cbn [snd] in He.
  2:{ destruct Hm as (_&_&_&_&_&Hm&_), He as (_&_&_&_&_&He&_). congruence. }
  destruct (report_row (row_label q0) out w2) as (rest & w3 & R & Hrow).
  rewrite R. exists rest. rewrite Hrow.
  destruct Hm as (_&_&_&_&_&Hm&_), He as (_&_&_&_&_&He&_). congruence.
Qed.

End Rows.

(** *** The packages folder *)

Section Folder.
Context {F : Type} `{Double F} `{Json} {U8 : Utf8} (E E' : env).

Implicit Types (w : world (F := F)).

Hypothesis same_commands : forall k, exec_result E k = exec_result E' k.
Hypothesis same_delays : forall k, copy_delay E k = copy_delay E' k.

Lemma bind_ext {A B} (m m' : @M F A) (k k' : A -> @M F B) :
  (forall w, m w = m' w) -> (forall a w, k a w = k' a w) ->
  forall w, bind m k w = bind m' k' w.
Proof.
  intros Hm Hk w. unfold bind. rewrite Hm.
  destruct (m' w) as [[a|e] w1]; [apply Hk | reflexivity].
Qed.

Lemma execSync_ext cmd w : execSync E cmd w = execSync E' cmd w.
Proof. unfold execSync. now rewrite same_commands. Qed.

Lemma copyBasePackage_ext w : copyBasePackage E w = copyBasePackage E' w.
Proof.
  unfold copyBasePackage, copyFile, modify. now rewrite same_delays.
Qed.

Lemma mutate_ext q0 w : mutate E q0 w = mutate E' q0 w.
Proof.
  unfold mutate. destruct q0 as [e|]; [|reflexivity].
  destruct (parse_qualifier e) as [name version].
  apply bind_ext; [reflexivity|]. intros p w1.
  destruct (set_dependency name version p); [|reflexivity].
  apply bind_ext; [reflexivity|]. intros _ w2.
  apply bind_ext; [reflexivity|]. intros _ w3.
  apply bind_ext; [apply execSync_ext | reflexivity].
Qed.

Lemma calculateExtension_ext q0 w :
  calculateExtension E q0 w = calculateExtension E' q0 w.
Proof.
  unfold calculateExtension.
  apply bind_ext; [apply mutate_ext|]. intros label w1.
  apply bind_ext; [reflexivity|]. intros r w2.
  apply bind_ext; [reflexivity|]. intros u w3.
  apply bind_ext; [apply execSync_ext | reflexivity].
Qed.

Lemma trial_loop_ext exts : forall w, trial_loop E exts w = trial_loop E' exts w.
Proof.
  induction exts as [|e rest IH]; intros w; [reflexivity|].
  cbn [trial_loop].
  apply bind_ext; [apply calculateExtension_ext|]. intros _ w1.
  apply bind_ext; [apply copyBasePackage_ext|]. intros _ w2. apply IH.
Qed.

(** X21.  With a list of qualifiers on the command line the packages
    folder is never read: the sweep is the same whatever the folder
    holds, and also when it is missing. *)
Theorem given_qualifiers_skip_the_folder (exts : list string) w :
  exts <> [] -> extensionImpact E exts w = extensionImpact E' exts w.
Proof.
  intros Hne. unfold extensionImpact.
  apply bind_ext; [reflexivity|]. intros r w1.
  apply bind_ext; [reflexivity|]. intros _ w2.
  apply bind_ext; [reflexivity|]. intros b w3.
  apply bind_ext.
  - intros w4. destruct b; try reflexivity.
    unfold unawaited. now rewrite calculateExtension_ext.
  - intros _ w4. destruct exts as [|e rest]; [congruence|].
    cbn [length Nat.ltb Nat.leb].
    apply bind_ext; [reflexivity|]. intros exts' w5. apply trial_loop_ext.
Qed.

End Folder.

Lemma given_qualifiers_skip_the_folder_witness :
  extensionImpact (F := string) calm two_extensions (init_world clean_disk)
  = extensionImpact (listing_env sample_listing) two_extensions
      (init_world clean_disk).
Proof.
  apply (given_qualifiers_skip_the_folder calm (listing_env sample_listing)).
  - reflexivity.
  - reflexivity.
  - discriminate.
Defined.

End SweepExtras.


(** ** Whole runs: the rows of the report and the commands of a sweep *)

Module ExactFacts.
Import JsString JsNumber Script Logic Coverage.
Import ScriptFacts CoverageFacts Reference Samples SweepExtras.
Local Open Scope list_scope.

Section Exact.
Context {F : Type} `{Double F} `{Json} {U8 : Utf8} (E : env).

Implicit Types (w : world (F := F)) (p : package).

#[local] Abbreviation progress := (Coverage.progress (F := F)).
#[local] Abbreviation manifest_ready := (Coverage.manifest_ready (F := F)).

Lemma rows_as_specified_app (t1 t2 : list (string * string)) :
  forall b : base_time (F := F),
  rows_as_specified b (t1 ++ t2)
  = rows_as_specified b t1
    ++ rows_as_specified (baseline_as_specified b t1) t2.
Proof.
  induction t1 as [|[label output] t1 IH]; intros b; [reflexivity|].
  cbn [app rows_as_specified baseline_as_specified].
  destruct (sample_of output) as [[mean stdev]|]; [destruct b|];
    cbn [app]; now rewrite IH.
Qed.

Lemma baseline_as_specified_app (t1 t2 : list (string * string)) :
  forall b : base_time (F := F),
  baseline_as_specified b (t1 ++ t2)
  = baseline_as_specified (baseline_as_specified b t1) t2.
Proof.
  induction t1 as [|[label output] t1 IH]; intros b; [reflexivity|].
  cbn [app baseline_as_specified].
  destruct (sample_of output) as [[mean stdev]|]; [destruct b|];
    now rewrite IH.
Qed.

(** The line [report] prints and the base time it leaves. *)
Lemma report_exact label output w :
  exists w1, report label output w = (Ret tt, w1)
    /\ w1.(stdout)
       = w.(stdout) ++ rows_as_specified w.(baseTime) [(label, output)]
    /\ w1.(baseTime) = baseline_as_specified w.(baseTime) [(label, output)].
Proof.
  unfold report. cbn [rows_as_specified baseline_as_specified].
  unfold sample_of. destruct (isNaN _ || isNaN _).
  - eexists. split; [reflexivity|]. split; reflexivity.
  - unfold bind, gets. cbn. destruct (baseTime w) eqn:Hb; cbn;
      (eexists; split; [reflexivity|]; cbn; rewrite ?Hb; split; reflexivity).
Qed.

Lemma report_same label output w w1 :
  report label output w = (Ret tt, w1) ->
  w1.(stdout) = w.(stdout) ++ rows_as_specified w.(baseTime) [(label, output)]
  /\ w1.(baseTime) = baseline_as_specified w.(baseTime) [(label, output)].
Proof.
  intros R. destruct (report_exact label output w) as (w2 & R2 & Hs & Hb).
  rewrite R in R2. injection R2 as <-. split; assumption.
Qed.

(** One trial, when its two commands succeed: the line is the one
    specified for what the measurement printed. *)
Lemma calculateExtension_exact e p out out' w :
  manifest_ready p w -> p.(dependencies) <> None ->
  exec_result E w.(execs) = Some out ->
  exec_result E (S w.(execs)) = Some out' ->
  exists w1, calculateExtension E (Some e) w = (Ret tt, w1)
    /\ w1.(stdout) = w.(stdout) ++ rows_as_specified w.(baseTime) [(e, out')]
    /\ w1.(baseTime) = baseline_as_specified w.(baseTime) [(e, out')]
    /\ progress 2 0 1
         [EvWrite live_path (JSON_stringify (mutated p e));
          EvExec "yarn browser build";
          EvExec (measure_command w.(runs) w.(url))] w w1
    /\ w1.(cache) = Some (mutated p e).
Proof.
  intros Hready Hdeps Hout Hout'.
  destruct (calculateExtension_spec E e p out out' w Hready Hdeps Hout Hout')
    as (w3 & R & P & C).
  exists w3. split; [exact R|]. split; [|split; [|split; assumption]].
  all: destruct (mutate_spec E e p out w Hready Hdeps Hout) as (w1 & R1 & P1 & C1);
    destruct (execSync_spec E (measure_command w1.(runs) w1.(url)) out' w1)
      as (w2 & R2 & P2 & C2);
    [destruct P1 as (_&_&_&_&Ex&_); rewrite Ex, Nat.add_1_r; exact Hout'|];
    unfold calculateExtension in R;
    rewrite (bind_ret_eq _ _ _ _ _ R1), !bind_gets_eq,
      (bind_ret_eq _ _ _ _ _ R2) in R;
    apply report_same in R; destruct R as [Hs Hb];
    pose proof (keeps_mutate E (Some e) w) as K1; rewrite R1 in K1;
    pose proof (keeps_execSync E (measure_command w1.(runs) w1.(url)) w1) as K2;
    rewrite R2 in K2; cbn [snd] in K1, K2;
    destruct K1 as (_&B1&_&_&_&S1&_), K2 as (_&B2&_&_&_&S2&_);
    congruence.
Qed.


(** The loop over the qualifiers when every command succeeds: its
    rows are those specified for what the measurements printed. *)
Lemma trial_loop_exact exts : forall p w,
  manifest_ready p w -> p.(dependencies) <> None ->
  commands_succeed E w.(execs) ->
  exists w1, trial_loop E exts w = (Ret tt, w1)
    /\ w1.(stdout)
       = w.(stdout)
         ++ rows_as_specified w.(baseTime) (loop_trials E w.(execs) exts)
    /\ w1.(baseTime)
       = baseline_as_specified w.(baseTime) (loop_trials E w.(execs) exts)
    /\ progress (2 * length exts) (length exts) (length exts)
         (trial_events w.(runs) w.(url) w.(copies) p exts) w w1
    /\ manifest_ready (fold_left mutated exts p) w1.
Proof.
  induction exts as [|e rest IH]; intros p w Hready Hdeps Hok.
  - exists w. cbn. rewrite app_nil_r.
    repeat split; try reflexivity; try apply progress_refl; try exact Hready.
    all: try lia.
  - destruct (exec_result E w.(execs)) as [out|] eqn:Hout;
      [|now apply Hok in Hout].
    destruct (exec_result E (S w.(execs))) as [out'|] eqn:Hout';
      [|apply Hok in Hout'; [easy|lia]].
    destruct (calculateExtension_exact e p out out' w Hready Hdeps Hout Hout')
      as (w1 & R1 & S1 & B1 & P1 & C1).
    destruct (copyBasePackage_spec E w1) as (w2 & R2 & P2 & C2).
    pose proof (keeps_copyBasePackage E w1) as K2. rewrite R2 in K2.
    cbn [snd] in K2. destruct K2 as (_&B2&_&_&_&S2&_).
    assert (Hdeps' : (mutated p e).(dependencies) <> None).
    { unfold mutated, set_dependency.
      destruct (dependencies p); cbn; congruence. }
    assert (Hex : execs w2 = S (S (execs w))).
    { destruct P1 as (_&_&_&_&Ex1&_), P2 as (_&_&_&_&Ex2&_). lia. }
    destruct (IH (mutated p e) w2) as (w3 & R3 & S3 & B3 & _ & _).
    + left. congruence.
    + exact Hdeps'.
    + intros k Hk. apply Hok. lia.
    + destruct (trial_loop_spec E (e :: rest) p w Hready Hdeps Hok)
        as (w3' & R & P & Hready').
      assert (w3' = w3).
      { cbn [trial_loop] in R.
        rewrite (bind_ret_eq _ _ _ _ _ R1), (bind_ret_eq _ _ _ _ _ R2) in R.
        congruence. }
      subst w3'. exists w3. split; [exact R|].
      cbn [loop_trials]. unfold output_of at 1 2. rewrite Hout'.
      change ((e, out') :: loop_trials E (S (S (execs w))) rest)
        with ([(e, out')] ++ loop_trials E (S (S (execs w))) rest).
      rewrite rows_as_specified_app, baseline_as_specified_app.
      rewrite S3, B3, S2, B2, S1, B1, Hex, <- app_assoc.
      split; [reflexivity|]. split; [reflexivity|].
      split; [exact P | exact Hready'].
Qed.


Lemma baseline_as_specified_string s (trials : list (string * string)) :
  baseline_as_specified (F := F) (BString s) trials = BString s.
Proof.
  induction trials as [|[label output] rest IH]; [reflexivity|].
  cbn [baseline_as_specified]. now destruct (sample_of output) as [[a b]|].
Qed.

(** *** A manifest that stays readable *)

Lemma land_readable (r : request) w :
  resets_live r -> disk_readable w.(fs) ->
  disk_readable (land r w).(fs)
  /\ (land r w).(cache) = w.(cache) /\ (land r w).(pool) = w.(pool).
Proof.
  intros Hr Hd. destruct r as [id n src dst | n path [e|]]; cbn [land].
  - destruct Hr as [-> ->]. destruct Hd as [Hlive (b & Hb & Hgood)].
    rewrite Hb. cbn. split; [|split; reflexivity]. split.
    + exists b. rewrite lookup_insert. split; [reflexivity | exact Hgood].
    + exists b. rewrite lookup_insert_ne by discriminate.
      split; assumption.
  - cbn. repeat split; apply Hd.
  - cbn. repeat split; apply Hd.
Qed.

Lemma resets_live_set_wait n r : resets_live r -> resets_live (set_wait n r).
Proof. destruct r; exact (fun Hr => Hr). Qed.

Lemma advance_readable (rs : list request) w :
  Forall resets_live rs -> disk_readable w.(fs) ->
  Forall resets_live (fst (advance rs w))
  /\ disk_readable (snd (advance rs w)).(fs)
  /\ (snd (advance rs w)).(cache) = w.(cache).
Proof.
  intros Hrs. revert w. induction Hrs as [|r rs Hr Hrs IH]; intros w Hd.
  - cbn. repeat split; [constructor | apply Hd | apply Hd].
  - cbn [advance]. destruct (req_wait r) as [|n].
    + destruct (land_readable r w Hr Hd) as (Hd1 & Hc1 & _).
      destruct (IH (land r w) Hd1) as (Hk & Hd2 & Hc2).
      split; [exact Hk|]. split; [exact Hd2 | congruence].
    + destruct (IH w Hd) as (Hk & Hd2 & Hc2).
      destruct (advance rs w) as [keep w']. cbn in *.
      split; [|split; assumption].
      constructor; [now apply resets_live_set_wait | exact Hk].
Qed.

Lemma tick_readable w :
  Forall resets_live w.(pool) -> disk_readable w.(fs) ->
  Forall resets_live (tick w).(pool) /\ disk_readable (tick w).(fs).
Proof.
  intros Hp Hd. unfold tick.
  destruct (advance_readable (pool w) (set_pool [] w) Hp Hd) as (Hk & Hd' & _).
  destruct (advance (pool w) (set_pool [] w)) as [keep w'].
  split; [exact Hk | exact Hd'].
Qed.

Lemma readable_tick w : manifest_readable w -> manifest_readable (tick w).
Proof.
  destruct (tick_idle_main w) as (_ & C & _).
  intros [(p & Hc & Hdeps) | (Hc & Hd & Hp)].
  - left. exists p. split; [congruence | exact Hdeps].
  - right. destruct (tick_readable w Hp Hd) as [Hp' Hd'].
    split; [congruence|]. split; assumption.
Qed.

Lemma readable_same w w' :
  w'.(cache) = w.(cache) -> w'.(fs) = w.(fs) -> w'.(pool) = w.(pool) ->
  manifest_readable w -> manifest_readable w'.
Proof.
  intros Hc Hf Hp. unfold manifest_readable. now rewrite Hc, Hf, Hp.
Qed.

(** What [require] does to a world with a readable manifest can be
    done ahead of the call: the world [w1] it leaves has the manifest
    in the cache, and the caller cannot tell [w] from [w1]. *)
Lemma require_warm w :
  manifest_readable w ->
  exists p w1,
    require_live w = (Ret p, w1) /\ require_live w1 = (Ret p, w1)
    /\ w1.(cache) = Some p /\ p.(dependencies) <> None
    /\ disk_only w w1 /\ w1.(execs) = w.(execs) /\ w1.(copies) = w.(copies)
    /\ main_events w1.(trace) = main_events w.(trace).
Proof.
  intros [(p & Hc & Hdeps) | (Hc & Hd & Hp)].
  - exists p, w. unfold require_live. rewrite Hc.
    repeat split; try reflexivity; assumption.
  - destruct (tick_readable w Hp Hd) as [_ [(text & Hf & p & Hparse & Hdeps) _]].
    destruct (tick_idle_main w) as (D & C & Ex & Co & Me).
    exists p, (set_cache (Some p) (tick w)).
    unfold require_live at 1. rewrite Hc, Hf, Hparse.
    split; [reflexivity|]. split; [reflexivity|].
    split; [reflexivity|]. split; [exact Hdeps|].
    split; [exact D|]. split; [exact Ex|]. split; [exact Co | exact Me].
Qed.

Lemma trial_loop_warm e rest p w w1 :
  require_live w = (Ret p, w1) -> require_live w1 = (Ret p, w1) ->
  trial_loop E (e :: rest) w = trial_loop E (e :: rest) w1.
Proof.
  intros R R'. cbn [trial_loop]. unfold calculateExtension, mutate.
  destruct (parse_qualifier e) as [name version]. unfold bind.
  now rewrite R, R'.
Qed.

(** The loop over the qualifiers from a world with a readable
    manifest, when every command succeeds. *)
Lemma trial_loop_readable exts w :
  manifest_readable w -> commands_succeed E w.(execs) ->
  exists w1, trial_loop E exts w = (Ret tt, w1)
    /\ w1.(stdout)
       = w.(stdout)
         ++ rows_as_specified w.(baseTime) (loop_trials E w.(execs) exts)
    /\ w1.(baseTime)
       = baseline_as_specified w.(baseTime) (loop_trials E w.(execs) exts)
    /\ w1.(execs) = (w.(execs) + 2 * length exts)%nat
    /\ w1.(copies) = (w.(copies) + length exts)%nat
    /\ w1.(runs) = w.(runs) /\ w1.(stderr) = w.(stderr).
Proof.
  intros Hready Hok. destruct exts as [|e rest].
  - exists w. cbn. rewrite app_nil_r. repeat split; lia.
  - destruct (require_warm w Hready)
      as (p & w0 & R & R' & C & Hdeps & D & Ex & Co & _).
    rewrite (trial_loop_warm e rest p w w0 R R').
    destruct (trial_loop_exact (e :: rest) p w0) as (w1 & R1 & S1 & B1 & P1 & _).
    + now left.
    + exact Hdeps.
    + now rewrite Ex.
    + destruct D as (Dr & Db & _ & _ & _ & Ds & De & _).
      destruct P1 as (A1&A2&A3&A4&A5&A6&A7&A8).
      exists w1. rewrite S1, B1, Ds, Db, Ex.
      repeat split; try congruence; lia.
Qed.

(** The qualifiers and the loop over them. *)
Lemma sweep_loop_readable exts qs w :
  sweep_qualifiers E exts = Some qs ->
  manifest_readable w -> commands_succeed E w.(execs) ->
  exists w1, sweep_loop E exts w = (Ret tt, w1)
    /\ w1.(stdout)
       = w.(stdout)
         ++ rows_as_specified w.(baseTime) (loop_trials E w.(execs) qs)
    /\ w1.(baseTime)
       = baseline_as_specified w.(baseTime) (loop_trials E w.(execs) qs)
    /\ w1.(execs) = (w.(execs) + 2 * length qs)%nat
    /\ w1.(copies) = (w.(copies) + length qs)%nat
    /\ w1.(runs) = w.(runs) /\ w1.(stderr) = w.(stderr).
Proof.
  intros Hqs Hready Hok. unfold sweep_qualifiers in Hqs. unfold sweep_loop.
  destruct (length exts <? 1)%nat.
  - destruct (packages E) as [entries|] eqn:Hp; [|discriminate].
    destruct (forallb _ (package_directories entries)) eqn:Hall;
      [|discriminate].
    injection Hqs as <-.
    assert (Hds : Forall (fun d => d.(dir_manifest) <> None)
                    (package_directories entries)).
    { apply List.Forall_forall. intros d Hin.
      rewrite forallb_forall in Hall. specialize (Hall d Hin).
      destruct (dir_manifest d); [discriminate | discriminate]. }
    assert (Hget : getPackagesExtensions E w
                   = (Ret (map qualifier_of (package_directories entries)),
                      tick w)).
    { unfold getPackagesExtensions, bind, modify. rewrite Hp.
      fold (package_directories entries).
      now rewrite (EnumeratorExtras.push_qualifiers_all _ [] (tick w) Hds). }
    rewrite (bind_ret_eq _ _ _ _ _ Hget).
    destruct (tick_idle_main w) as (D & _ & Ex & Co & _).
    destruct D as (Dr & Db & _ & _ & _ & Ds & De & _).
    destruct (trial_loop_readable
                (map qualifier_of (package_directories entries)) (tick w))
      as (w1 & R1 & S1 & B1 & Ex1 & Co1 & Hr1 & He1).
    { now apply readable_tick. }
    { now rewrite Ex. }
    exists w1. rewrite R1, S1, B1, Ex1, Co1, Hr1, He1, Ds, Db, Ex, Co, Dr, De.
    repeat split.
  - injection Hqs as <-. unfold bind at 1. unfold ret at 1.
    now apply trial_loop_readable.
Qed.



(** A sweep with a supplied base time, when every command succeeds:
    no baseline is measured. *)
Lemma extensionImpact_given s exts qs w :
  w.(baseTime) = BString s -> sweep_qualifiers E exts = Some qs ->
  manifest_readable w -> commands_succeed E w.(execs) ->
  exists w', extensionImpact E exts w = (Ret tt, w')
    /\ w'.(stdout)
       = w.(stdout)
         ++ header w.(runs) :: provided_row s
            :: rows_as_specified (BString s) (loop_trials E w.(execs) qs)
    /\ w'.(baseTime) = BString s
    /\ w'.(execs) = (w.(execs) + 2 * length qs)%nat
    /\ w'.(runs) = w.(runs) /\ w'.(stderr) = w.(stderr).
Proof.
  intros Hb Hne Hready Hok.
  set (w0 := set_stdout (w.(stdout) ++ [header w.(runs)]) w).
  set (w1 := set_stdout (w0.(stdout) ++ [provided_row s]) w0).
  assert (Hready1 : manifest_readable w1)
    by (now apply (readable_same w w1)).
  destruct (sweep_loop_readable exts qs w1 Hne Hready1)
    as (w2 & R2 & S2 & B2 & Ex2 & _ & Hr2 & He2).
  { exact Hok. }
  exists w2. split.
  - unfold extensionImpact. rewrite bind_gets_eq.
    unfold bind at 1. unfold console_log at 1. unfold modify at 1. fold w0.
    rewrite bind_gets_eq. change (baseTime w0) with (baseTime w). rewrite Hb.
    unfold bind at 1. unfold console_log at 1. unfold modify at 1.
    cbn [base_time_text]. fold (provided_row s). fold w1.
    exact R2.
  - rewrite S2, B2. change (baseTime w1) with (baseTime w).
    change (execs w1) with (execs w).
    change (stdout w1)
      with ((stdout w ++ [header (runs w)]) ++ [provided_row s]).
    rewrite Hb, baseline_as_specified_string, <- !app_assoc. cbn [app].
    repeat split; assumption.
Qed.

(** *** From the options to the sweep *)

Lemma main_configured (args : argv) w :
  runs_accepted args -> main E args w = sweep_start E (configured args w).
Proof.
  intros Hacc. unfold main, sweep_start, configured, runs_accepted in *.
  destruct (arg_baseTime args) as [x|]; [destruct (num_truthy x)|];
    destruct (arg_extensions args) as [l|];
    (destruct (arg_runs args) as [z|];
     [destruct (num_truthy z) eqn:Hz;
      [destruct Hacc as [Hf | Hz2]; [discriminate|];
       destruct (parseInt (num_toString z)) as [n|];
       [assert (Hlt : (n <? 2)%Z = false) by (apply Z.ltb_ge; lia)|]
      |]
     |]);
    destruct (arg_yarn args) as [[|]|];
    destruct (arg_url args) as [u|]; try destruct (String.eqb u "");
    cbn; unfold bind, modify, ret; cbn; rewrite ?Hlt; reflexivity.
Qed.

Lemma configured_start (args : argv) fs0 :
  let w := configured args (init_world fs0) in
  w.(fs) = fs0 /\ w.(pool) = [] /\ w.(cache) = None /\ w.(trace) = []
  /\ w.(stdout) = [] /\ w.(stderr) = [] /\ w.(execs) = 0%nat
  /\ w.(copies) = 0%nat /\ w.(runs) = run_count args
  /\ w.(yarn) = wants_yarn args.
Proof.
  unfold configured, run_count, wants_yarn.
  destruct (arg_baseTime args) as [x|]; [destruct (num_truthy x)|];
    destruct (arg_extensions args) as [l|];
    (destruct (arg_runs args) as [z|]; [destruct (num_truthy z)|]);
    destruct (arg_yarn args) as [[|]|];
    destruct (arg_url args) as [u|]; try destruct (String.eqb u "");
    cbn; repeat split.
Qed.

Lemma configured_extensions (args : argv) fs0 :
  (configured args (init_world fs0)).(extensions) = given_extensions args.
Proof.
  unfold configured, given_extensions.
  destruct (arg_baseTime args) as [x|]; [destruct (num_truthy x)|];
    destruct (arg_extensions args) as [l|];
    (destruct (arg_runs args) as [z|]; [destruct (num_truthy z)|]);
    destruct (arg_yarn args) as [[|]|];
    destruct (arg_url args) as [u|]; try destruct (String.eqb u "");
    reflexivity.
Qed.

Lemma configured_base_time (args : argv) w :
  (configured args w).(baseTime)
  = match arg_baseTime args with
    | Some x =>
        if num_truthy x
        then BString (toFixed (parseFloat (num_toString x)))
        else w.(baseTime)
    | None => w.(baseTime)
    end.
Proof.
  unfold configured.
  destruct (arg_baseTime args) as [x|]; [destruct (num_truthy x)|];
    destruct (arg_extensions args) as [l|];
    (destruct (arg_runs args) as [z|]; [destruct (num_truthy z)|]);
    destruct (arg_yarn args) as [[|]|];
    destruct (arg_url args) as [u|]; try destruct (String.eqb u "");
    reflexivity.
Qed.

(** [prepareWorkspace] on a disk with readable manifests. *)
Lemma prepareWorkspace_readable w :
  w.(pool) = [] -> w.(cache) = None -> disk_readable w.(fs) ->
  exists w1, prepareWorkspace E w = (Ret tt, w1)
    /\ manifest_readable w1 /\ disk_only w w1 /\ w1.(execs) = w.(execs)
    /\ main_events w1.(trace)
       = main_events w.(trace)
         ++ [EvCopySync live_path backup_path;
             EvCopyIssued w.(copies) base_path live_path;
             EvMkdirIssued no_plugins_path].
Proof.
  intros Hp Hc [(c & Hlive & Hgood) (b & Hbase & Hgoodb)].
  unfold prepareWorkspace, bind, copyFileSync, copyBasePackage, copyFile,
    mkdirp, modify, tick.
  rewrite Hp. cbn. rewrite Hlive. cbn.
  eexists. split; [reflexivity|]. cbn.
  split; [|split; [repeat split|split; [reflexivity|]]].
  - right. cbn. split; [exact Hc|]. split.
    + split.
      * exists c. rewrite lookup_insert_ne by discriminate. now split.
      * exists b. rewrite lookup_insert_ne by discriminate. now split.
    + repeat constructor.
  - rewrite !main_events_app. cbn. now rewrite <- !app_assoc.
Qed.

Lemma first_build_readable cmd out w :
  manifest_readable w -> exec_result E w.(execs) = Some out ->
  exists w1, execSync E cmd w = (Ret out, w1)
    /\ manifest_readable w1 /\ disk_only w w1 /\ w1.(execs) = S w.(execs)
    /\ main_events w1.(trace) = main_events w.(trace) ++ [EvExec cmd].
Proof.
  intros Hready Hout.
  destruct (execSync_spec E cmd out w Hout) as (w1 & R & P & C).
  pose proof (keeps_execSync E cmd w) as K. rewrite R in K. cbn [snd] in K.
  exists w1. split; [exact R|]. split; [|split; [exact K|]].
  - unfold execSync in R. apply readable_tick in Hready.
    destruct (exec_result E (execs (tick w))); injection R as _ <-;
      (eapply readable_same; [| | | exact Hready]; reflexivity).
  - destruct P as (_&_&_&_&Ex&_&_&Me). split; [lia | exact Me].
Qed.


(** A whole run with a supplied base time, when the manifests are
    readable and every command succeeds. *)
Lemma main_given (args : argv) fs0 exts x :
  arg_baseTime args = Some x -> num_truthy x = true ->
  sweep_qualifiers E (given_extensions args) = Some exts ->
  runs_accepted args ->
  disk_readable fs0 -> commands_succeed E 0 ->
  let s := toFixed (parseFloat (num_toString x)) in
  exists w', main E args (init_world fs0) = (Ret true, w')
    /\ w'.(stdout)
       = header (run_count args) :: provided_row s
         :: rows_as_specified (BString s) (loop_trials E 1 exts)
    /\ w'.(baseTime) = BString s
    /\ w'.(execs) = (1 + 2 * length exts)%nat.
Proof.
  intros Hbase Htruthy Hexts Hacc Hdisk Hok s.
  rewrite (main_configured args _ Hacc).
  pose proof (configured_start args fs0) as Hstart.
  pose proof (configured_extensions args fs0) as He0.
  pose proof (configured_base_time args (init_world fs0)) as Hb0.
  set (w0 := configured args (init_world fs0)) in *. cbn zeta in Hstart.
  destruct Hstart as (Hf & Hp & Hc & Ht & Hs & Hse & Hx & Hco & Hr & Hy).
  assert (Hb : baseTime w0 = BString s).
  { rewrite Hb0, Hbase, Htruthy. reflexivity. }
  destruct (prepareWorkspace_readable w0 Hp Hc) as (w1 & R1 & Hready1 & D1 & Ex1 & _).
  { now rewrite Hf. }
  destruct (exec_result E 0) as [out|] eqn:Hout; [|now apply Hok in Hout].
  destruct (first_build_readable
              (if yarn w1 then "yarn build" else "yarn browser build") out w1
              Hready1) as (w2 & R2 & Hready2 & D2 & Ex2 & _).
  { now rewrite Ex1, Hx. }
  destruct D1 as (Dr1 & Db1 & De1 & _ & _ & Ds1 & Dse1 & _).
  destruct D2 as (Dr2 & Db2 & De2 & _ & _ & Ds2 & Dse2 & _).
  destruct (extensionImpact_given s (given_extensions args) exts w2)
    as (w3 & R3 & S3 & B3 & Ex3 & Hr3 & He3).
  { congruence. }
  { exact Hexts. }
  { exact Hready2. }
  { intros k Hk. apply Hok. lia. }
  exists w3. split.
  - unfold sweep_start.
    rewrite (bind_ret_eq _ _ _ _ _ R1), bind_gets_eq,
      (bind_ret_eq _ _ _ _ _ R2), bind_gets_eq.
    replace (extensions w2) with (given_extensions args) by congruence.
    rewrite (bind_ret_eq _ _ _ _ _ R3). reflexivity.
  - assert (Hx2 : execs w2 = 1%nat) by lia.
    rewrite S3, B3, Ex3, Hx2.
    replace (stdout w2) with (@nil string) by congruence.
    replace (runs w2) with (run_count args) by congruence.
    repeat split; try lia.
Qed.

End Exact.
Section Commands.
Context {F : Type} `{Double F} `{Json} {U8 : Utf8} (E : env).
Context (r : option Z) (u : option string).

Implicit Types (w : world (F := F)).

#[local] Abbreviation sweeps_with := (Coverage.sweeps_with (F := F) r u).

#[local] Instance sweeps_with_refl : Reflexive sweeps_with.
Proof.
  intros w Hr Hu. split; [exact Hr|]. split; [exact Hu|].
  exists []. split; [now rewrite app_nil_r | constructor].
Qed.

#[local] Instance sweeps_with_trans : Transitive sweeps_with.
Proof.
  intros a b c Hab Hbc Hr Hu.
  destruct (Hab Hr Hu) as (Hr1 & Hu1 & evs1 & Ht1 & Ho1).
  destruct (Hbc Hr1 Hu1) as (Hr2 & Hu2 & evs2 & Ht2 & Ho2).
  split; [exact Hr2|]. split; [exact Hu2|].
  exists (evs1 ++ evs2). split.
  - now rewrite Ht2, Ht1, <- app_assoc.
  - apply Forall_app. split; assumption.
Qed.

(** A step of the main thread that leaves the run count and the URL
    alone and adds the events [evs] to the trace. *)
Lemma sweeps_now w w' evs :
  w'.(runs) = w.(runs) -> w'.(url) = w.(url) ->
  w'.(trace) = w.(trace) ++ evs ->
  Forall (command_with r u) (main_events evs) ->
  sweeps_with w w'.
Proof.
  intros Hr' Hu' Ht Hevs Hr Hu.
  split; [congruence|]. split; [congruence|].
  exists (main_events evs). split; [|exact Hevs].
  now rewrite Ht, main_events_app.
Qed.

Lemma sweeps_tick w : sweeps_with w (tick w).
Proof.
  destruct (tick_idle_main w) as ((Hr' & _ & _ & _ & Hu' & _) & _ & _ & _ & Me).
  intros Hr Hu. split; [congruence|]. split; [congruence|].
  exists []. split; [now rewrite app_nil_r | constructor].
Qed.

(** The same, for a step that first lets the thread pool work. *)
Lemma sweeps_after_tick w w' evs :
  w'.(runs) = (tick w).(runs) -> w'.(url) = (tick w).(url) ->
  w'.(trace) = (tick w).(trace) ++ evs ->
  Forall (command_with r u) (main_events evs) ->
  sweeps_with w w'.
Proof.
  intros Hr' Hu' Ht Hevs. transitivity (tick w); [apply sweeps_tick|].
  now apply sweeps_now with (evs := evs).
Qed.

Lemma sweeps_modify (f : world -> world) :
  (forall w, (f w).(runs) = w.(runs) /\ (f w).(url) = w.(url)
             /\ (f w).(trace) = w.(trace)) ->
  keeps sweeps_with (modify f).
Proof.
  intros Hf w. destruct (Hf w) as (Hr' & Hu' & Ht). cbn.
  apply sweeps_now with (evs := []);
    [exact Hr' | exact Hu' | now rewrite app_nil_r | constructor].
Qed.

Lemma sweeps_console_log line : keeps sweeps_with (console_log line).
Proof. apply sweeps_modify. intros w. repeat split; reflexivity. Qed.

Lemma sweeps_execSync cmd :
  cmd = "yarn browser build" \/ cmd = measure_command r u ->
  keeps sweeps_with (execSync E cmd).
Proof.
  intros Hcmd w. unfold execSync.
  destruct (exec_result E _); cbn [snd];
    (apply sweeps_after_tick with (evs := [EvExec cmd]);
     [reflexivity | reflexivity | reflexivity |];
     cbn; constructor; [exact Hcmd | constructor]).
Qed.

Lemma sweeps_writeFileSync path data :
  keeps sweeps_with (writeFileSync path data).
Proof.
  intros w. unfold writeFileSync. cbn [snd].
  apply sweeps_after_tick with (evs := [EvWrite path data]);
    [reflexivity | reflexivity | reflexivity |].
  cbn. constructor; [exact I | constructor].
Qed.

Lemma sweeps_copyBasePackage : keeps sweeps_with (copyBasePackage E).
Proof.
  intros w. unfold copyBasePackage, copyFile, modify. cbn [snd].
  apply sweeps_now with (evs := [EvCopyIssued (copies w) base_path live_path]);
    [reflexivity | reflexivity | reflexivity |].
  cbn. constructor; [exact I | constructor].
Qed.

Lemma sweeps_require_live : keeps sweeps_with require_live.
Proof.
  intros w. unfold require_live. destruct (cache w); [reflexivity|].
  destruct (fs (tick w) !! live_path) as [text|]; [|apply sweeps_tick].
  destruct (JSON_parse text); [|apply sweeps_tick].
  cbn [snd]. apply sweeps_after_tick with (evs := []);
    [reflexivity | reflexivity | now rewrite app_nil_r | constructor].
Qed.

Lemma sweeps_getPackagesExtensions :
  keeps sweeps_with (getPackagesExtensions E).
Proof.
  unfold getPackagesExtensions.
  apply keeps_bind; [exact _ | | intros _].
  { intros w. apply sweeps_tick. }
  destruct (packages E) as [entries|]; [|apply keeps_throw; exact _].
  generalize (@nil string).
  induction (filter _ (filter _ entries)) as [|d ds IH]; intros qs;
    cbn [push_qualifiers].
  - apply keeps_ret; exact _.
  - destruct (dir_manifest d) as [[n v]|]; [apply IH|].
    apply keeps_throw; exact _.
Qed.

Lemma sweeps_mutate q0 : keeps sweeps_with (mutate E q0).
Proof.
  unfold mutate. destruct q0 as [eq|]; [|apply keeps_ret; exact _].
  destruct (parse_qualifier eq) as [name version].
  apply keeps_bind; [exact _ | apply sweeps_require_live | intros p].
  destruct (set_dependency name version p); [|apply keeps_throw; exact _].
  apply keeps_bind; [exact _ | | intros _].
  { apply sweeps_modify. intros w. repeat split; reflexivity. }
  apply keeps_bind; [exact _ | apply sweeps_writeFileSync | intros _].
  apply keeps_bind; [exact _ | | intros _].
  { apply sweeps_execSync. now left. }
  apply keeps_ret; exact _.
Qed.

Lemma sweeps_report label output : keeps sweeps_with (report label output).
Proof.
  unfold report.
  destruct (isNaN _ || isNaN _); [apply sweeps_console_log|].
  apply keeps_bind; [exact _ | apply keeps_gets; exact _ | intros b].
  apply keeps_bind; [exact _ | | intros diff; apply sweeps_console_log].
  destruct b; try (apply keeps_ret; exact _).
  apply keeps_bind; [exact _ | | intros _; apply keeps_ret; exact _].
  apply sweeps_modify. intros w. repeat split; reflexivity.
Qed.

(** The measurement of [calculateExtension] is run with the run count
    and the URL of the world it finds. *)
Lemma sweeps_calculateExtension q0 :
  keeps sweeps_with (calculateExtension E q0).
Proof.
  intros w. unfold calculateExtension.
  pose proof (sweeps_mutate q0 w) as Hm. unfold bind at 1.
  destruct (mutate E q0 w) as [[label|err] w1]; cbn [snd] in Hm |- *;
    [|exact Hm].
  rewrite !bind_gets_eq. intros Hr Hu.
  destruct (Hm Hr Hu) as (Hr1 & Hu1 & _). rewrite Hr1, Hu1.
  assert (Hrest : keeps sweeps_with
            (bind (execSync E (measure_command r u))
               (fun output => report label output))).
  { apply keeps_bind; [exact _ | | intros output; apply sweeps_report].
    apply sweeps_execSync. now right. }
  exact (sweeps_with_trans _ _ _ Hm (Hrest w1) Hr Hu).
Qed.

Lemma sweeps_trial_loop exts : keeps sweeps_with (trial_loop E exts).
Proof.
  induction exts as [|e rest IH]; cbn [trial_loop].
  - apply keeps_ret; exact _.
  - apply keeps_bind; [exact _ | apply sweeps_calculateExtension | intros _].
    apply keeps_bind; [exact _ | apply sweeps_copyBasePackage | intros _].
    exact IH.
Qed.

Lemma sweeps_sweep_loop exts : keeps sweeps_with (sweep_loop E exts).
Proof.
  unfold sweep_loop.
  apply keeps_bind; [exact _ | | intros exts'; apply sweeps_trial_loop].
  destruct (length exts <? 1)%nat.
  - apply sweeps_getPackagesExtensions.
  - apply keeps_ret; exact _.
Qed.

Lemma sweeps_unhandled w v : sweeps_with w (set_unhandled v w).
Proof.
  apply sweeps_now with (evs := []);
    [reflexivity | reflexivity | cbn; now rewrite app_nil_r | constructor].
Qed.

Lemma sweeps_sweep_body exts : keeps sweeps_with (sweep_body E exts).
Proof.
  unfold sweep_body.
  apply keeps_bind; [exact _ | apply keeps_gets; exact _ | intros b].
  apply keeps_bind; [exact _ | | intros _; apply sweeps_sweep_loop].
  destruct b; try apply sweeps_console_log.
  apply keeps_unawaited; try exact _.
  - intros w v. apply sweeps_unhandled.
  - apply sweeps_calculateExtension.
Qed.

(** The baseline: one command, the measurement, whether it succeeds
    or not. *)
Lemma baseline_commands w :
  w.(runs) = r -> w.(url) = u ->
  exists w1, unawaited (calculateExtension E None) w = (Ret tt, w1)
    /\ w1.(runs) = r /\ w1.(url) = u
    /\ main_events w1.(trace)
       = main_events w.(trace) ++ [EvExec (measure_command r u)].
Proof.
  intros Hr Hu. unfold unawaited, calculateExtension, mutate.
  unfold bind at 1. unfold ret at 1. rewrite !bind_gets_eq, Hr, Hu.
  unfold bind.
  assert (He : let w1 := snd (execSync E (measure_command r u) w) in
               w1.(runs) = r /\ w1.(url) = u
               /\ main_events w1.(trace)
                  = main_events w.(trace) ++ [EvExec (measure_command r u)]).
  { unfold execSync.
    destruct (tick_idle_main w) as ((Hr' & _ & _ & _ & Hu' & _) & _ & _ & _ & Me).
    destruct (exec_result E _); cbn; rewrite main_events_app, Me;
      (split; [congruence|]; split; [congruence | reflexivity]). }
  destruct (execSync E (measure_command r u) w) as [[out|err] w1];
    cbn [snd] in He; destruct He as (Hr1 & Hu1 & Ht1).
  - destruct (report_spec "Base Theia" out w1) as (w2 & R2 & P2 & _).
    rewrite R2. exists w2. split; [reflexivity|].
    destruct P2 as (Hr2&Hu2&_&_&_&_&_&Me2). rewrite app_nil_r in Me2.
    split; [congruence|]. split; congruence.
  - eexists. split; [reflexivity|]. cbn. repeat split; assumption.
Qed.

(** What a sweep runs, and its headline: the commands are builds and
    measurements with the run count and the URL it finds; when it has
    no base time, the first of them is a measurement. *)
Lemma extensionImpact_commands exts w :
  w.(runs) = r -> w.(url) = u ->
  let w' := snd (extensionImpact E exts w) in
  w'.(runs) = r /\ w'.(url) = u
  /\ (exists rows, w'.(stdout) = w.(stdout) ++ header r :: rows)
  /\ exists evs,
       main_events w'.(trace) = main_events w.(trace) ++ evs
       /\ Forall (command_with r u) evs
       /\ (w.(baseTime) = BUndefined ->
           exists evs', evs = EvExec (measure_command r u) :: evs').
Proof.
  intros Hr Hu. rewrite extensionImpact_headline.
  set (w0 := set_stdout (stdout w ++ [header (runs w)]) w).
  assert (Hr0 : runs w0 = r) by exact Hr.
  assert (Hu0 : url w0 = u) by exact Hu.
  cbn zeta.
  destruct (keeps_sweep_body E exts w0) as (_ & _ & rows & Hrows).
  destruct (sweeps_sweep_body exts w0 Hr0 Hu0) as (Hr' & Hu' & evs & Ht & Ho).
  split; [exact Hr'|]. split; [exact Hu'|]. split.
  { exists rows. rewrite Hrows. subst w0. cbn. now rewrite <- app_assoc, Hr. }
  exists evs. split; [exact Ht|]. split; [exact Ho|].
  intros Hb. unfold sweep_body in Ht. rewrite bind_gets_eq in Ht.
  change (baseTime w0) with (baseTime w) in Ht. rewrite Hb in Ht.
  destruct (baseline_commands w0 Hr0 Hu0) as (w1 & R1 & Hr1 & Hu1 & Ht1).
  rewrite (bind_ret_eq _ _ _ _ _ R1) in Ht. fold (sweep_loop E exts) in Ht.
  destruct (sweeps_sweep_loop exts w1 Hr1 Hu1) as (_ & _ & evs' & Ht' & _).
  exists evs'. rewrite Ht', Ht1, <- app_assoc in Ht.
  apply app_inv_head in Ht. now symmetry.
Qed.

End Commands.

Section Default.
Context {F : Type} `{Double F} `{Json} {U8 : Utf8} (E : env).

Implicit Types (w : world (F := F)).

Lemma runs_not_given_accepted (args : argv) :
  runs_not_given args -> runs_accepted args.
Proof.
  unfold Logic.runs_not_given, runs_accepted.
  destruct (arg_runs args) as [x|]; [now left | trivial].
Qed.

Lemma runs_not_given_count (args : argv) :
  runs_not_given args -> run_count args = Some 10.
Proof.
  unfold Logic.runs_not_given, run_count.
  destruct (arg_runs args) as [x|]; [now intros -> | trivial].
Qed.

Lemma runs_text_default : runs_text (F := F) (Some 10) = "10".
Proof.
  unfold runs_text, of_integer. rewrite toString_integer; [reflexivity|].
  cbn. lia.
Qed.

Lemma prepareWorkspace_trace c w :
  w.(pool) = [] -> w.(fs) !! live_path = Some c ->
  exists w1, prepareWorkspace E w = (Ret tt, w1)
    /\ disk_only w w1 /\ w1.(execs) = w.(execs)
    /\ main_events w1.(trace)
       = main_events w.(trace)
         ++ [EvCopySync live_path backup_path;
             EvCopyIssued w.(copies) base_path live_path;
             EvMkdirIssued no_plugins_path].
Proof.
  intros Hp Hlive.
  unfold prepareWorkspace, bind, copyFileSync, copyBasePackage, copyFile,
    mkdirp, modify, tick.
  rewrite Hp. cbn. rewrite Hlive. cbn.
  eexists. split; [reflexivity|]. cbn.
  split; [repeat split|split; [reflexivity|]].
  rewrite !main_events_app. cbn. now rewrite <- !app_assoc.
Qed.

(** A run whose options pass the check of the run count, from the
    options to its end. *)
Lemma main_commands (args : argv) fs0 c :
  runs_accepted args -> fs0 !! live_path = Some c ->
  let w' := snd (main E args (init_world fs0)) in
  exists evs,
    main_events w'.(trace)
    = EvCopySync live_path backup_path
      :: EvCopyIssued 0 base_path live_path
      :: EvMkdirIssued no_plugins_path
      :: EvExec (first_build args) :: evs
    /\ Forall (command_with (run_count args) w'.(url)) evs
    /\ (exec_result E 0 <> None ->
        (exists rows, w'.(stdout) = header (run_count args) :: rows)
        /\ (base_time_not_given args ->
            exists evs',
              evs = EvExec (measure_command (run_count args) w'.(url)) :: evs')).
Proof.
  intros Hruns Hlive.
  rewrite (main_configured E args _ Hruns).
  pose proof (configured_start args fs0) as Hstart.
  pose proof (configured_base_time args (init_world fs0)) as Hb0.
  set (w0 := configured args (init_world fs0)) in *. cbn zeta in Hstart.
  destruct Hstart as (Hf & Hp & Hc & Ht & Hs & Hse & Hx & Hco & Hr & Hy).
  destruct (prepareWorkspace_trace c w0 Hp) as (w1 & R1 & D1 & Ex1 & Me1).
  { now rewrite Hf. }
  rewrite Ht, Hco in Me1. cbn [main_events app] in Me1.
  destruct D1 as (Dr1 & Db1 & De1 & Dy1 & Du1 & Ds1 & Dse1 & _).
  cbn zeta. remember (snd (sweep_start E w0)) as w' eqn:Hw'.
  unfold sweep_start in Hw'.
  rewrite (bind_ret_eq _ _ _ _ _ R1), bind_gets_eq in Hw'.
  replace (if yarn w1 then "yarn build" else "yarn browser build")
    with (first_build args) in Hw'
    by (unfold first_build; now rewrite Dy1, Hy).
  assert (He : let w2 := snd (execSync E (first_build args) w1) in
               disk_only w1 w2 /\ w2.(execs) = 1%nat
               /\ main_events w2.(trace)
                  = main_events w1.(trace) ++ [EvExec (first_build args)]).
  { pose proof (keeps_execSync E (first_build args) w1) as K.
    split; [exact K|]. unfold execSync.
    destruct (tick_idle_main w1) as (_ & _ & Ex & _ & Me).
    destruct (exec_result E _); cbn; rewrite main_events_app, Me, Ex, Ex1, Hx;
      split; reflexivity. }
  assert (Hout : fst (execSync E (first_build args) w1)
                 = match exec_result E 0 with
                   | Some out => Ret out
                   | None => Throw ("Command failed: " ++ first_build args)%string
                   end).
  { unfold execSync. destruct (tick_idle_main w1) as (_ & _ & Ex & _).
    rewrite Ex, Ex1, Hx. now destruct (exec_result E 0). }
  unfold bind at 1 in Hw'.
  destruct (execSync E (first_build args) w1) as [[out|err] w2];
    cbn [fst snd] in He, Hout; destruct He as (D2 & Ex2 & Me2);
    destruct D2 as (Dr2 & Db2 & De2 & _ & Du2 & Ds2 & Dse2 & _).
  - rewrite bind_gets_eq in Hw'.
    destruct (extensionImpact_commands E (run_count args) (url w2) (extensions w2) w2)
      as (Hr3 & Hu3 & (rows & Hrows) & evs & Ht3 & Ho3 & Hfirst).
    { congruence. }
    { reflexivity. }
    assert (Hw3 : w' = snd (extensionImpact E (extensions w2) w2)).
    { rewrite Hw'. unfold bind.
      now destruct (extensionImpact E (extensions w2) w2) as [[[]|e] w3]. }
    rewrite <- Hw3 in *. clear Hw' Hw3.
    exists evs. rewrite Hu3. split; [rewrite Ht3, Me2, Me1; reflexivity|].
    split; [exact Ho3|]. intros _. split.
    + exists rows. rewrite Hrows.
      replace (stdout w2) with (@nil string) by congruence. reflexivity.
    + intros Hbase. apply Hfirst.
      rewrite Db2, Db1, Hb0. unfold base_time_not_given in Hbase.
      destruct (arg_baseTime args) as [x|]; [now rewrite Hbase | reflexivity].
  - cbn [snd] in Hw'. subst w'. exists []. split; [now rewrite Me2, Me1|].
    split; [constructor|]. intros Hsome.
    destruct (exec_result E 0); [discriminate | congruence].
Qed.

End Default.

End ExactFacts.


(** ** The report and the run count in a whole run *)

Module RunProps.
Import JsString JsNumber Script Logic Coverage.
Import ScriptFacts NumberFacts CoverageFacts Reference Samples SweepExtras.
Import ExactFacts.
Local Open Scope list_scope.

Section Run.
Context {F : Type} `{Double F} `{Json} {U8 : Utf8} (E : env).


(** C10.  When [--runs] is absent or falsy (zero or [NaN]), the check
    of the run count is not triggered and the sweep proceeds with the
    default of 10 runs: the start-up function does not take its early
    return and prints nothing on the error stream, and the run count
    stays 10, which prints as [10].  When the live manifest exists,
    the main thread prepares the workspace and runs the first build,
    and every command it runs after that is a build or a measurement
    with [--runs 10]; when the first build succeeds, the headline is
    printed and announces 10 runs, and, unless a base time was
    supplied, the next command is the measurement of the baseline with
    [--runs 10]. *)
Theorem runs_absent_or_zero_keeps_default (args : argv)
    (fs0 : gmap string string) :
  runs_not_given args ->
  let '(res, w') := main E args (init_world fs0) in
  res <> Ret false
  /\ w'.(runs) = Some 10 /\ runs_text (F := F) (Some 10) = "10"%string
  /\ w'.(stderr) = []
  /\ (fs0 !! live_path <> None ->
      exists evs,
        main_events w'.(trace)
        = EvCopySync live_path backup_path
          :: EvCopyIssued 0 base_path live_path
          :: EvMkdirIssued no_plugins_path
          :: EvExec (first_build args) :: evs
        /\ Forall (command_with (Some 10) w'.(url)) evs
        /\ (exec_result E 0 <> None ->
            (exists rows, w'.(stdout) = header (Some 10) :: rows)
            /\ (base_time_not_given args ->
                exists evs',
                  evs = EvExec (measure_command (Some 10) w'.(url)) :: evs'))).
Proof.
  intros Hruns.
  pose proof (main_default E args Hruns (init_world fs0)) as Hm.
  assert (Hcmd : forall c, fs0 !! live_path = Some c -> _)
    by (intros c Hlive;
        exact (main_commands E args fs0 c
                 (runs_not_given_accepted args Hruns) Hlive)).
  cbn zeta in Hcmd. rewrite (runs_not_given_count args Hruns) in Hcmd.
  assert (Hlive : fs0 !! live_path <> None ->
                  exists c, fs0 !! live_path = Some c)
    by (destruct (fs0 !! live_path) as [c|]; [now exists c | congruence]).
  destruct (main E args (init_world fs0)) as [[started|e] w']; cbn [snd] in Hcmd.
  - destruct Hm as [-> (Hr & He & Hs)]; [repeat split|].
    split; [discriminate|]. split; [exact Hr|].
    split; [apply runs_text_default|]. split; [exact He|].
    intros Hl. destruct (Hlive Hl) as [c Hc]. exact (Hcmd c Hc).
  - destruct Hm as (Hr & He & Hs); [repeat split|].
    split; [discriminate|]. split; [exact Hr|].
    split; [apply runs_text_default|]. split; [exact He|].
    intros Hl. destruct (Hlive Hl) as [c Hc]. exact (Hcmd c Hc).
Qed.

(** X9.  The run count is the integer [parseInt] reads in the text of
    [--runs] (2 for 2.5; 1, and so a rejection, for a value that
    prints as 1e+21).  When that integer is 2 or more, the sweep
    proceeds with it: the start-up function does not take its early
    return and prints nothing on the error stream, and [runs] holds
    the integer, which prints as its decimal digits when it is no more
    than 2^53.  When the live manifest exists, the main thread
    prepares the workspace and runs the first build, and every command
    it runs after that is a build or a measurement with that run
    count; when the first build succeeds, the headline is printed and
    announces that run count, and, unless a base time was supplied,
    the next command is the measurement of the baseline with it. *)
Theorem runs_at_least_two_set_the_count (args : argv)
    (fs0 : gmap string string) (x : number F) (z : Z) :
  args.(arg_runs) = Some x -> num_truthy x = true ->
  parseInt (num_toString x) = Some z -> 2 <= z ->
  let '(res, w') := main E args (init_world fs0) in
  res <> Ret false
  /\ w'.(runs) = Some z /\ w'.(stderr) = []
  /\ (z <= 9007199254740992 -> runs_text (F := F) (Some z) = int_toString z)
  /\ (fs0 !! live_path <> None ->
      exists evs,
        main_events w'.(trace)
        = EvCopySync live_path backup_path
          :: EvCopyIssued 0 base_path live_path
          :: EvMkdirIssued no_plugins_path
          :: EvExec (first_build args) :: evs
        /\ Forall (command_with (Some z) w'.(url)) evs
        /\ (exec_result E 0 <> None ->
            (exists rows, w'.(stdout) = header (Some z) :: rows)
            /\ (base_time_not_given args ->
                exists evs',
                  evs = EvExec (measure_command (Some z) w'.(url)) :: evs'))).
Proof.
  intros Hruns Htruthy Hparse Hz.
  pose proof (StartupExtras.run_count_taken E args fs0 x z
                Hruns Htruthy Hparse Hz) as Hm.
  assert (Hacc : runs_accepted args).
  { unfold runs_accepted. rewrite Hruns, Hparse. now right. }
  assert (Hcount : run_count args = Some z).
  { unfold run_count. now rewrite Hruns, Htruthy. }
  assert (Hcmd : forall c, fs0 !! live_path = Some c -> _)
    by (intros c Hlive; exact (main_commands E args fs0 c Hacc Hlive)).
  cbn zeta in Hcmd. rewrite Hcount in Hcmd.
  assert (Hlive : fs0 !! live_path <> None ->
                  exists c, fs0 !! live_path = Some c)
    by (destruct (fs0 !! live_path) as [c|]; [now exists c | congruence]).
  destruct (main E args (init_world fs0)) as [res w']; cbn [snd] in Hcmd.
  destruct Hm as (Hres & Hr & He & _ & Htext).
  split; [exact Hres|]. split; [exact Hr|]. split; [exact He|].
  split; [exact Htext|].
  intros Hl. destruct (Hlive Hl) as [c Hc]. exact (Hcmd c Hc).
Qed.

(** X10.  With a base time supplied on the command line (and not zero
    or [NaN]), readable manifests and commands that all succeed, no
    baseline is measured: the run returns having run the first build
    and two commands per qualifier and nothing else, and the console
    holds the headline, the line [Base Theia (provided)] with the
    string [toFixed(3)] makes of the base time, and then exactly one
    row per qualifier, each a measured row whose delta is its mean
    minus that base time or the error row.  No measured mean replaces
    the base time. *)
Theorem supplied_base_time_is_kept (args : argv) (fs0 : gmap string string)
    (x : number F) (exts : list string) :
  args.(arg_baseTime) = Some x -> num_truthy x = true ->
  sweep_qualifiers E (given_extensions args) = Some exts ->
  runs_accepted args ->
  disk_readable fs0 -> commands_succeed E 0 ->
  let s := toFixed (parseFloat (num_toString x)) in
  let '(res, w') := main E args (init_world fs0) in
  res = Ret true
  /\ w'.(stdout)
     = header (run_count args) :: provided_row s
       :: rows_as_specified (BString s) (loop_trials E 1 exts)
  /\ w'.(baseTime) = BString s
  /\ w'.(execs) = (1 + 2 * length exts)%nat.
Proof.
  intros Hbase Htruthy Hexts Hacc Hdisk Hok s.
  destruct (main_given E args fs0 exts x Hbase Htruthy Hexts Hacc Hdisk Hok)
    as (w' & -> & Hs & Hb & Hx).
  split; [reflexivity|]. split; [exact Hs|]. split; assumption.
Qed.

End Run.

Lemma clean_disk_readable : disk_readable clean_disk.
Proof.
  split.
  - exists original_text. split; [reflexivity|].
    exists original_package. split; [reflexivity | discriminate].
  - exists (print_package base_package). split; [reflexivity|].
    exists base_package. split; [reflexivity | discriminate].
Qed.


Lemma runs_absent_or_zero_keeps_default_witness :
  let '(res, w') := main calm (with_runs 0) (init_world clean_disk) in
  res <> Ret false
  /\ w'.(runs) = Some 10 /\ runs_text (F := string) (Some 10) = "10"%string
  /\ w'.(stderr) = []
  /\ (clean_disk !! live_path <> None ->
      exists evs,
        main_events w'.(trace)
        = EvCopySync live_path backup_path
          :: EvCopyIssued 0 base_path live_path
          :: EvMkdirIssued no_plugins_path
          :: EvExec (first_build (with_runs 0)) :: evs
        /\ Forall (command_with (Some 10) w'.(url)) evs
        /\ (exec_result calm 0 <> None ->
            (exists rows, w'.(stdout) = header (Some 10) :: rows)
            /\ (base_time_not_given (with_runs 0) ->
                exists evs',
                  evs = EvExec (measure_command (Some 10) w'.(url)) :: evs'))).
Proof.
  apply (runs_absent_or_zero_keeps_default calm (with_runs 0) clean_disk).
  reflexivity.
Defined.

Lemma runs_at_least_two_set_the_count_witness :
  let '(res, w') := main calm (with_runs 3) (init_world clean_disk) in
  res <> Ret false
  /\ w'.(runs) = Some 3 /\ w'.(stderr) = []
  /\ (3 <= 9007199254740992 -> runs_text (F := string) (Some 3) = "3"%string)
  /\ (clean_disk !! live_path <> None ->
      exists evs,
        main_events w'.(trace)
        = EvCopySync live_path backup_path
          :: EvCopyIssued 0 base_path live_path
          :: EvMkdirIssued no_plugins_path
          :: EvExec (first_build (with_runs 3)) :: evs
        /\ Forall (command_with (Some 3) w'.(url)) evs
        /\ (exec_result calm 0 <> None ->
            (exists rows, w'.(stdout) = header (Some 3) :: rows)
            /\ (base_time_not_given (with_runs 3) ->
                exists evs',
                  evs = EvExec (measure_command (Some 3) w'.(url)) :: evs'))).
Proof.
  apply (runs_at_least_two_set_the_count calm (with_runs 3) clean_disk
           (Some "3") 3).
  - reflexivity.
  - reflexivity.
  - reflexivity.
  - lia.
Defined.

Lemma supplied_base_time_is_kept_witness :
  let s := toFixed (parseFloat (F := string) (num_toString (Some "2.000"))) in
  let '(res, w') := main calm (with_base_time "2.000" two_extensions)
                      (init_world clean_disk) in
  res = Ret true
  /\ w'.(stdout)
     = header (run_count (with_base_time "2.000" two_extensions))
       :: provided_row s
       :: rows_as_specified (BString s) (loop_trials calm 1 two_extensions)
  /\ w'.(baseTime) = BString s
  /\ w'.(execs) = (1 + 2 * length two_extensions)%nat.
Proof.
  apply (supplied_base_time_is_kept calm
           (with_base_time "2.000" two_extensions) clean_disk
           (Some "2.000") two_extensions).
  - reflexivity.
  - reflexivity.
  - reflexivity.
  - exact I.
  - exact clean_disk_readable.
  - apply calm_succeeds.
Defined.

End RunProps.
